(** * CalCS: the expression pipeline of the interactive visualizer

    A shallow embedding of [main.py] (a Streamlit script that is re-run from
    top to bottom on every interaction) and of the launcher [run_app.py].

    Numbers are IEEE 754 binary64 values, computed with the executable
    specification [SpecFloat] of the Standard Library.  The symbolic engine
    (parser, differentiation, limits), the widget states and the named
    functions of the numeric namespace are external collaborators: they
    enter as fields of a record the script is parameterised with. *)

From Stdlib Require Import Reals Lra Qreals.
From Stdlib Require Import ZArith QArith Qfield Lia Lqa List String Ascii Bool.
From Stdlib Require Import DecimalString.
From Stdlib Require Import Floats.SpecFloat.
Import ListNotations.

Local Open Scope Z_scope.

(** ** Binary64 arithmetic *)

Module Binary64.

Definition prec : Z := 53.
Definition emax : Z := 1024.

Definition float := spec_float.

Definition add : float -> float -> float := SFadd prec emax.
Definition sub : float -> float -> float := SFsub prec emax.
Definition mul : float -> float -> float := SFmul prec emax.
Definition div : float -> float -> float := SFdiv prec emax.
Definition eqb : float -> float -> bool := SFeqb.
Definition ltb : float -> float -> bool := SFltb.
Definition leb : float -> float -> bool := SFleb.

(** The binary64 value nearest to an integer. *)
Definition of_Z (n : Z) : float := binary_normalize prec emax n 0 false.

(** The binary64 value of the decimal literal [m / 10^d] (correctly
    rounded, as a Python float literal is), for [m] and [10^d] below
    [2^53]. *)
Definition of_decimal (m : Z) (d : nat) : float :=
  div (of_Z m) (of_Z (10 ^ Z.of_nat d)).

Definition zero : float := S754_zero false.
Definition inf : float := S754_infinity false.
Definition nan : float := S754_nan.

Definition is_finite (x : float) : bool :=
  match x with
  | S754_zero _ | S754_finite _ _ _ => true
  | S754_infinity _ | S754_nan => false
  end.

Definition abs : float -> float := SFabs.

End Binary64.

(** ** The numeric core, generic in the arithmetic

    [linspace], the tangent line and the secant slope are written once over
    an interface of arithmetic operations; the script runs them on binary64,
    and the rationals and the reals give the exact arithmetic they
    approximate. *)

Class Arith (R : Type) := {
  radd : R -> R -> R;
  rsub : R -> R -> R;
  rmul : R -> R -> R;
  rdiv : R -> R -> R;
  rofZ : Z -> R;
  reqb : R -> R -> bool
}.

#[global] Instance Arith_binary64 : Arith Binary64.float := {
  radd := Binary64.add;
  rsub := Binary64.sub;
  rmul := Binary64.mul;
  rdiv := Binary64.div;
  rofZ := Binary64.of_Z;
  reqb := Binary64.eqb
}.

#[global] Instance Arith_Q : Arith Q := {
  radd := Qplus;
  rsub := Qminus;
  rmul := Qmult;
  rdiv := Qdiv;
  rofZ := inject_Z;
  reqb := Qeq_bool
}.

#[global] Instance Arith_R : Arith R := {
  radd := Rplus;
  rsub := Rminus;
  rmul := Rmult;
  rdiv := Rdiv;
  rofZ := IZR;
  reqb := fun a b => if Req_EM_T a b then true else false
}.

Section NumericCore.
Context {R : Type} `{Arith R}.

(** [numpy.linspace(start, stop, num)] with the default [endpoint=True]:
    [arange(num) * step + start] with [step = (stop - start) / (num - 1)]
    (or [arange(num) / (num - 1) * (stop - start)] when the step is zero),
    the last entry then overwritten with [stop]. *)
Definition linspace_entry (start stop : R) (num : nat) (i : nat) : R :=
  let dv := rofZ (Z.of_nat (num - 1)) in
  let delta := rsub stop start in
  let step := rdiv delta dv in
  let y := rofZ (Z.of_nat i) in
  radd (if reqb step (rofZ 0) then rmul (rdiv y dv) delta else rmul y step)
       start.

Definition linspace (start stop : R) (num : nat) : list R :=
  match num with
  | O => []
  | S O => [start]
  | S n => map (linspace_entry start stop num) (seq 0 n) ++ [stop]
  end.

(** [f(a) + f_prime(a) * (x - a)], one entry of [tangent_line]. *)
Definition tangent_at (fa fpa a x : R) : R :=
  radd fa (rmul fpa (rsub x a)).

(** [slope = (y1 - y0) / (x1 - x0)]. *)
Definition secant_slope (x0 x1 y0 y1 : R) : R :=
  rdiv (rsub y1 y0) (rsub x1 x0).

(** [slope * (x - x0) + y0], one entry of [secant]. *)
Definition secant_at (slope x0 y0 x : R) : R :=
  radd (rmul slope (rsub x x0)) y0.

(** The secant slopes of [g] at [a] for the steps [hs]. *)
Definition secant_slopes (g : R -> R) (a : R) (hs : list R) : list R :=
  map (fun h => secant_slope a (radd a h) (g a) (g (radd a h))) hs.

End NumericCore.

(** The two grids of the script. *)
Definition x_vals : list Binary64.float :=
  linspace (Binary64.of_Z (-10)) (Binary64.of_Z 10) 400.

Definition h_vals : list Binary64.float :=
  linspace (Binary64.of_decimal 10 1) (Binary64.of_decimal 1 2) 20.

(** ** Python values, exceptions and NumPy broadcasting *)

Local Open Scope string_scope.
Local Open Scope list_scope.

(** A raised Python exception (all of them instances of [Exception]). *)
Inductive Exc := Exception (cls : string) (msg : string).

Inductive Result (A : Type) :=
| Raise (e : Exc)
| Ok (a : A).
Arguments Raise {A} e.
Arguments Ok {A} a.

Definition rbind {A B} (r : Result A) (k : A -> Result B) : Result B :=
  match r with
  | Raise e => Raise e
  | Ok a => k a
  end.

Declare Scope result_scope.
Delimit Scope result_scope with result.
Notation "x <- r ;; k" := (rbind r (fun x => k))
  (at level 61, r at next level, right associativity) : result_scope.

(** A value at run time: a Python float, a NumPy float64 scalar, a
    one-dimensional NumPy array of float64, a symbolic expression, or a
    one-dimensional NumPy array of [n] symbolic expressions (of dtype
    [object]). *)
Inductive NVal :=
| PyNum (v : Binary64.float)
| NpNum (v : Binary64.float)
| NpArr (l : list Binary64.float)
| PyObj
| ObjArr (n : nat).

Inductive BinOp := OAdd | OSub | OMul | ODiv | OPow.

Definition is_zero (x : Binary64.float) : bool :=
  match x with
  | S754_zero _ => true
  | _ => false
  end.

Fixpoint map2 {A B C} (g : A -> B -> C) (l1 : list A) (l2 : list B) : list C :=
  match l1, l2 with
  | a :: l1', b :: l2' => g a b :: map2 g l1' l2'
  | _, _ => []
  end.

(** Elementwise application of a NumPy operation, with broadcasting of
    scalars and of one-element arrays. *)
Definition broadcast (g : Binary64.float -> Binary64.float -> Binary64.float)
    (u v : NVal) : Result NVal :=
  match u, v with
  | NpArr l1, NpArr l2 =>
      if Nat.eqb (List.length l1) (List.length l2) then Ok (NpArr (map2 g l1 l2))
      else match l1, l2 with
           | [a], _ => Ok (NpArr (map (g a) l2))
           | _, [b] => Ok (NpArr (map (fun a => g a b) l1))
           | _, _ => Raise (Exception "ValueError"
                              "operands could not be broadcast together")
           end
  | NpArr l, PyNum b | NpArr l, NpNum b =>
      Ok (NpArr (map (fun a => g a b) l))
  | PyNum a, NpArr l | NpNum a, NpArr l => Ok (NpArr (map (g a) l))
  | PyNum a, PyNum b | PyNum a, NpNum b
  | NpNum a, PyNum b | NpNum a, NpNum b => Ok (NpNum (g a b))
  | PyObj, _ | _, PyObj | ObjArr _, _ | _, ObjArr _ =>
      Raise (Exception "TypeError" "unsupported operand type")
  end.

(** The length of an array; a scalar has none. *)
Definition length_of (v : NVal) : option nat :=
  match v with
  | NpArr l => Some (List.length l)
  | ObjArr n => Some n
  | PyNum _ | NpNum _ | PyObj => None
  end.

(** An operator with a symbolic operand: the result is symbolic, entry by
    entry when an operand is an array, with the broadcasting of arrays. *)
Definition obj_broadcast (u v : NVal) : Result NVal :=
  match length_of u, length_of v with
  | None, None => Ok PyObj
  | Some n, None | None, Some n => Ok (ObjArr n)
  | Some n, Some m =>
      if Nat.eqb n m then Ok (ObjArr n)
      else if Nat.eqb n 1 then Ok (ObjArr m)
      else if Nat.eqb m 1 then Ok (ObjArr n)
      else Raise (Exception "ValueError"
                    "operands could not be broadcast together")
  end.

(** A NumPy function of one argument applied to a value. *)
Definition apply_ufunc (g : Binary64.float -> Binary64.float) (u : NVal) : NVal :=
  match u with
  | PyNum a | NpNum a => NpNum (g a)
  | NpArr l => NpArr (map g l)
  | PyObj => PyObj
  | ObjArr n => ObjArr n
  end.

(** ** Symbolic expressions and the external engine *)

(** The expression trees the parser produces. *)
Inductive Expr :=
| Int (n : Z)
| Flt (v : Binary64.float)
| Sym (name : string)
| Con (name : string)
| EAdd (a b : Expr)
| EMul (a b : Expr)
| EPow (a b : Expr)
| Fn (name : string) (arg : Expr).

Inductive Dir := FromLeft | FromRight.

(** What a generated function finds in its namespace when it is called:
    the power operator on Python floats (which may raise) and on NumPy
    values, the named constants and functions of the numeric module, and
    whether a named function accepts a symbolic argument (it then returns
    a symbolic value of the same shape) or raises on it. *)
Record Namespace := {
  py_pow : Binary64.float -> Binary64.float -> Result Binary64.float;
  np_pow : Binary64.float -> Binary64.float -> Binary64.float;
  np_const : string -> option Binary64.float;
  np_func : string -> option (Binary64.float -> Binary64.float);
  obj_call : string -> Result unit
}.

(** The collaborators the script calls into: the symbolic engine
    ([sympify], [diff], [limit]), the code generation of [lambdify] (the
    printing of an expression as NumPy code, which raises on what the
    printer does not support) and the numeric namespace. *)
Record Engine := {
  sympify : string -> Result Expr;
  diff : Expr -> string -> Result Expr;
  limit : Expr -> string -> Binary64.float -> Dir -> Result Expr;
  numpy_code : Expr -> Result unit;
  numeric : Namespace
}.

Section Evaluation.
Variable N : Namespace.
Local Open Scope result_scope.

(** An operator between NumPy values: IEEE 754, never raising. *)
Definition np_binop (o : BinOp) (a b : Binary64.float) : Binary64.float :=
  match o with
  | OAdd => Binary64.add a b
  | OSub => Binary64.sub a b
  | OMul => Binary64.mul a b
  | ODiv => Binary64.div a b
  | OPow => np_pow N a b
  end.

(** An operator between two Python floats. *)
Definition py_binop (o : BinOp) (a b : Binary64.float) : Result Binary64.float :=
  match o with
  | OAdd => Ok (Binary64.add a b)
  | OSub => Ok (Binary64.sub a b)
  | OMul => Ok (Binary64.mul a b)
  | ODiv => if is_zero b
            then Raise (Exception "ZeroDivisionError" "float division by zero")
            else Ok (Binary64.div a b)
  | OPow => py_pow N a b
  end.

Definition binop (o : BinOp) (u v : NVal) : Result NVal :=
  match u, v with
  | PyObj, _ | _, PyObj | ObjArr _, _ | _, ObjArr _ => obj_broadcast u v
  | PyNum a, PyNum b => c <- py_binop o a b ;; Ok (PyNum c)
  | _, _ => broadcast (np_binop o) u v
  end.

(** Calling the function [lambdify(arg, e, modules=['numpy'])] on [x]: the
    expression is evaluated as Python code over the numeric namespace,
    operands left to right, a function name before its argument.  An
    integer enters the arithmetic as the nearest binary64 value, and one
    too large for that raises; a symbol other than the argument is bound
    to itself, a symbolic value. *)
Fixpoint eval (arg : string) (e : Expr) (x : NVal) : Result NVal :=
  match e with
  | Int n => if Binary64.is_finite (Binary64.of_Z n)
             then Ok (PyNum (Binary64.of_Z n))
             else Raise (Exception "OverflowError"
                           "int too large to convert to float")
  | Flt v => Ok (PyNum v)
  | Sym s => if String.eqb s arg then Ok x else Ok PyObj
  | Con c => match np_const N c with
             | Some v => Ok (PyNum v)
             | None => Raise (Exception "NameError" c)
             end
  | EAdd a b => u <- eval arg a x ;; v <- eval arg b x ;; binop OAdd u v
  | EMul a b => u <- eval arg a x ;; v <- eval arg b x ;; binop OMul u v
  | EPow a b => u <- eval arg a x ;; v <- eval arg b x ;; binop OPow u v
  | Fn name a => match np_func N name with
                 | None => Raise (Exception "NameError" name)
                 | Some g => u <- eval arg a x ;;
                             match u with
                             | PyObj | ObjArr _ => ok <- obj_call N name ;; Ok u
                             | _ => Ok (apply_ufunc g u)
                             end
                 end
  end.

Definition lambdify (arg : string) (e : Expr) : NVal -> Result NVal :=
  eval arg e.

End Evaluation.

(** The symbols of an expression. *)
Fixpoint free_symbols (e : Expr) : list string :=
  match e with
  | Int _ | Flt _ | Con _ => []
  | Sym s => [s]
  | EAdd a b | EMul a b | EPow a b => free_symbols a ++ free_symbols b
  | Fn _ a => free_symbols a
  end.

(** [==] between two symbolic values: structural equality of the trees. *)
Definition float_eq_dec (a b : Binary64.float) : {a = b} + {a <> b}.
Proof.
  decide equality; try apply Z.eq_dec; try apply Pos.eq_dec; apply bool_dec.
Defined.

Definition Expr_eq_dec (a b : Expr) : {a = b} + {a <> b}.
Proof.
  decide equality; try apply string_dec; try apply Z.eq_dec;
    apply float_eq_dec.
Defined.

Definition Expr_eqb (a b : Expr) : bool :=
  if Expr_eq_dec a b then true else false.

(** ** The user interface: what a rerun renders *)

Inductive Label :=
| LCurve                                   (* "f(x)" *)
| LTangent (a : Binary64.float)            (* "Tangent at x={a:.2f}" *)
| LSecant (h : Binary64.float)             (* "Secant h={h:.4f}" *)
| LTitleTangent (a : Binary64.float)       (* "Function and Tangent at x = {a:.2f}" *)
| LTitleSecant (a : Binary64.float).       (* "Secant -> Tangent at x={a:.2f}" *)

Inductive Artist :=
| APlot (xs ys : NVal) (label : Label)
| AScatter (xs ys : list NVal)
| ATitle (t : Label)
| AXLabel (s : string)
| AYLabel (s : string)
| AGrid
| ALegend.

Definition Figure := list Artist.

(** The first dimension of a value as [ax.plot] sees it: a scalar counts
    as an array of one entry. *)
Definition shape (v : NVal) : nat :=
  match v with
  | PyNum _ | NpNum _ | PyObj => 1%nat
  | NpArr l => List.length l
  | ObjArr n => n
  end.

Definition is_object (v : NVal) : bool :=
  match v with
  | PyObj | ObjArr _ => true
  | _ => false
  end.

(** A natural number in decimal. *)
Definition decimal (n : nat) : string :=
  NilEmpty.string_of_uint (Nat.to_uint n).

(** [ax.plot(xs, ys, ...)]: the two operands must have the same first
    dimension, which is checked first, and must then convert to floats. *)
Definition ax_plot (xs ys : NVal) (label : Label) : Result Artist :=
  if negb (Nat.eqb (shape xs) (shape ys))
  then Raise (Exception "ValueError"
                ("x and y must have same first dimension, but have shapes ("
                 ++ decimal (shape xs) ++ ",) and ("
                 ++ decimal (shape ys) ++ ",)")%string)
  else if is_object xs || is_object ys
  then Raise (Exception "TypeError" "Cannot convert expression to float")
  else Ok (APlot xs ys label).

Inductive Message :=
| Static (s : string)
| ParseErrorMsg (e : Exc)                           (* "Error parsing function: {e}" *)
| DerivExprMsg (d : Expr)                           (* "f'(x) = {f_prime_expr}" *)
| DerivValueMsg (a : Binary64.float) (v : NVal)     (* "f'({a:.2f}) = {f_prime(a):.4f}" *)
| LeftLimitMsg (p : Binary64.float) (l : Expr)
| RightLimitMsg (p : Binary64.float) (l : Expr)
| LimitExistsMsg (l : Expr)                         (* "Limit exists and equals {lim_left}" *)
| LimitDNEMsg                                       (* "Limit does not exist (left /= right)" *)
| LimitErrorMsg (e : Exc).                          (* "Limit error: {e}" *)

Inductive UIEvent :=
| PageConfig (title layout : string)
| Title (s : string)
| Expander (label : string)
| SidebarHeader (s : string)
| TextInput (label default : string)
| Header (s : string)
| Slider (label : string)
| Button (label : string)
| Markdown (m : Message)
| Latex (m : Message)
| ErrorBox (m : Message)
| SuccessBox (m : Message)
| Pyplot (fig : Figure)
| EmptyPlaceholder
| PlaceholderPyplot (fig : Figure)
| Sleep (seconds : Binary64.float).

Definition Trace := list UIEvent.

(** How a rerun, or a part of it, ends: it went through, [st.stop()] halted
    the rerun, or an exception nobody caught aborted it.  The hosting
    process survives all three. *)
Inductive Outcome (A : Type) :=
| Done (a : A)
| Stopped
| Aborted (e : Exc).
Arguments Done {A} a.
Arguments Stopped {A}.
Arguments Aborted {A} e.

(** A piece of the script: the events it renders, in order, and how it
    ended. *)
Definition Script (A : Type) : Type := Trace * Outcome A.

Definition ret {A} (a : A) : Script A := ([], Done a).

Definition bind {A B} (m : Script A) (k : A -> Script B) : Script B :=
  match m with
  | (tr, Done a) => let (tr', o) := k a in (tr ++ tr', o)
  | (tr, Stopped) => (tr, Stopped)
  | (tr, Aborted e) => (tr, Aborted e)
  end.

Definition emit (ev : UIEvent) : Script unit := ([ev], Done tt).

Definition st_stop {A} : Script A := ([], Stopped).

(** A computation outside any [try]: an exception aborts the rerun. *)
Definition lift {A} (r : Result A) : Script A :=
  match r with
  | Ok a => ([], Done a)
  | Raise e => ([], Aborted e)
  end.

Declare Scope script_scope.
Delimit Scope script_scope with script.
Notation "x <- m ;; k" := (bind m (fun x => k))
  (at level 61, m at next level, right associativity) : script_scope.
Notation "m ;; k" := (bind m (fun _ => k))
  (at level 61, right associativity) : script_scope.

Fixpoint for_each {A} (l : list A) (body : A -> Script unit) : Script unit :=
  match l with
  | [] => ret tt
  | a :: l' => bind (body a) (fun _ => for_each l' body)
  end.

(** The widget states of one rerun. *)
Record Inputs := {
  func_input : string;            (* the text field, default "sin(x)" *)
  tangent_x : Binary64.float;     (* slider [a] *)
  limit_x : Binary64.float;       (* slider [limit_point] *)
  run_animation : bool;           (* button "Run Animation" *)
  show_solution : nat -> bool     (* buttons "Show Solution 1" .. "5" *)
}.

(** What the [try] block of the function input leaves behind. *)
Record Parsed := {
  expr : Expr;
  f_prime_expr : Expr
}.

(** ** The script [main.py], section by section *)

(** [x = symbols('x')] *)
Definition x_sym : string := "x".

Section Main.
Variable E : Engine.

(** Lines 8-28: page setup and the "About" expander. *)
Definition setup : Script unit :=
  (emit (PageConfig "CalCS: Interactive Visualizer" "centered") ;;
   emit (Title "CalCS Interactive Visualizer: Limits and Derivatives") ;;
   emit (Expander "ℹ️ About This Project"))%script.

(** Lines 37-40, the body of the [try]: parsing, the generation of [f],
    differentiation, the generation of [f_prime]. *)
Definition parse_stage (text : string) : Result Parsed :=
  (e <- sympify E text ;;
   f <- numpy_code E e ;;
   d <- diff E e x_sym ;;
   f_prime <- numpy_code E d ;;
   Ok {| expr := e; f_prime_expr := d |})%result.

(** [f] and [f_prime], the two generated functions. *)
Definition f (p : Parsed) : NVal -> Result NVal := lambdify (numeric E) x_sym (expr p).
Definition f_prime (p : Parsed) : NVal -> Result NVal :=
  lambdify (numeric E) x_sym (f_prime_expr p).

(** Lines 33-43: the sidebar input and the [try]/[except] around parsing. *)
Definition function_input (text : string) : Script Parsed :=
  (emit (SidebarHeader "Function Settings") ;;
   emit (TextInput "Enter a function of x:" "sin(x)") ;;
   match parse_stage text with
   | Ok p => ret p
   | Raise e => emit (ErrorBox (ParseErrorMsg e)) ;; st_stop
   end)%script.

(** Line 46: [y_vals = f(x_vals)]. *)
Definition eval_grid (p : Parsed) : Script NVal :=
  lift (f p (NpArr x_vals)).

(** Lines 49-84: the three explanatory expanders. *)
Definition learn_concepts : Script unit :=
  (emit (Header "Learn the Concepts") ;;
   emit (Expander "🔹 What is a Limit?") ;;
   emit (Expander "🔹 What is a Derivative?") ;;
   emit (Expander "🔹 From Secant to Tangent"))%script.

(** Line 89: [tangent_line = f(a) + f_prime(a) * (x_vals - a)]. *)
Definition tangent_line (p : Parsed) (a : NVal) : Result NVal :=
  (fa <- f p a ;;
   fpa <- f_prime p a ;;
   d <- binop (numeric E) OSub (NpArr x_vals) a ;;
   m <- binop (numeric E) OMul fpa d ;;
   binop (numeric E) OAdd fa m)%result.

(** Lines 87-104. *)
Definition tangent_visualizer (p : Parsed) (y_vals : NVal)
    (a : Binary64.float) : Script unit :=
  (emit (Header "Tangent Line Visualizer") ;;
   emit (Slider "Choose x-value for tangent:") ;;
   tl <- lift (tangent_line p (PyNum a)) ;;
   c <- lift (ax_plot (NpArr x_vals) y_vals LCurve) ;;
   t <- lift (ax_plot (NpArr x_vals) tl (LTangent a)) ;;
   fa <- lift (f p (PyNum a)) ;;
   emit (Pyplot [c; t; AScatter [PyNum a] [fa]; ATitle (LTitleTangent a);
                 AXLabel "x"; AYLabel "f(x)"; AGrid; ALegend]) ;;
   emit (Markdown (DerivExprMsg (f_prime_expr p))) ;;
   fpa <- lift (f_prime p (PyNum a)) ;;
   emit (Markdown (DerivValueMsg a fpa)))%script.

(** Lines 111-120, the body of the [try]: both one-sided limits, then the
    two formulas, then the verdict. *)
Definition limit_events (e : Expr) (limit_point : Binary64.float)
    : Result (list UIEvent) :=
  (lim_left <- limit E e x_sym limit_point FromLeft ;;
   lim_right <- limit E e x_sym limit_point FromRight ;;
   Ok [Latex (LeftLimitMsg limit_point lim_left);
       Latex (RightLimitMsg limit_point lim_right);
       if Expr_eqb lim_left lim_right
       then SuccessBox (LimitExistsMsg lim_left)
       else ErrorBox LimitDNEMsg])%result.

(** Lines 107-122: the limit calculator, with its [try]/[except]. *)
Definition limit_calculator (p : Parsed) (limit_point : Binary64.float)
    : Script unit :=
  (emit (Header "Limit Calculator") ;;
   emit (Slider "Choose x-value for limit:") ;;
   match limit_events (expr p) limit_point with
   | Ok evs => for_each evs emit
   | Raise e => emit (ErrorBox (LimitErrorMsg e))
   end)%script.

(** Line 134: [slope = (y1 - y0) / (x1 - x0)]. *)
Definition slope (x0 x1 y0 y1 : NVal) : Result NVal :=
  (n <- binop (numeric E) OSub y1 y0 ;;
   d <- binop (numeric E) OSub x1 x0 ;;
   binop (numeric E) ODiv n d)%result.

(** Line 135: [secant = slope * (x_vals - x0) + y0]. *)
Definition secant (sl x0 y0 : NVal) : Result NVal :=
  (d <- binop (numeric E) OSub (NpArr x_vals) x0 ;;
   m <- binop (numeric E) OMul sl d ;;
   binop (numeric E) OAdd m y0)%result.

(** Lines 132-134: the two points of the secant and its slope. *)
Definition secant_points (p : Parsed) (a h : Binary64.float)
    : Result (NVal * NVal * NVal * NVal) :=
  (x1 <- binop (numeric E) OAdd (PyNum a) (NpNum h) ;;
   y0 <- f p (PyNum a) ;;
   y1 <- f p x1 ;;
   sl <- slope (PyNum a) x1 y0 y1 ;;
   Ok (x1, y0, y1, sl))%result.

(** Lines 130-143: one iteration of the animation loop. *)
Definition secant_frame (p : Parsed) (y_vals : NVal) (a : Binary64.float)
    (h : Binary64.float) : Script unit :=
  (c <- lift (ax_plot (NpArr x_vals) y_vals LCurve) ;;
   pts <- lift (secant_points p a h) ;;
   let '(x1, y0, y1, sl) := pts in
   sec <- lift (secant sl (PyNum a) y0) ;;
   s <- lift (ax_plot (NpArr x_vals) sec (LSecant h)) ;;
   emit (PlaceholderPyplot [c; s; AScatter [PyNum a; x1] [y0; y1];
                            ATitle (LTitleSecant a); AGrid; ALegend]) ;;
   emit (Sleep (Binary64.of_decimal 2 1)))%script.

(** The slopes the loop computes, one per step. *)
Definition animation_slopes (p : Parsed) (a : Binary64.float)
    : list (Result NVal) :=
  map (fun h => (pts <- secant_points p a h ;;
                 let '(_, _, _, sl) := pts in Ok sl)%result) h_vals.

(** Lines 125-143. *)
Definition animation (p : Parsed) (y_vals : NVal) (a : Binary64.float)
    (pressed : bool) : Script unit :=
  (emit (Header "Animation: Secant Line to Tangent") ;;
   emit (Button "Run Animation") ;;
   if pressed
   then emit EmptyPlaceholder ;; for_each h_vals (secant_frame p y_vals a)
   else ret tt)%script.

(** One exercise of the problem set: the question, the button, and the
    solution lines when the button is pressed. *)
Definition problem (label question button : string) (pressed : bool)
    (solution : list string) : Script unit :=
  (emit (Expander label) ;;
   emit (Markdown (Static question)) ;;
   emit (Button button) ;;
   if pressed
   then for_each solution (fun s => emit (Latex (Static s)))
   else ret tt)%script.

(** The characters that the escapes [\t] and [\f] of a Python string
    literal stand for. *)
Definition tab : string := String (ascii_of_nat 9) EmptyString.
Definition formfeed : string := String (ascii_of_nat 12) EmptyString.

(** Lines 146-174.  The texts are those of the source after Python has read
    its string literals: in the literals that are not raw, [\t] is a
    tabulation and [\f] a form feed. *)
Definition problem_set (show : nat -> bool) : Script unit :=
  (emit (Header "Problem Set") ;;
   problem "🧠 Try This: Derivative at a Point"
     "Find the derivative of \( f(x) = x^2 + 3x \) at \( x = 2 \)"
     "Show Solution 1" (show 1%nat)
     ["f'(x) = 2x + 3"; "f'(2) = 2(2) + 3 = 7"] ;;
   problem "🧠 Try This: Limit at a Point"
     ("Evaluate \( \lim_{x " ++ tab ++ "o 1} " ++ formfeed
      ++ "rac{x^2 - 1}{x - 1} \)")%string
     "Show Solution 2" (show 2%nat)
     [("= \lim_{x " ++ tab ++ "o 1} " ++ formfeed
       ++ "rac{(x - 1)(x + 1)}{x - 1} = \lim_{x " ++ tab
       ++ "o 1} x + 1 = 2")%string] ;;
   problem "🧠 Try This: One-Sided Limit"
     ("Evaluate the left-hand limit \( \lim_{x " ++ tab ++ "o 0^-} "
      ++ formfeed ++ "rac{|x|}{x} \)")%string
     "Show Solution 3" (show 3%nat)
     ["\lim_{x \to 0^-} \frac{-x}{x} = -1"] ;;
   problem "🧠 Try This: Power Rule"
     "Find the derivative of \( f(x) = 4x^3 - 2x^2 + x - 7 \)"
     "Show Solution 4" (show 4%nat)
     ["f'(x) = 12x^2 - 4x + 1"] ;;
   problem "🧠 Try This: Tangent Line Equation"
     "Find the equation of the tangent line to \( f(x) = x^2 \) at \( x = 3 \)"
     "Show Solution 5" (show 5%nat)
     ["f'(x) = 2x \Rightarrow f'(3) = 6"; "Point: (3, 9), Slope: 6";
      "Tangent Line: y - 9 = 6(x - 3) \Rightarrow y = 6x - 9"])%script.

(** Lines 177-189. *)
Definition real_world : Script unit :=
  (emit (Header "Real-World Application") ;;
   emit (Expander "🚗 Velocity of a Moving Car"))%script.

(** What follows the limit calculator. *)
Definition after_limit (I : Inputs) (p : Parsed) (y_vals : NVal)
    : Script unit :=
  (animation p y_vals (tangent_x I) (run_animation I) ;;
   problem_set (show_solution I) ;;
   real_world)%script.

(** What follows a successful parse. *)
Definition after_parse (I : Inputs) (p : Parsed) : Script unit :=
  (y_vals <- eval_grid p ;;
   learn_concepts ;;
   tangent_visualizer p y_vals (tangent_x I) ;;
   limit_calculator p (limit_x I) ;;
   after_limit I p y_vals)%script.

(** The whole script. *)
Definition main (I : Inputs) : Script unit :=
  (setup ;;
   p <- function_input (func_input I) ;;
   after_parse I p)%script.

(** One rerun: the rendered trace and how the rerun ended. *)
Definition run_script (I : Inputs) : Trace * Outcome unit := main I.

End Main.

(** ** The launcher [run_app.py] *)

Module Launcher.

Definition sep : ascii := "/"%char.

Definition startswith_sep (s : string) : bool :=
  match s with
  | String c _ => Ascii.eqb c sep
  | EmptyString => false
  end.

Fixpoint endswith_sep (s : string) : bool :=
  match s with
  | EmptyString => false
  | String c EmptyString => Ascii.eqb c sep
  | String _ r => endswith_sep r
  end.

Definition is_empty (s : string) : bool :=
  match s with
  | EmptyString => true
  | _ => false
  end.

(** One step of [posixpath.join]: an absolute component replaces what was
    joined so far. *)
Definition join_step (path b : string) : string :=
  if startswith_sep b then b
  else if is_empty path || endswith_sep path then path ++ b
  else path ++ String sep b.

(** [os.path.join(a, *p)] *)
Definition join (a : string) (p : list string) : string :=
  fold_left join_step p a.

Fixpoint has_sep (s : string) : bool :=
  match s with
  | EmptyString => false
  | String c r => Ascii.eqb c sep || has_sep r
  end.

(** [p[:p.rfind('/') + 1]] *)
Fixpoint head_of (p : string) : string :=
  match p with
  | EmptyString => EmptyString
  | String c r => if has_sep p then String c (head_of r) else EmptyString
  end.

Fixpoint all_sep (s : string) : bool :=
  match s with
  | EmptyString => true
  | String c r => Ascii.eqb c sep && all_sep r
  end.

(** [s.rstrip('/')] *)
Fixpoint rstrip_sep (s : string) : string :=
  match s with
  | EmptyString => EmptyString
  | String c r => if all_sep s then EmptyString else String c (rstrip_sep r)
  end.

(** [os.path.dirname(p)] *)
Definition dirname (p : string) : string :=
  let head := head_of p in
  if negb (is_empty head) && negb (all_sep head) then rstrip_sep head
  else head.

Inductive Effect :=
| Popen (command : string) (shell : bool)
| WebbrowserOpen (url : string).

Definition quote : string := String (ascii_of_nat 34) EmptyString.

(** Line 6 of [run_app.py]; [file] is [__file__]. *)
Definition app_path (file : string) : string :=
  join (dirname file) ["/home/execu/Programming/CalCS/jb/main.py"].

(** Lines 9-10. *)
Definition run_app (file : string) : list Effect :=
  [Popen ("streamlit run " ++ quote ++ app_path file ++ quote)%string true;
   WebbrowserOpen "http://localhost:8501"].

End Launcher.

(** ** A small engine for the examples

    A table-driven stand-in for the symbolic engine and the numeric
    namespace, defined on the handful of inputs the examples below run. *)

Module Toy.

Definition one : Binary64.float := Binary64.of_Z 1.

(** [a ** b] for the exponents the examples use. *)
Definition pow_table (a b : Binary64.float) : option Binary64.float :=
  if Binary64.eqb b (Binary64.of_Z 0) then Some one
  else if Binary64.eqb b (Binary64.of_Z 1) then Some a
  else if Binary64.eqb b (Binary64.of_Z 2) then Some (Binary64.mul a a)
  else if Binary64.eqb b (Binary64.of_Z 3)
       then Some (Binary64.mul (Binary64.mul a a) a)
  else if Binary64.eqb b (Binary64.of_Z (-1)) then Some (Binary64.div one a)
  else if Binary64.eqb b (Binary64.of_Z (-2))
       then Some (Binary64.div one (Binary64.mul a a))
  else None.

Definition sign (a : Binary64.float) : Binary64.float :=
  match a with
  | S754_zero _ | S754_nan => a
  | S754_infinity s | S754_finite s _ _ =>
      if s then Binary64.of_Z (-1) else one
  end.

Definition namespace : Namespace := {|
  py_pow := fun a b =>
    if Binary64.ltb b Binary64.zero && is_zero a
    then Raise (Exception "ZeroDivisionError"
                  "0.0 cannot be raised to a negative power")
    else match pow_table a b with
         | Some c => Ok c
         | None => Raise (Exception "OverflowError" "unsupported exponent")
         end;
  np_pow := fun a b =>
    match pow_table a b with
    | Some c => c
    | None => Binary64.nan
    end;
  np_const := fun _ => None;
  np_func := fun name =>
    if String.eqb name "sqrt" then Some (SFsqrt Binary64.prec Binary64.emax)
    else if String.eqb name "abs" then Some Binary64.abs
    else if String.eqb name "sign" then Some sign
    else None;
  obj_call := fun name =>
    if String.eqb name "abs" then Ok tt
    else Raise (Exception "TypeError"
                  ("loop of ufunc does not support argument 0 of type Symbol "
                   ++ "which has no callable " ++ name ++ " method")%string)
|}.

Definition X : Expr := Sym "x".

Definition parse_table : list (string * Expr) :=
  [("5", Int 5);
   ("x", X);
   ("x**2", EPow X (Int 2));
   ("x**3 - x**2", EAdd (EPow X (Int 3)) (EMul (Int (-1)) (EPow X (Int 2))));
   ("1e308*x**2", EMul (Flt (Binary64.of_Z (10 ^ 308))) (EPow X (Int 2)));
   ("3*x", EMul (Int 3) X);
   ("sign(x)", Fn "sign" X);
   ("1/x", EPow X (Int (-1)));
   ("y", Sym "y");
   ("x + y", EAdd X (Sym "y"));
   ("x*sqrt(y)", EMul X (Fn "sqrt" (Sym "y")))].

Fixpoint lookup (text : string) (t : list (string * Expr)) : Result Expr :=
  match t with
  | [] => Raise (Exception "SympifyError" text)
  | (k, e) :: t' => if String.eqb k text then Ok e else lookup text t'
  end.

(** Sum, product and power rules; the derivative of [sign] is twice the
    delta function; a function of something else than the variable is a
    constant. *)
Fixpoint derive (v : string) (e : Expr) : Result Expr :=
  match e with
  | Int _ | Flt _ | Con _ => Ok (Int 0)
  | Sym s => Ok (Int (if String.eqb s v then 1 else 0))
  | EAdd a b =>
      (a' <- derive v a ;; b' <- derive v b ;; Ok (EAdd a' b'))%result
  | EMul a b =>
      (a' <- derive v a ;; b' <- derive v b ;;
       Ok (EAdd (EMul a' b) (EMul a b')))%result
  | EPow a (Int n) =>
      (a' <- derive v a ;;
       Ok (EMul (EMul (Int n) (EPow a (Int (n - 1)))) a'))%result
  | Fn name a =>
      if negb (existsb (String.eqb v) (free_symbols a)) then Ok (Int 0)
      else if String.eqb name "sign"
      then (a' <- derive v a ;;
            Ok (EMul (EMul (Int 2) (Fn "DiracDelta" a)) a'))%result
      else Raise (Exception "NotImplementedError" "derivative")
  | EPow _ _ => Raise (Exception "NotImplementedError" "derivative")
  end.

(** One-sided limits: the jump of [sign] at zero, no answer at a pole,
    and the value of the expression anywhere else. *)
Definition one_sided (e : Expr) (v : string) (pt : Binary64.float) (d : Dir)
    : Result Expr :=
  match e with
  | Fn "sign" (Sym "x") =>
      if is_zero pt
      then Ok (Int (match d with FromLeft => -1 | FromRight => 1 end))
      else Ok (Flt (sign pt))
  | _ =>
      match eval namespace v e (PyNum pt) with
      | Ok (PyNum y) | Ok (NpNum y) => Ok (Flt y)
      | Ok (NpArr _) | Ok PyObj | Ok (ObjArr _) =>
          Raise (Exception "TypeError" "not a number")
      | Raise ex => Raise ex
      end
  end.

(** The functions the printer of NumPy code knows. *)
Fixpoint printable (e : Expr) : bool :=
  match e with
  | Int _ | Flt _ | Sym _ | Con _ => true
  | EAdd a b | EMul a b | EPow a b => printable a && printable b
  | Fn name a => negb (String.eqb name "DiracDelta") && printable a
  end.

Definition engine : Engine := {|
  sympify := fun text => lookup text parse_table;
  diff := fun e v => derive v e;
  limit := one_sided;
  numpy_code := fun e =>
    if printable e then Ok tt
    else Raise (Exception "PrintMethodNotImplementedError"
                  "Unsupported by NumPyPrinter: DiracDelta");
  numeric := namespace
|}.

(** The same engine with a differentiation that always raises. *)
Definition no_diff : Engine := {|
  sympify := sympify engine;
  diff := fun _ _ => Raise (Exception "NotImplementedError" "derivative");
  limit := limit engine;
  numpy_code := numpy_code engine;
  numeric := namespace
|}.

Definition inputs (text : string) (a lp : Binary64.float) (anim : bool)
    : Inputs := {|
  func_input := text;
  tangent_x := a;
  limit_x := lp;
  run_animation := anim;
  show_solution := fun _ => false
|}.

End Toy.

(** ** Reading a rendered trace *)

(** The delays of the [time.sleep] calls, in order. *)
Definition sleeps (tr : Trace) : list Binary64.float :=
  flat_map (fun ev => match ev with Sleep s => [s] | _ => [] end) tr.

(** The step [h] of each secant drawn in a figure. *)
Definition secant_steps (fig : Figure) : list Binary64.float :=
  flat_map (fun ar => match ar with
                      | APlot _ _ (LSecant h) => [h]
                      | _ => []
                      end) fig.

(** The steps [h] of the animation frames, in order. *)
Definition frame_steps (tr : Trace) : list Binary64.float :=
  flat_map (fun ev => match ev with
                      | PlaceholderPyplot fig => secant_steps fig
                      | _ => []
                      end) tr.

Fixpoint strictly_descending (l : list Binary64.float) : bool :=
  match l with
  | a :: (b :: _) as t => Binary64.ltb b a && strictly_descending t
  | _ => true
  end.

Fixpoint strictly_ascending (l : list Binary64.float) : bool :=
  match l with
  | a :: (b :: _) as t => Binary64.ltb a b && strictly_ascending t
  | _ => true
  end.

Definition scalar_val (v : NVal) : option Binary64.float :=
  match v with
  | PyNum a | NpNum a => Some a
  | NpArr _ | PyObj | ObjArr _ => None
  end.

(** The parse of ["x**2"] and its derivative by the small engine. *)
Definition square : Parsed :=
  {| expr := EPow Toy.X (Int 2);
     f_prime_expr := EMul (EMul (Int 2) (EPow Toy.X (Int 1))) (Int 1) |}.

(** The parse of ["1e308*x**2"] and its derivative. *)
Definition steep : Parsed :=
  {| expr := EMul (Flt (Binary64.of_Z (10 ^ 308))) (EPow Toy.X (Int 2));
     f_prime_expr :=
       EAdd (EMul (Int 0) (EPow Toy.X (Int 2)))
            (EMul (Flt (Binary64.of_Z (10 ^ 308)))
                  (EMul (EMul (Int 2) (EPow Toy.X (Int 1))) (Int 1))) |}.


(** The parse of ["1/x"] and its derivative by the small engine. *)
Definition reciprocal : Parsed :=
  {| expr := EPow Toy.X (Int (-1));
     f_prime_expr := EMul (EMul (Int (-1)) (EPow Toy.X (Int (-2)))) (Int 1) |}.


(** [y_vals] for the parse of ["x**2"]. *)
Definition square_samples : NVal :=
  NpArr (map (fun v => Binary64.mul v v) x_vals).


(** ** The slider and the exact steps *)

(** The positions of [st.slider(..., -10.0, 10.0, 1.0, 0.1)]: the decimal
    values -10.0, -9.9, ..., 10.0. *)
Definition slider_positions : list Binary64.float :=
  map (fun k => Binary64.of_decimal (Z.of_nat k - 100) 1) (seq 0 201).

(** [linspace(1.0, 0.01, 20)] in exact arithmetic. *)
Definition h_exact : list Q := linspace 1%Q (1 # 100)%Q 20.

Definition Qpositive (q : Q) : bool := negb (Qle_bool q 0).

Fixpoint Qstrictly_descending (l : list Q) : bool :=
  match l with
  | s :: (t :: _) as l' => negb (Qle_bool s t) && Qstrictly_descending l'
  | _ => true
  end.

(** The exact value of a finite binary64 number, as a rational and as a
    real. *)
Definition to_Q (x : Binary64.float) : Q :=
  match x with
  | S754_finite s m e => inject_Z (cond_Zopp s (Zpos m)) * Qpower 2 e
  | _ => 0
  end.

Definition to_R (x : Binary64.float) : R := Q2R (to_Q x).

(** The steps of the animation in exact arithmetic, as reals. *)
Definition h_real : list R := map Q2R h_exact.

Fixpoint nonincreasing (l : list R) : Prop :=
  match l with
  | s :: (t :: _) as l' => (t <= s)%R /\ nonincreasing l'
  | _ => True
  end.

Fixpoint nondecreasing (l : list R) : Prop :=
  match l with
  | s :: (t :: _) as l' => (s <= t)%R /\ nondecreasing l'
  | _ => True
  end.

(** Between [lo] and [hi], [g] lies below its chords. *)
Definition convex_on (lo hi : R) (g : R -> R) : Prop :=
  forall x y t : R,
    (lo <= x <= hi)%R -> (lo <= y <= hi)%R -> (0 <= t <= 1)%R ->
    (g (t * x + (1 - t) * y) <= t * g x + (1 - t) * g y)%R.

(** Between [lo] and [hi], [g] lies above its chords. *)
Definition concave_on (lo hi : R) (g : R -> R) : Prop :=
  convex_on lo hi (fun x => - g x)%R.

(** The function an expression in [x] denotes in exact arithmetic, where
    it denotes one: the numbers, [pi] and [E], sums, products, integer
    powers (a negative one away from zero), real powers of a positive base,
    and the elementary functions on their domains. *)
Fixpoint denote (e : Expr) (x : R) : option R :=
  match e with
  | Int n => Some (IZR n)
  | Flt v => if Binary64.is_finite v then Some (to_R v) else None
  | Sym s => if String.eqb s x_sym then Some x else None
  | Con c =>
      if String.eqb c "pi" then Some PI
      else if String.eqb c "E" then Some (exp 1)
      else None
  | EAdd a b =>
      match denote a x, denote b x with
      | Some u, Some v => Some (u + v)%R
      | _, _ => None
      end
  | EMul a b =>
      match denote a x, denote b x with
      | Some u, Some v => Some (u * v)%R
      | _, _ => None
      end
  | EPow a (Int n) =>
      match denote a x with
      | Some u =>
          if (0 <=? n)%Z then Some (u ^ Z.to_nat n)%R
          else if Req_EM_T u 0 then None
          else Some (/ u ^ Z.to_nat (- n))%R
      | None => None
      end
  | EPow a b =>
      match denote a x, denote b x with
      | Some u, Some v => if Rlt_dec 0 u then Some (Rpower u v) else None
      | _, _ => None
      end
  | Fn name a =>
      match denote a x with
      | Some u =>
          if String.eqb name "sin" then Some (sin u)
          else if String.eqb name "cos" then Some (cos u)
          else if String.eqb name "tan"
               then if Req_EM_T (cos u) 0 then None else Some (tan u)
          else if String.eqb name "exp" then Some (exp u)
          else if String.eqb name "log"
               then if Rlt_dec 0 u then Some (ln u) else None
          else if String.eqb name "sqrt"
               then if Rle_dec 0 u then Some (R_sqrt.sqrt u) else None
          else if String.eqb name "abs" then Some (Rabs u)
          else if String.eqb name "sinh" then Some (sinh u)
          else if String.eqb name "cosh" then Some (cosh u)
          else None
      | None => None
      end
  end.

(** The expression denotes a function around [a] and up to [a + 1], where
    the animation takes its secants. *)
Definition defined_near (e : Expr) (a : R) : Prop :=
  exists delta : R,
    (0 < delta)%R
    /\ forall x : R, (a - delta < x <= a + 1)%R -> denote e x <> None.

(** The value of the expression at [x]; 0 where it denotes nothing. *)
Definition value (e : Expr) (x : R) : R :=
  match denote e x with
  | Some v => v
  | None => 0%R
  end.

(** The secant slopes of the parsed expression at the slider value [a], and
    the value of its symbolic derivative there, in exact arithmetic. *)
Definition exact_slopes (p : Parsed) (a : Binary64.float) : list R :=
  secant_slopes (value (expr p)) (to_R a) h_real.

Definition exact_derivative (p : Parsed) (a : Binary64.float) : R :=
  value (f_prime_expr p) (to_R a).

(** The [i]-th of [num] points evenly spaced from [start] to [stop]. *)
Definition even_point (start stop : Q) (num i : nat) : Q :=
  (start + inject_Z (Z.of_nat i)
           * ((stop - start) / inject_Z (Z.of_nat (num - 1))))%Q.

(** [x] is finite and within [eps] of [q]. *)
Definition near (eps : Q) (x : Binary64.float) (q : Q) : bool :=
  Binary64.is_finite x && Qle_bool (to_Q x - q) eps
  && Qle_bool (q - to_Q x) eps.

(** Every entry of [l] is within [eps] of the point of the same index
    among as many points evenly spaced from [start] to [stop]. *)
Definition evenly_spaced_within (eps : Q) (l : list Binary64.float)
    (start stop : Q) : bool :=
  forallb (fun i => match nth_error l i with
                    | Some x => near eps x
                                  (even_point start stop (List.length l) i)
                    | None => false
                    end) (seq 0 (List.length l)).

(** The exact gaps between consecutive entries. *)
Fixpoint gaps (l : list Binary64.float) : list Q :=
  match l with
  | a :: (b :: _) as t => (to_Q b - to_Q a)%Q :: gaps t
  | _ => []
  end.

(** The parse of ["3*x"] and its derivative by the small engine. *)
Definition triple : Parsed :=
  {| expr := EMul (Int 3) Toy.X;
     f_prime_expr := EAdd (EMul (Int 0) Toy.X) (EMul (Int 3) (Int 1)) |}.

(** The parse of ["x**3 - x**2"] and its derivative by the small engine. *)
Definition cubic : Parsed :=
  {| expr := EAdd (EPow Toy.X (Int 3)) (EMul (Int (-1)) (EPow Toy.X (Int 2)));
     f_prime_expr :=
       EAdd (EMul (EMul (Int 3) (EPow Toy.X (Int 2))) (Int 1))
            (EAdd (EMul (Int 0) (EPow Toy.X (Int 2)))
                  (EMul (Int (-1))
                        (EMul (EMul (Int 2) (EPow Toy.X (Int 1))) (Int 1)))) |}.

(** The scalars of a list of results; anything else is dropped. *)
Definition scalars (l : list (Result NVal)) : list Binary64.float :=
  flat_map (fun r => match r with
                     | Ok (PyNum v) | Ok (NpNum v) => [v]
                     | _ => []
                     end) l.

(** The distances to [target], entry by entry. *)
Definition distances (target : Binary64.float) (l : list Binary64.float)
    : list Binary64.float :=
  map (fun v => Binary64.abs (Binary64.sub v target)) l.

Fixpoint descending (l : list Binary64.float) : bool :=
  match l with
  | a :: (b :: _) as t => Binary64.leb b a && descending t
  | _ => true
  end.

Fixpoint ascending (l : list Binary64.float) : bool :=
  match l with
  | a :: (b :: _) as t => Binary64.leb a b && ascending t
  | _ => true
  end.


(** The parses of ["x + y"] and of ["x*sqrt(y)"] and their derivatives by
    the small engine. *)
Definition shifted : Parsed :=
  {| expr := EAdd Toy.X (Sym "y"); f_prime_expr := EAdd (Int 1) (Int 0) |}.

Definition scaled : Parsed :=
  {| expr := EMul Toy.X (Fn "sqrt" (Sym "y"));
     f_prime_expr := EAdd (EMul (Int 1) (Fn "sqrt" (Sym "y")))
                          (EMul Toy.X (Int 0)) |}.

(** The events rendered up to and including the function input. *)
Definition input_events : Trace :=
  [PageConfig "CalCS: Interactive Visualizer" "centered";
   Title "CalCS Interactive Visualizer: Limits and Derivatives";
   Expander "ℹ️ About This Project";
   SidebarHeader "Function Settings";
   TextInput "Enter a function of x:" "sin(x)"].


(** The value is an array of [n] numbers ([b = true]) or one number. *)
Definition shaped (n : nat) (b : bool) (v : NVal) : Prop :=
  if b then exists l, v = NpArr l /\ List.length l = n
  else exists a, scalar_val v = Some a.

(** Whether the symbol [s] occurs in the expression. *)
Definition mentions (s : string) (e : Expr) : bool :=
  existsb (String.eqb s) (free_symbols e).

(** ** Binary64 values as integers

    What the rounding lemmas are stated with: the value of a finite float
    as an integer multiple of the smallest subnormal. *)

Section Values.
Import Binary64.
Local Open Scope Z_scope.

(** The exponent of the smallest subnormal, and the canonical exponent of
    a value with [e] binary digits before the point. *)
Definition emin64 : Z := -1074.
Definition fexp64 (e : Z) : Z := Z.max (e - 53) emin64.

Definition pos_val (m : positive) (e : Z) : Z := Zpos m * 2 ^ (e - emin64).

(** The value of a finite float, in units of the smallest subnormal. *)
Definition sval (x : float) : Z :=
  match x with
  | S754_finite s m e => cond_Zopp s (pos_val m e)
  | _ => 0
  end.

(** Zero, or finite with an exponent a binary64 value can have. *)
Definition exp_ok (x : float) : Prop :=
  match x with
  | S754_zero _ => True
  | S754_finite _ _ e => emin64 <= e
  | _ => False
  end.

(** [2^-49], the unit in the last place of the values from 8 to 16, as a
    multiple of the smallest subnormal. *)
Definition ulp8 : Z := 2 ^ 1025.

(** A binary64 value between -10 and 10. *)
Definition in_slider_range (a : float) : bool :=
  valid_binary prec emax a && leb (of_Z (-10)) a && leb a (of_Z 10).

(** A positive binary64 value between [2^-7] and 1. *)
Definition step_ok (h : float) : bool :=
  match h with
  | S754_finite false m e =>
      (emin64 <=? e) && (4398046511104 * ulp8 <=? pos_val m e)
      && (pos_val m e <=? 562949953421312 * ulp8)
  | _ => false
  end.

End Values.

(** ** What a rendered trace shows *)

Definition sleep_of (ev : UIEvent) : list Binary64.float :=
  match ev with Sleep s => [s] | _ => [] end.

Definition header_of (ev : UIEvent) : list string :=
  match ev with Header s => [s] | _ => [] end.

Definition box_of (ev : UIEvent) : list Message :=
  match ev with ErrorBox m | SuccessBox m => [m] | _ => [] end.

Definition latex_of (ev : UIEvent) : list Message :=
  match ev with Latex m => [m] | _ => [] end.

Definition figure_of (ev : UIEvent) : list Figure :=
  match ev with Pyplot fig | PlaceholderPyplot fig => [fig] | _ => [] end.

Definition button_of (ev : UIEvent) : list string :=
  match ev with Button s => [s] | _ => [] end.

Definition parse_error_of (ev : UIEvent) : list Exc :=
  match ev with ErrorBox (ParseErrorMsg e) => [e] | _ => [] end.

(** The section headers of a trace, in order. *)
Definition headers (tr : Trace) : list string := flat_map header_of tr.

(** The messages of the [st.success] and [st.error] boxes. *)
Definition boxes (tr : Trace) : list Message := flat_map box_of tr.

(** The messages of the [st.latex] calls. *)
Definition formulas (tr : Trace) : list Message := flat_map latex_of tr.

(** The figures handed to [st.pyplot] or to the placeholder. *)
Definition figures (tr : Trace) : list Figure := flat_map figure_of tr.

(** The labels of the buttons. *)
Definition buttons (tr : Trace) : list string := flat_map button_of tr.

(** The exceptions reported as "Error parsing function". *)
Definition parse_errors (tr : Trace) : list Exc := flat_map parse_error_of tr.

(** The headers of the script, in the order of the source. *)
Definition section_order : list string :=
  ["Learn the Concepts"; "Tangent Line Visualizer"; "Limit Calculator";
   "Animation: Secant Line to Tangent"; "Problem Set";
   "Real-World Application"].

(** A piece of the script renders at most [n] of the things [view] shows. *)
Definition at_most {X A} (view : UIEvent -> list X) (n : nat) (s : Script A)
    : Prop :=
  (List.length (flat_map view (fst s)) <= n)%nat.

(** A piece of the script does not end in [st.stop()]. *)
Definition never_stops {A} (s : Script A) : Prop := snd s <> Stopped.

(** The headers a piece of the script renders are the first ones of [l],
    and all of [l] when the piece goes through. *)
Definition in_order {A} (l : list string) (s : Script A) : Prop :=
  exists rest, l = headers (fst s) ++ rest
               /\ (forall a, snd s = Done a -> rest = []).

(** A piece of the script sleeps at most [n] times, 0.2 each time. *)
Definition naps {A} (n : nat) (s : Script A) : Prop :=
  exists k, (k <= n)%nat
            /\ sleeps (fst s) = repeat (Binary64.of_decimal 2 1) k.

(** [w] is what the value [v] holds at index [i]: the [i]-th entry of an
    array, as a NumPy scalar, or the number itself. *)
Definition at_index (i : nat) (v w : NVal) : Prop :=
  match v with
  | NpArr l => exists y, nth_error l i = Some y /\ w = NpNum y
  | PyNum _ | NpNum _ => w = v
  | PyObj | ObjArr _ => False
  end.

(** * Properties *)

(** ** Binary64 facts used by the tangent line *)

Section FloatFacts.
Import Binary64.

Lemma sub_diag (a : float) :
  is_finite a = true -> sub a a = S754_zero false.
Proof.
  destruct a as [s | s | | s m e]; simpl; try discriminate; intros _.
  - destruct s; reflexivity.
  - unfold sub, SFsub. rewrite Z.sub_diag. reflexivity.
Qed.

Lemma mul_zero_r (m : float) (s : bool) :
  is_finite m = true -> exists s', mul m (S754_zero s) = S754_zero s'.
Proof.
  destruct m as [sm | sm | | sm mm em]; simpl; try discriminate; intros _;
    eexists; reflexivity.
Qed.

Lemma compare_refl (x : float) : x <> S754_nan -> SFcompare x x = Some Eq.
Proof.
  destruct x as [s | s | | s m e]; simpl; intros Hx; try congruence.
  - destruct s; reflexivity.
  - assert (Hm : Pos.compare_cont Eq m m = Eq)
      by (change (Pos.compare m m = Eq); apply Pos.compare_refl).
    destruct s; rewrite Z.compare_refl, Hm; reflexivity.
Qed.

Lemma eqb_refl (x : float) : is_finite x = true -> eqb x x = true.
Proof.
  intros Hx. unfold eqb, SFeqb. rewrite compare_refl; [reflexivity |].
  destruct x; simpl in Hx; congruence.
Qed.

Lemma add_zero_r (x : float) (s : bool) :
  is_finite x = true -> eqb (add x (S754_zero s)) x = true.
Proof.
  destruct x as [sx | sx | | sx m e]; simpl; try discriminate; intros _.
  - destruct sx, s; reflexivity.
  - apply (eqb_refl (S754_finite sx m e)). reflexivity.
Qed.

(** The tangent line meets the curve at the point of tangency. *)
Lemma tangent_at_self (fa fpa a : float) :
  is_finite fa = true -> is_finite fpa = true -> is_finite a = true ->
  eqb (tangent_at fa fpa a a) fa = true.
Proof.
  intros Hfa Hm Ha. unfold tangent_at; simpl.
  rewrite (sub_diag a Ha).
  destruct (mul_zero_r fpa false Hm) as [s' ->].
  apply add_zero_r, Hfa.
Qed.

End FloatFacts.

(** ** Sequencing *)

Lemma bind_done {A B} (m : Script A) (k : A -> Script B) (tr : Trace) (a : A) :
  m = (tr, Done a) -> bind m k = (tr ++ fst (k a), snd (k a)).
Proof. intros ->. unfold bind. destruct (k a); reflexivity. Qed.

Lemma bind_emit {B} (ev : UIEvent) (k : unit -> Script B) :
  bind (emit ev) k = (ev :: fst (k tt), snd (k tt)).
Proof. unfold bind, emit. destruct (k tt); reflexivity. Qed.

Lemma bind_lift_ok {A B} (r : Result A) (a : A) (k : A -> Script B) :
  r = Ok a -> bind (lift r) k = k a.
Proof. intros ->. unfold bind, lift. destruct (k a); reflexivity. Qed.

Lemma bind_lift_raise {A B} (r : Result A) (e : Exc) (k : A -> Script B) :
  r = Raise e -> bind (lift r) k = ([], Aborted e).
Proof. intros ->. reflexivity. Qed.

Lemma for_each_emit (evs : list UIEvent) : for_each evs emit = (evs, Done tt).
Proof.
  induction evs as [| ev evs IH]; [reflexivity |].
  cbn [for_each]. rewrite bind_emit, IH. reflexivity.
Qed.

Lemma Ok_inj {A} (a b : A) : Ok a = Ok b -> a = b.
Proof. intros H. injection H as ->. reflexivity. Qed.

Lemma bind_aborted {A B} (m : Script A) (k : A -> Script B) (tr : Trace)
    (e : Exc) :
  m = (tr, Aborted e) -> bind m k = (tr, Aborted e).
Proof. intros ->. reflexivity. Qed.

Lemma fst_bind {A B} (m : Script A) (k : A -> Script B) :
  fst (bind m k) =
    fst m ++ match snd m with Done a => fst (k a) | _ => [] end.
Proof.
  destruct m as [tr [a | | e]]; cbn; try (rewrite app_nil_r; reflexivity).
  destruct (k a); reflexivity.
Qed.

Lemma snd_bind {A B} (m : Script A) (k : A -> Script B) :
  snd (bind m k) =
    match snd m with
    | Done a => snd (k a)
    | Stopped => Stopped
    | Aborted e => Aborted e
    end.
Proof. destruct m as [tr [a | | e]]; cbn; try reflexivity. destruct (k a); reflexivity. Qed.

Section Views.
Context {X : Type} (view : UIEvent -> list X).

Lemma at_most_ret {A} (a : A) (n : nat) : at_most view n (ret a).
Proof. apply Nat.le_0_l. Qed.

Lemma at_most_stop {A} (n : nat) : at_most view n (@st_stop A).
Proof. apply Nat.le_0_l. Qed.

Lemma at_most_lift {A} (r : Result A) (n : nat) : at_most view n (lift r).
Proof. destruct r; apply Nat.le_0_l. Qed.

Lemma at_most_emit (ev : UIEvent) (n : nat) :
  view ev = [] -> at_most view n (emit ev).
Proof.
  intros Hv. unfold at_most. cbn. rewrite Hv. apply Nat.le_0_l.
Qed.

Lemma at_most_bind {A B} (n1 n2 : nat) (m : Script A) (k : A -> Script B) :
  at_most view n1 m -> (forall a, at_most view n2 (k a)) ->
  at_most view (n1 + n2) (bind m k).
Proof.
  unfold at_most. intros Hm Hk. rewrite fst_bind, flat_map_app, length_app.
  apply Nat.add_le_mono; [exact Hm |].
  destruct (snd m); [apply Hk | apply Nat.le_0_l ..].
Qed.

Lemma at_most_for_each {A} (l : list A) (body : A -> Script unit) :
  (forall a, at_most view 0 (body a)) -> at_most view 0 (for_each l body).
Proof.
  intros Hb. induction l as [| a l IH]; [apply at_most_ret |].
  cbn [for_each]. apply (at_most_bind 0 0); [apply Hb | intros _; exact IH].
Qed.

Lemma at_most_none {A} (s : Script A) :
  at_most view 0 s -> flat_map view (fst s) = [].
Proof.
  unfold at_most. intros Hs.
  destruct (flat_map view (fst s)); [reflexivity | inversion Hs].
Qed.

End Views.

(** Goes through a piece of the script that renders nothing of a view. *)
Ltac silence :=
  repeat first
    [ apply (at_most_bind _ 0 0); [| intros ]
    | apply at_most_emit; reflexivity
    | apply at_most_lift
    | apply at_most_ret
    | apply at_most_stop
    | apply at_most_for_each; intros
    | match goal with
      | |- at_most _ _ (match ?r with Raise _ => _ | Ok _ => _ end) =>
          destruct r
      | |- at_most _ _ (if ?b then _ else _) => destruct b
      | |- at_most _ _ (let '(_, _) := ?p in _) => destruct p
      end ].

Lemma never_stops_ret {A} (a : A) : never_stops (ret a).
Proof. discriminate. Qed.

Lemma never_stops_emit (ev : UIEvent) : never_stops (emit ev).
Proof. discriminate. Qed.

Lemma never_stops_lift {A} (r : Result A) : never_stops (lift r).
Proof. destruct r; discriminate. Qed.

Lemma never_stops_bind {A B} (m : Script A) (k : A -> Script B) :
  never_stops m -> (forall a, never_stops (k a)) -> never_stops (bind m k).
Proof.
  unfold never_stops. intros Hm Hk. rewrite snd_bind.
  destruct (snd m); [apply Hk | exfalso; apply Hm; reflexivity | discriminate].
Qed.

Lemma never_stops_for_each {A} (l : list A) (body : A -> Script unit) :
  (forall a, never_stops (body a)) -> never_stops (for_each l body).
Proof.
  intros Hb. induction l as [| a l IH]; [apply never_stops_ret |].
  cbn [for_each]. apply never_stops_bind; [apply Hb | intros _; exact IH].
Qed.

Ltac keep_going :=
  repeat first
    [ apply never_stops_bind; [| intros ]
    | apply never_stops_emit
    | apply never_stops_lift
    | apply never_stops_ret
    | apply never_stops_for_each; intros
    | match goal with
      | |- never_stops (match ?r with Raise _ => _ | Ok _ => _ end) =>
          destruct r
      | |- never_stops (if ?b then _ else _) => destruct b
      | |- never_stops (let '(_, _) := ?p in _) => destruct p
      end ].

Lemma in_order_silent {A} (s : Script A) :
  at_most header_of 0 s -> in_order [] s.
Proof.
  intros Hs. exists []. unfold headers. rewrite (at_most_none _ _ Hs).
  split; [reflexivity | intros; reflexivity].
Qed.

Lemma in_order_bind {A B} (l1 l2 : list string) (m : Script A)
    (k : A -> Script B) :
  in_order l1 m -> (forall a, in_order l2 (k a)) ->
  in_order (l1 ++ l2) (bind m k).
Proof.
  intros (r1 & H1 & D1) Hk. unfold in_order, headers in *.
  rewrite fst_bind, snd_bind, flat_map_app.
  destruct (snd m) as [a | | e].
  - destruct (Hk a) as (r2 & H2 & D2). exists r2.
    rewrite (D1 a eq_refl), app_nil_r in H1. subst l1 l2.
    split; [apply app_assoc | exact D2].
  - exists (r1 ++ l2). cbn [flat_map]. rewrite app_nil_r. subst l1.
    split; [symmetry; apply app_assoc | discriminate].
  - exists (r1 ++ l2). cbn [flat_map]. rewrite app_nil_r. subst l1.
    split; [symmetry; apply app_assoc | discriminate].
Qed.

(** A section that opens with its header and renders no other one. *)
Lemma in_order_section {B} (h : string) (k : unit -> Script B) :
  at_most header_of 0 (k tt) -> in_order [h] (bind (emit (Header h)) k).
Proof.
  intros Hk. apply (in_order_bind [h] []).
  - exists []. split; [reflexivity | intros; reflexivity].
  - intros []. apply in_order_silent, Hk.
Qed.

(** ** C1: the verdict of the limit calculator *)

(** C1. Whenever both one-sided limits are computed, the limit calculator
    renders the two limits followed by exactly one verdict; the verdict is
    "limit exists" if and only if the left limit and the right limit are
    the same symbolic value (structural equality of the expressions), and it
    is "limit does not exist" if and only if they differ. *)
Theorem limit_verdict_iff_equal (E : Engine) (p : Parsed)
    (limit_point : Binary64.float) (lim_left lim_right : Expr) :
  limit E (expr p) x_sym limit_point FromLeft = Ok lim_left ->
  limit E (expr p) x_sym limit_point FromRight = Ok lim_right ->
  exists verdict,
    limit_calculator E p limit_point =
      ([Header "Limit Calculator"; Slider "Choose x-value for limit:";
        Latex (LeftLimitMsg limit_point lim_left);
        Latex (RightLimitMsg limit_point lim_right); verdict], Done tt)
    /\ (verdict = SuccessBox (LimitExistsMsg lim_left) <-> lim_left = lim_right)
    /\ (verdict = ErrorBox LimitDNEMsg <-> lim_left <> lim_right).
Proof.
  intros HL HR.
  unfold limit_calculator, limit_events. rewrite HL, HR.
  cbn [rbind]. rewrite for_each_emit. cbn.
  unfold Expr_eqb. destruct (Expr_eq_dec lim_left lim_right) as [Heq | Hne].
  - eexists; split; [reflexivity |]. split; split; intro H;
      congruence || discriminate H || tauto.
  - eexists; split; [reflexivity |]. split; split; intro H;
      congruence || discriminate H || tauto.
Qed.

Lemma limit_verdict_iff_equal_witness :
  exists verdict,
    limit_calculator Toy.engine
      {| expr := Fn "sign" Toy.X; f_prime_expr := Int 0 |} Binary64.zero =
      ([Header "Limit Calculator"; Slider "Choose x-value for limit:";
        Latex (LeftLimitMsg Binary64.zero (Int (-1)));
        Latex (RightLimitMsg Binary64.zero (Int 1)); verdict], Done tt)
    /\ (verdict = SuccessBox (LimitExistsMsg (Int (-1))) <-> Int (-1) = Int 1)
    /\ (verdict = ErrorBox LimitDNEMsg <-> Int (-1) <> Int 1).
Proof.
  apply (limit_verdict_iff_equal Toy.engine
           {| expr := Fn "sign" Toy.X; f_prime_expr := Int 0 |}
           Binary64.zero (Int (-1)) (Int 1)); reflexivity.
Defined.

(** ** C2: a parse failure halts the rerun *)

(** C2. When the parser rejects the input text, the rerun renders the page
    set-up and the input field, then the parse error as an inline message,
    and stops there with [st.stop()]: nothing after the function input is
    computed or rendered, and the rerun ends as halted, not as aborted by an
    exception. *)
Theorem parse_failure_halts_rerun (E : Engine) (I : Inputs) (e : Exc) :
  sympify E (func_input I) = Raise e ->
  run_script E I =
    ([PageConfig "CalCS: Interactive Visualizer" "centered";
      Title "CalCS Interactive Visualizer: Limits and Derivatives";
      Expander "ℹ️ About This Project";
      SidebarHeader "Function Settings";
      TextInput "Enter a function of x:" "sin(x)";
      ErrorBox (ParseErrorMsg e)], Stopped).
Proof.
  intros Hs. unfold run_script, main, setup, function_input, parse_stage.
  rewrite Hs. reflexivity.
Qed.

Lemma parse_failure_halts_rerun_witness :
  run_script Toy.engine
    (Toy.inputs "((" (Binary64.of_Z 1) (Binary64.of_Z 1) true) =
    ([PageConfig "CalCS: Interactive Visualizer" "centered";
      Title "CalCS Interactive Visualizer: Limits and Derivatives";
      Expander "ℹ️ About This Project";
      SidebarHeader "Function Settings";
      TextInput "Enter a function of x:" "sin(x)";
      ErrorBox (ParseErrorMsg (Exception "SympifyError" "(("))], Stopped).
Proof.
  apply (parse_failure_halts_rerun Toy.engine
           (Toy.inputs "((" (Binary64.of_Z 1) (Binary64.of_Z 1) true)
           (Exception "SympifyError" "((")).
  reflexivity.
Defined.

(** ** C3: the tangent line *)

(** Line 89 computes, entry by entry, [f(a) + f_prime(a) * (x - a)]. *)
Lemma tangent_line_entries (E : Engine) (p : Parsed) (a : Binary64.float)
    (fa fpa : NVal) (va vpa : Binary64.float) :
  f E p (PyNum a) = Ok fa ->
  f_prime E p (PyNum a) = Ok fpa ->
  scalar_val fa = Some va ->
  scalar_val fpa = Some vpa ->
  tangent_line E p (PyNum a) = Ok (NpArr (map (tangent_at va vpa a) x_vals)).
Proof.
  intros Hf Hf' Hva Hvpa. unfold tangent_line. rewrite Hf, Hf'.
  generalize x_vals as xs. intros xs.
  destruct fa, fpa; simpl in Hva, Hvpa; try discriminate;
    injection Hva as ->; injection Hvpa as ->;
    cbn [rbind binop broadcast np_binop]; rewrite !map_map; reflexivity.
Qed.

(** In exact arithmetic the line passes through [(a, f(a))] and rises by
    [f_prime(a)] per unit of [x]. *)
Lemma tangent_at_exact (fa m a x0 x1 : Q) :
  (tangent_at fa m a a == fa /\
   tangent_at fa m a x1 - tangent_at fa m a x0 == m * (x1 - x0))%Q.
Proof. unfold tangent_at; simpl. split; ring. Qed.

(** C3 (amended). For every parsed expression and slider point [a] at which
    [f(a)] and [f_prime(a)] are finite numbers, the tangent line is, entry by
    entry, [f(a) + f_prime(a) * (x - a)] with the coefficient [f_prime(a)]
    taken from the symbolic derivative, and its value at [x = a] equals
    [f(a)] under binary64 comparison; over exact arithmetic that line
    passes through [(a, f(a))] and has slope exactly [f_prime(a)]. *)
Theorem tangent_line_through_point (E : Engine) (p : Parsed)
    (a : Binary64.float) (fa fpa : NVal) (va vpa : Binary64.float) :
  f E p (PyNum a) = Ok fa ->
  f_prime E p (PyNum a) = Ok fpa ->
  scalar_val fa = Some va ->
  scalar_val fpa = Some vpa ->
  Binary64.is_finite va = true ->
  Binary64.is_finite vpa = true ->
  Binary64.is_finite a = true ->
  tangent_line E p (PyNum a) = Ok (NpArr (map (tangent_at va vpa a) x_vals))
  /\ Binary64.eqb (tangent_at va vpa a a) va = true
  /\ (forall y m c x0 x1 : Q,
        tangent_at y m c c == y /\
        tangent_at y m c x1 - tangent_at y m c x0 == m * (x1 - x0))%Q.
Proof.
  intros Hf Hf' Hva Hvpa Fva Fvpa Fa. split; [| split].
  - eapply tangent_line_entries; eassumption.
  - apply tangent_at_self; assumption.
  - intros. apply tangent_at_exact.
Qed.

Lemma tangent_line_through_point_witness :
  tangent_line Toy.engine square (PyNum (Binary64.of_Z 1)) =
    Ok (NpArr (map (tangent_at (Binary64.of_Z 1) (Binary64.of_Z 2)
                      (Binary64.of_Z 1)) x_vals))
  /\ Binary64.eqb (tangent_at (Binary64.of_Z 1) (Binary64.of_Z 2)
                     (Binary64.of_Z 1) (Binary64.of_Z 1))
       (Binary64.of_Z 1) = true
  /\ (forall y m c x0 x1 : Q,
        tangent_at y m c c == y /\
        tangent_at y m c x1 - tangent_at y m c x0 == m * (x1 - x0))%Q.
Proof.
  apply (tangent_line_through_point Toy.engine square (Binary64.of_Z 1)
           (PyNum (Binary64.of_Z 1)) (PyNum (Binary64.of_Z 2)));
    reflexivity.
Defined.

(** C3 as stated fails where the values overflow: for [1e308*x**2] at the
    slider point [a = 10] (the last grid entry) both [f(a)] and [f_prime(a)]
    are [inf], and the tangent line there is [inf + inf * 0 = nan], which is
    not equal to [f(a)]. *)
Lemma tangent_line_overflow_counterexample :
  parse_stage Toy.engine "1e308*x**2" = Ok steep
  /\ f Toy.engine steep (PyNum (Binary64.of_Z 10)) = Ok (PyNum Binary64.inf)
  /\ f_prime Toy.engine steep (PyNum (Binary64.of_Z 10)) = Ok (PyNum Binary64.inf)
  /\ nth 399 x_vals Binary64.zero = Binary64.of_Z 10
  /\ exists tl,
       tangent_line Toy.engine steep (PyNum (Binary64.of_Z 10)) = Ok (NpArr tl)
       /\ nth 399 tl Binary64.zero = Binary64.nan
       /\ Binary64.eqb (nth 399 tl Binary64.zero) Binary64.inf = false.
Proof.
  split; [reflexivity |]. split; [vm_compute; reflexivity |].
  split; [vm_compute; reflexivity |]. split; [vm_compute; reflexivity |].
  eexists. split; [vm_compute; reflexivity |].
  split; vm_compute; reflexivity.
Qed.

(** ** C5: a failing limit does not end the rerun *)

Lemma problem_done (label question button : string) (pressed : bool)
    (solution : list string) :
  snd (problem label question button pressed solution) = Done tt.
Proof.
  unfold problem. rewrite !bind_emit. cbn [snd].
  destruct pressed; [| reflexivity].
  induction solution as [| s l IH]; [reflexivity |].
  cbn [for_each]. rewrite bind_emit. exact IH.
Qed.

Lemma bind_snd_done {A B} (m : Script A) (k : A -> Script B) (a : A) :
  snd m = Done a -> snd (bind m k) = snd (k a).
Proof.
  destruct m as [tr o]; simpl; intros ->. destruct (k a); reflexivity.
Qed.

Lemma bind_fst_done {A B} (m : Script A) (k : A -> Script B) (a : A) :
  snd m = Done a -> fst (bind m k) = fst m ++ fst (k a).
Proof.
  destruct m as [tr o]; simpl; intros ->. destruct (k a); reflexivity.
Qed.

Lemma problem_set_done (show : nat -> bool) :
  snd (problem_set show) = Done tt
  /\ exists more, fst (problem_set show) = Header "Problem Set" :: more.
Proof.
  unfold problem_set. rewrite bind_emit. cbn [fst snd]. split.
  - rewrite !(bind_snd_done _ _ tt) by apply problem_done. apply problem_done.
  - eexists; reflexivity.
Qed.

Lemma real_world_done :
  real_world = ([Header "Real-World Application";
                 Expander "🚗 Velocity of a Moving Car"], Done tt).
Proof. reflexivity. Qed.

(** Once the animation has gone through, the rest of the script renders the
    problem set and the application and completes. *)
Lemma after_limit_completes (E : Engine) (I : Inputs) (p : Parsed)
    (y_vals : NVal) :
  let anim := animation E p y_vals (tangent_x I) (run_animation I) in
  snd anim = Done tt ->
  snd (after_limit E I p y_vals) = Done tt
  /\ fst (after_limit E I p y_vals) =
       fst anim ++ fst (problem_set (show_solution I)) ++ fst real_world.
Proof.
  intros anim Ha. unfold after_limit. fold anim.
  destruct (problem_set_done (show_solution I)) as [Hp _].
  split.
  - rewrite (bind_snd_done _ _ tt Ha), (bind_snd_done _ _ tt Hp). reflexivity.
  - rewrite (bind_fst_done _ _ tt Ha), (bind_fst_done _ _ tt Hp). reflexivity.
Qed.

Lemma animation_starts (E : Engine) (p : Parsed) (y_vals : NVal)
    (a : Binary64.float) (pressed : bool) :
  exists more,
    fst (animation E p y_vals a pressed) =
      Header "Animation: Secant Line to Tangent" :: Button "Run Animation"
      :: more.
Proof. unfold animation. rewrite !bind_emit. eexists; reflexivity. Qed.

Lemma animation_not_pressed (E : Engine) (p : Parsed) (y_vals : NVal)
    (a : Binary64.float) :
  animation E p y_vals a false =
    ([Header "Animation: Secant Line to Tangent"; Button "Run Animation"],
     Done tt).
Proof. reflexivity. Qed.

Lemma function_input_ok (E : Engine) (text : string) (p : Parsed) :
  parse_stage E text = Ok p ->
  function_input E text =
    ([SidebarHeader "Function Settings";
      TextInput "Enter a function of x:" "sin(x)"], Done p).
Proof. intros Hp. unfold function_input. rewrite Hp. reflexivity. Qed.

Lemma limit_calculator_failure (E : Engine) (p : Parsed)
    (limit_point : Binary64.float) (e : Exc) :
  limit_events E (expr p) limit_point = Raise e ->
  limit_calculator E p limit_point =
    ([Header "Limit Calculator"; Slider "Choose x-value for limit:";
      ErrorBox (LimitErrorMsg e)], Done tt).
Proof. intros Hl. unfold limit_calculator. rewrite Hl. reflexivity. Qed.

(** ** C9: the launcher *)

(** C9. Whatever the location of the launcher, the path it resolves is the
    fixed absolute path written in the call of [os.path.join], whose
    absolute second component discards the launcher's own directory; the
    launcher then starts the server on that path and opens the local
    browser endpoint, and does nothing else. *)
Theorem launcher_path_ignores_location (file : string) :
  Launcher.app_path file = "/home/execu/Programming/CalCS/jb/main.py"
  /\ Launcher.run_app file =
       [Launcher.Popen
          ("streamlit run " ++ Launcher.quote
           ++ "/home/execu/Programming/CalCS/jb/main.py"
           ++ Launcher.quote)%string true;
        Launcher.WebbrowserOpen "http://localhost:8501"].
Proof. split; reflexivity. Qed.

(** The launcher in [/opt/calcs] does not start [/opt/calcs/main.py]. *)
Lemma launcher_elsewhere :
  Launcher.dirname "/opt/calcs/run_app.py" = "/opt/calcs"
  /\ Launcher.join "/opt/calcs" ["main.py"] = "/opt/calcs/main.py"
  /\ Launcher.app_path "/opt/calcs/run_app.py" <> "/opt/calcs/main.py".
Proof. repeat split; try reflexivity. vm_compute. discriminate. Qed.

(** ** The sample grid, and a constant expression *)

Lemma x_vals_facts :
  List.length x_vals = 400%nat
  /\ hd Binary64.nan x_vals = Binary64.of_Z (-10)
  /\ last x_vals Binary64.nan = Binary64.of_Z 10
  /\ strictly_ascending x_vals = true.
Proof. repeat split; vm_compute; reflexivity. Qed.

(** ** The secant slopes *)

(** The slope of line 134 on scalars. *)
Lemma slope_scalars (E : Engine) (a x1 : Binary64.float) (y0 y1 : NVal)
    (v0 v1 : Binary64.float) :
  scalar_val y0 = Some v0 ->
  scalar_val y1 = Some v1 ->
  slope E (PyNum a) (NpNum x1) y0 y1 = Ok (NpNum (secant_slope a x1 v0 v1)).
Proof.
  intros H0 H1. unfold slope, secant_slope.
  destruct y0, y1; simpl in H0, H1; try discriminate;
    injection H0 as ->; injection H1 as ->; reflexivity.
Qed.

(** When the generated function computes [g] on scalars, the loop computes
    the secant slopes of [g]. *)
Lemma animation_slopes_core (E : Engine) (p : Parsed) (a : Binary64.float)
    (g : Binary64.float -> Binary64.float) :
  (forall v, exists y, f E p (PyNum v) = Ok y /\ scalar_val y = Some (g v)) ->
  (forall v, exists y, f E p (NpNum v) = Ok y /\ scalar_val y = Some (g v)) ->
  scalars (animation_slopes E p a) = secant_slopes g a h_vals.
Proof.
  intros Hpy Hnp. unfold animation_slopes, secant_slopes, scalars.
  induction h_vals as [| h hs IH]; [reflexivity |].
  cbn [map flat_map]. rewrite IH. unfold secant_points at 1.
  cbn [binop broadcast rbind np_binop].
  destruct (Hpy a) as (y0 & Hy0 & Hv0).
  destruct (Hnp (Binary64.add a h)) as (y1 & Hy1 & Hv1).
  rewrite Hy0. cbn [rbind]. rewrite Hy1. cbn [rbind].
  rewrite (slope_scalars E a _ y0 y1 _ _ Hv0 Hv1). reflexivity.
Qed.

Lemma Qpositive_spec (q : Q) : Qpositive q = true -> (0 < q)%Q.
Proof.
  unfold Qpositive. intros H. apply Qnot_le_lt. intros Hle.
  apply Qle_bool_iff in Hle. rewrite Hle in H. discriminate.
Qed.

(** ** The shape of the samples *)

Lemma length_map2 {A B C} (g : A -> B -> C) (l1 : list A) (l2 : list B) :
  List.length l1 = List.length l2 ->
  List.length (map2 g l1 l2) = List.length l1.
Proof.
  revert l2. induction l1 as [| a l1 IH]; intros [| b l2] Hlen;
    simpl in *; try discriminate; [reflexivity |].
  f_equal. apply IH. congruence.
Qed.

(** Broadcasting: an operator on an array of [n] numbers and a number, or
    on two arrays of [n] numbers, yields an array of [n] numbers. *)
Lemma binop_shaped (N : Namespace) (o : BinOp) (n : nat) (b1 b2 : bool)
    (u v w : NVal) :
  shaped n b1 u -> shaped n b2 v -> binop N o u v = Ok w ->
  shaped n (b1 || b2) w.
Proof.
  intros Hu Hv Hw.
  destruct b1, b2; cbn [shaped orb] in *.
  - destruct Hu as (l1 & -> & H1), Hv as (l2 & -> & H2).
    cbn [binop broadcast] in Hw.
    rewrite H1, H2, Nat.eqb_refl in Hw. injection Hw as <-.
    eexists; split; [reflexivity |].
    rewrite length_map2; congruence.
  - destruct Hu as (l1 & -> & H1), Hv as (a & Ha).
    destruct v; simpl in Ha; try discriminate;
      cbn [binop broadcast] in Hw; injection Hw as <-;
      (eexists; split; [reflexivity | rewrite length_map; exact H1]).
  - destruct Hu as (a & Ha), Hv as (l2 & -> & H2).
    destruct u; simpl in Ha; try discriminate;
      cbn [binop broadcast] in Hw; injection Hw as <-;
      (eexists; split; [reflexivity | rewrite length_map; exact H2]).
  - destruct Hu as (a & Ha), Hv as (b & Hb).
    destruct u, v; simpl in Ha, Hb; try discriminate;
      cbn [binop broadcast] in Hw.
    + destruct (py_binop N o v0 v) as [e | c]; cbn [rbind] in Hw;
        [discriminate | injection Hw as <-]. eexists; reflexivity.
    + injection Hw as <-. eexists; reflexivity.
    + injection Hw as <-. eexists; reflexivity.
    + injection Hw as <-. eexists; reflexivity.
Qed.

Lemma rbind_ok {A B} (r : Result A) (k : A -> Result B) (b : B) :
  rbind r k = Ok b -> exists a, r = Ok a /\ k a = Ok b.
Proof. destruct r as [e | a]; cbn; [discriminate | eauto]. Qed.

Lemma mentions_app (s : string) (l1 l2 : list string) :
  existsb (String.eqb s) (l1 ++ l2)
  = existsb (String.eqb s) l1 || existsb (String.eqb s) l2.
Proof. apply existsb_app. Qed.

(** The generated function of an expression in the argument alone, called
    on an array: an array of the same length when the argument occurs in
    the expression, a single number when it does not. *)
Lemma eval_shaped (N : Namespace) (arg : string) (xs : list Binary64.float)
    (e : Expr) :
  (forall s, In s (free_symbols e) -> s = arg) ->
  forall v, eval N arg e (NpArr xs) = Ok v ->
  shaped (List.length xs) (mentions arg e) v.
Proof.
  unfold mentions.
  induction e as [n | c | s | c | a IHa b IHb | a IHa b IHb | a IHa b IHb
                 | name a IHa]; intros Hfree v Hv; cbn [eval] in Hv;
    cbn [free_symbols].
  - destruct (Binary64.is_finite (Binary64.of_Z n)); [| discriminate].
    injection Hv as <-. eexists; reflexivity.
  - injection Hv as <-. eexists; reflexivity.
  - assert (Hs : s = arg) by (apply Hfree; left; reflexivity). subst s.
    rewrite String.eqb_refl in Hv. injection Hv as <-.
    cbn [existsb]. rewrite String.eqb_refl. cbn [orb shaped].
    eexists; split; reflexivity.
  - destruct (np_const N c); [| discriminate]. injection Hv as <-.
    eexists; reflexivity.
  - apply rbind_ok in Hv as (u & Hu & Hv). apply rbind_ok in Hv as (w & Hw & Hv).
    rewrite mentions_app. cbn [free_symbols] in Hfree.
    eapply binop_shaped; [apply IHa | apply IHb | exact Hv];
      try assumption; intros s Hs; apply Hfree, in_or_app; auto.
  - apply rbind_ok in Hv as (u & Hu & Hv). apply rbind_ok in Hv as (w & Hw & Hv).
    rewrite mentions_app. cbn [free_symbols] in Hfree.
    eapply binop_shaped; [apply IHa | apply IHb | exact Hv];
      try assumption; intros s Hs; apply Hfree, in_or_app; auto.
  - apply rbind_ok in Hv as (u & Hu & Hv). apply rbind_ok in Hv as (w & Hw & Hv).
    rewrite mentions_app. cbn [free_symbols] in Hfree.
    eapply binop_shaped; [apply IHa | apply IHb | exact Hv];
      try assumption; intros s Hs; apply Hfree, in_or_app; auto.
  - destruct (np_func N name) as [g |]; [| discriminate].
    apply rbind_ok in Hv as (u & Hu & Hv).
    specialize (IHa Hfree u Hu).
    destruct (existsb (String.eqb arg) (free_symbols a)); cbn [shaped] in *.
    + destruct IHa as (l & -> & Hl). injection Hv as <-.
      eexists; split; [reflexivity | rewrite length_map; exact Hl].
    + destruct IHa as (x & Hx).
      destruct u; simpl in Hx; try discriminate; injection Hv as <-;
        eexists; reflexivity.
Qed.

(** ** C6: the animation loop *)

Lemma ax_plot_ok (xs ys : NVal) (l : Label) (c : Artist) :
  ax_plot xs ys l = Ok c -> c = APlot xs ys l.
Proof.
  unfold ax_plot. destruct (negb (Nat.eqb (shape xs) (shape ys)));
    [discriminate |].
  destruct (is_object xs || is_object ys); [discriminate | congruence].
Qed.

(** An iteration either is cut short by an exception before it renders
    anything, or renders one frame for its [h] and sleeps 0.2. *)
Lemma secant_frame_cases (E : Engine) (p : Parsed) (y_vals : NVal)
    (a h : Binary64.float) :
  (exists e, secant_frame E p y_vals a h = ([], Aborted e))
  \/ (exists fig,
        secant_frame E p y_vals a h =
          ([PlaceholderPyplot fig; Sleep (Binary64.of_decimal 2 1)], Done tt)
        /\ secant_steps fig = [h]).
Proof.
  unfold secant_frame.
  destruct (ax_plot (NpArr x_vals) y_vals LCurve) as [e | c] eqn:Hc;
    [left; eexists; reflexivity |].
  apply ax_plot_ok in Hc. subst c. rewrite (bind_lift_ok _ _ _ eq_refl).
  destruct (secant_points E p a h) as [e | [[[x1 y0] y1] sl]];
    [left; eexists; reflexivity |].
  rewrite (bind_lift_ok _ _ _ eq_refl).
  destruct (secant E sl (PyNum a) y0) as [e | sec];
    [left; eexists; reflexivity |].
  rewrite (bind_lift_ok _ _ _ eq_refl).
  destruct (ax_plot (NpArr x_vals) sec (LSecant h)) as [e | s] eqn:Hs;
    [left; eexists; reflexivity |].
  apply ax_plot_ok in Hs. subst s. rewrite (bind_lift_ok _ _ _ eq_refl).
  right. eexists. split; reflexivity.
Qed.

Lemma sleeps_app (t1 t2 : Trace) : sleeps (t1 ++ t2) = sleeps t1 ++ sleeps t2.
Proof. unfold sleeps. apply flat_map_app. Qed.

Lemma frame_steps_app (t1 t2 : Trace) :
  frame_steps (t1 ++ t2) = frame_steps t1 ++ frame_steps t2.
Proof. unfold frame_steps. apply flat_map_app. Qed.

(** The loop over a list of steps: at most one frame and one sleep per step,
    and exactly one of each, in order, when no iteration raises. *)
Lemma loop_frames (E : Engine) (p : Parsed) (y_vals : NVal)
    (a : Binary64.float) (hs : list Binary64.float) :
  let r := for_each hs (secant_frame E p y_vals a) in
  (List.length (sleeps (fst r)) <= List.length hs)%nat
  /\ (snd r = Done tt ->
      frame_steps (fst r) = hs
      /\ sleeps (fst r) = repeat (Binary64.of_decimal 2 1) (List.length hs)).
Proof.
  induction hs as [| h hs [IHle IHdone]]; cbn zeta.
  - split; [apply Nat.le_refl | intros _; split; reflexivity].
  - cbn [for_each].
    destruct (secant_frame_cases E p y_vals a h) as [[e He] | [fig [He Hh]]];
      rewrite He.
    + split; [apply Nat.le_0_l | discriminate].
    + rewrite (bind_done _ _ _ _ eq_refl). cbn [fst snd].
      rewrite sleeps_app, frame_steps_app. split.
      * rewrite length_app. cbn. apply le_n_S, IHle.
      * intros Hd. destruct (IHdone Hd) as [Hf Hs].
        rewrite Hf, Hs. cbn. rewrite Hh, app_nil_r. split; reflexivity.
Qed.

Lemma h_vals_facts :
  List.length h_vals = 20%nat
  /\ hd Binary64.nan h_vals = Binary64.of_Z 1
  /\ last h_vals Binary64.nan = Binary64.of_decimal 1 2
  /\ strictly_descending h_vals = true.
Proof. repeat split; vm_compute; reflexivity. Qed.

(** An expression in which the argument does not occur evaluates the same
    on every argument. *)
Lemma eval_independent (N : Namespace) (arg : string) (e : Expr)
    (x x' : NVal) :
  mentions arg e = false -> eval N arg e x = eval N arg e x'.
Proof.
  unfold mentions.
  induction e as [n | c | s | c | a IHa b IHb | a IHa b IHb | a IHa b IHb
                 | name a IHa]; cbn [eval free_symbols]; intros Hm;
    try reflexivity.
  - cbn [existsb] in Hm. rewrite orb_false_r in Hm.
    rewrite String.eqb_sym, Hm. reflexivity.
  - rewrite mentions_app in Hm. apply orb_false_elim in Hm as [Ha Hb].
    rewrite (IHa Ha), (IHb Hb). reflexivity.
  - rewrite mentions_app in Hm. apply orb_false_elim in Hm as [Ha Hb].
    rewrite (IHa Ha), (IHb Hb). reflexivity.
  - rewrite mentions_app in Hm. apply orb_false_elim in Hm as [Ha Hb].
    rewrite (IHa Ha), (IHb Hb). reflexivity.
  - rewrite (IHa Hm). reflexivity.
Qed.

(** On a number, the generated function of an expression in the argument
    alone returns a number. *)
Lemma eval_scalar (N : Namespace) (arg : string) (e : Expr) (x u : NVal)
    (vx : Binary64.float) :
  (forall s, In s (free_symbols e) -> s = arg) ->
  scalar_val x = Some vx ->
  eval N arg e x = Ok u ->
  exists v, scalar_val u = Some v.
Proof.
  intros Hfree Hx. revert u.
  induction e as [n | c | s | c | a IHa b IHb | a IHa b IHb | a IHa b IHb
                 | name a IHa]; intros u Hu; cbn [eval] in Hu;
    cbn [free_symbols] in Hfree.
  - destruct (Binary64.is_finite (Binary64.of_Z n)); [| discriminate].
    injection Hu as <-. eexists; reflexivity.
  - injection Hu as <-. eexists; reflexivity.
  - assert (Hs : s = arg) by (apply Hfree; left; reflexivity). subst s.
    rewrite String.eqb_refl in Hu. injection Hu as <-. eauto.
  - destruct (np_const N c); [| discriminate]. injection Hu as <-.
    eexists; reflexivity.
  - apply rbind_ok in Hu as (ua & Ha & Hu). apply rbind_ok in Hu as (ub & Hb & Hu).
    apply (binop_shaped N OAdd 0 false false ua ub u); [| | exact Hu].
    + apply IHa; [intros s Hs; apply Hfree, in_or_app; auto | exact Ha].
    + apply IHb; [intros s Hs; apply Hfree, in_or_app; auto | exact Hb].
  - apply rbind_ok in Hu as (ua & Ha & Hu). apply rbind_ok in Hu as (ub & Hb & Hu).
    apply (binop_shaped N OMul 0 false false ua ub u); [| | exact Hu].
    + apply IHa; [intros s Hs; apply Hfree, in_or_app; auto | exact Ha].
    + apply IHb; [intros s Hs; apply Hfree, in_or_app; auto | exact Hb].
  - apply rbind_ok in Hu as (ua & Ha & Hu). apply rbind_ok in Hu as (ub & Hb & Hu).
    apply (binop_shaped N OPow 0 false false ua ub u); [| | exact Hu].
    + apply IHa; [intros s Hs; apply Hfree, in_or_app; auto | exact Ha].
    + apply IHb; [intros s Hs; apply Hfree, in_or_app; auto | exact Hb].
  - destruct (np_func N name) as [g |]; [| discriminate].
    apply rbind_ok in Hu as (ua & Ha & Hu).
    destruct (IHa Hfree ua Ha) as (v & Hv).
    destruct ua; simpl in Hv; try discriminate; injection Hu as <-;
      eexists; reflexivity.
Qed.

(** A binary operator with a NumPy scalar on one side and a number on the
    other never raises. *)
Lemma binop_np_scalar (N : Namespace) (o : BinOp) (u v : NVal)
    (a b : Binary64.float) :
  scalar_val u = Some a -> scalar_val v = Some b ->
  (exists a', u = NpNum a') \/ (exists b', v = NpNum b') ->
  exists c, binop N o u v = Ok (NpNum c).
Proof.
  intros Hu Hv [[a' ->] | [b' ->]].
  - destruct v; simpl in Hv; try discriminate; eexists; reflexivity.
  - destruct u; simpl in Hu; try discriminate; eexists; reflexivity.
Qed.

(** If the generated function returns on the Python float [a], it returns a
    number on every NumPy scalar: NumPy arithmetic does not raise, and what
    does not depend on the argument is computed as before. *)
Lemma eval_np_total (N : Namespace) (arg : string) (e : Expr)
    (a x : Binary64.float) (u : NVal) :
  (forall s, In s (free_symbols e) -> s = arg) ->
  eval N arg e (PyNum a) = Ok u ->
  exists w v, eval N arg e (NpNum x) = Ok w /\ scalar_val w = Some v
              /\ (mentions arg e = true -> w = NpNum v).
Proof.
  intros Hfree. revert u. revert Hfree.
  assert (Hclosed : forall e', (forall s, In s (free_symbols e') -> s = arg) ->
            mentions arg e' = false -> forall u',
            eval N arg e' (PyNum a) = Ok u' ->
            exists w v, eval N arg e' (NpNum x) = Ok w
                        /\ scalar_val w = Some v
                        /\ (mentions arg e' = true -> w = NpNum v)).
  { intros e' Hf Hm u' Hu'.
    rewrite (eval_independent N arg e' (NpNum x) (PyNum a) Hm), Hu'.
    destruct (eval_scalar N arg e' (PyNum a) u' a Hf eq_refl Hu') as (v & Hv).
    exists u', v. split; [reflexivity |]. split; [exact Hv |].
    rewrite Hm. discriminate. }
  assert (Hbin : forall o ea eb,
            (forall s, In s (free_symbols ea ++ free_symbols eb) -> s = arg) ->
            (forall u', eval N arg ea (PyNum a) = Ok u' ->
               exists w v, eval N arg ea (NpNum x) = Ok w
                           /\ scalar_val w = Some v
                           /\ (mentions arg ea = true -> w = NpNum v)) ->
            (forall u', eval N arg eb (PyNum a) = Ok u' ->
               exists w v, eval N arg eb (NpNum x) = Ok w
                           /\ scalar_val w = Some v
                           /\ (mentions arg eb = true -> w = NpNum v)) ->
            forall ua ub u',
            eval N arg ea (PyNum a) = Ok ua -> eval N arg eb (PyNum a) = Ok ub ->
            binop N o ua ub = Ok u' ->
            mentions arg ea || mentions arg eb = true ->
            exists c, (wa <- eval N arg ea (NpNum x) ;;
                       wb <- eval N arg eb (NpNum x) ;; binop N o wa wb)%result
                      = Ok (NpNum c)).
  { intros o ea eb Hf IHa IHb ua ub u' Ha Hb Hu' Hm.
    destruct (IHa ua Ha) as (wa & va & Hwa & Hva & Hna).
    destruct (IHb ub Hb) as (wb & vb & Hwb & Hvb & Hnb).
    rewrite Hwa. cbn [rbind]. rewrite Hwb. cbn [rbind].
    apply (binop_np_scalar N o wa wb va vb Hva Hvb).
    apply orb_prop in Hm as [Hm | Hm]; [left | right]; eauto. }
  induction e as [n | c | s | c | ea IHa eb IHb | ea IHa eb IHb | ea IHa eb IHb
                 | name ea IHa]; intros Hfree u Hu.
  - apply (Hclosed _ Hfree eq_refl u Hu).
  - apply (Hclosed _ Hfree eq_refl u Hu).
  - assert (Hs : s = arg) by (apply Hfree; left; reflexivity). subst s.
    cbn [eval]. rewrite String.eqb_refl. exists (NpNum x), x.
    split; [reflexivity |]. split; reflexivity.
  - apply (Hclosed _ Hfree eq_refl u Hu).
  - destruct (mentions arg (EAdd ea eb)) eqn:Hm;
      [| destruct (Hclosed _ Hfree Hm u Hu) as (w & v & Hw & Hv & _);
         exists w, v; repeat split; try assumption; discriminate].
    cbn [eval] in Hu |- *. cbn [free_symbols] in Hfree.
    apply rbind_ok in Hu as (ua & Ha & Hu). apply rbind_ok in Hu as (ub & Hb & Hu).
    unfold mentions in Hm. cbn [free_symbols] in Hm. rewrite mentions_app in Hm.
    destruct (Hbin OAdd ea eb Hfree) with (ua := ua) (ub := ub) (u' := u)
      as (c & Hc); try assumption.
    + apply IHa. intros s Hs. apply Hfree, in_or_app; auto.
    + apply IHb. intros s Hs. apply Hfree, in_or_app; auto.
    + rewrite Hc. exists (NpNum c), c. repeat split; reflexivity.
  - destruct (mentions arg (EMul ea eb)) eqn:Hm;
      [| destruct (Hclosed _ Hfree Hm u Hu) as (w & v & Hw & Hv & _);
         exists w, v; repeat split; try assumption; discriminate].
    cbn [eval] in Hu |- *. cbn [free_symbols] in Hfree.
    apply rbind_ok in Hu as (ua & Ha & Hu). apply rbind_ok in Hu as (ub & Hb & Hu).
    unfold mentions in Hm. cbn [free_symbols] in Hm. rewrite mentions_app in Hm.
    destruct (Hbin OMul ea eb Hfree) with (ua := ua) (ub := ub) (u' := u)
      as (c & Hc); try assumption.
    + apply IHa. intros s Hs. apply Hfree, in_or_app; auto.
    + apply IHb. intros s Hs. apply Hfree, in_or_app; auto.
    + rewrite Hc. exists (NpNum c), c. repeat split; reflexivity.
  - destruct (mentions arg (EPow ea eb)) eqn:Hm;
      [| destruct (Hclosed _ Hfree Hm u Hu) as (w & v & Hw & Hv & _);
         exists w, v; repeat split; try assumption; discriminate].
    cbn [eval] in Hu |- *. cbn [free_symbols] in Hfree.
    apply rbind_ok in Hu as (ua & Ha & Hu). apply rbind_ok in Hu as (ub & Hb & Hu).
    unfold mentions in Hm. cbn [free_symbols] in Hm. rewrite mentions_app in Hm.
    destruct (Hbin OPow ea eb Hfree) with (ua := ua) (ub := ub) (u' := u)
      as (c & Hc); try assumption.
    + apply IHa. intros s Hs. apply Hfree, in_or_app; auto.
    + apply IHb. intros s Hs. apply Hfree, in_or_app; auto.
    + rewrite Hc. exists (NpNum c), c. repeat split; reflexivity.
  - cbn [eval] in Hu |- *. cbn [free_symbols] in Hfree.
    destruct (np_func N name) as [g |]; [| discriminate].
    apply rbind_ok in Hu as (ua & Ha & Hu).
    destruct (IHa Hfree ua Ha) as (w & v & Hw & Hv & _).
    rewrite Hw. cbn [rbind].
    destruct w; simpl in Hv; try discriminate; injection Hv as ->;
      eexists _, _; (split; [reflexivity |]); split; reflexivity.
Qed.

Lemma bind_lift_done_inv {A B} (r : Result A) (k : A -> Script B) (b : B) :
  snd (bind (lift r) k) = Done b ->
  exists a, r = Ok a /\ snd (k a) = Done b.
Proof.
  destruct r as [e | a]; cbn; [discriminate |].
  destruct (k a) as [tr o] eqn:Hk. cbn. intros Ho. exists a.
  split; [reflexivity | rewrite Hk; exact Ho].
Qed.

(** A tangent section that went through has plotted the samples and has
    evaluated [f(a)]. *)
Lemma tangent_visualizer_done (E : Engine) (p : Parsed) (y_vals : NVal)
    (a : Binary64.float) (tr : Trace) :
  tangent_visualizer E p y_vals a = (tr, Done tt) ->
  exists c y0,
    ax_plot (NpArr x_vals) y_vals LCurve = Ok c /\ f E p (PyNum a) = Ok y0.
Proof.
  unfold tangent_visualizer. rewrite !bind_emit. intros H.
  injection H as _ H.
  apply bind_lift_done_inv in H as (tl & _ & H).
  apply bind_lift_done_inv in H as (c & Hc & H).
  apply bind_lift_done_inv in H as (t & _ & H).
  apply bind_lift_done_inv in H as (y0 & Hy0 & _).
  eauto.
Qed.

(** Line 135 on a NumPy slope and a number [y0]: an array over the grid. *)
Lemma secant_array (E : Engine) (sl a : Binary64.float) (y0 : NVal)
    (v0 : Binary64.float) :
  scalar_val y0 = Some v0 ->
  secant E (NpNum sl) (PyNum a) y0 = Ok (NpArr (map (secant_at sl a v0) x_vals)).
Proof.
  intros H0. unfold secant. generalize x_vals as xs. intros xs.
  cbn [binop broadcast rbind].
  destruct y0; simpl in H0; try discriminate; injection H0 as ->;
    cbn [binop broadcast]; rewrite !map_map; reflexivity.
Qed.

(** For an expression in [x] alone, once the samples have been plotted and
    [f(a)] evaluated, an iteration of the loop cannot raise. *)
Lemma secant_frame_done (E : Engine) (p : Parsed) (y_vals : NVal)
    (a h : Binary64.float) (c : Artist) (y0 : NVal) :
  (forall s, In s (free_symbols (expr p)) -> s = x_sym) ->
  ax_plot (NpArr x_vals) y_vals LCurve = Ok c ->
  f E p (PyNum a) = Ok y0 ->
  snd (secant_frame E p y_vals a h) = Done tt.
Proof.
  intros Hfree Hc Hy0.
  destruct (eval_scalar (numeric E) x_sym (expr p) (PyNum a) y0 a Hfree
              eq_refl Hy0) as (v0 & Hv0).
  destruct (eval_np_total (numeric E) x_sym (expr p) a (Binary64.add a h) y0
              Hfree Hy0) as (y1 & v1 & Hy1 & Hv1 & _).
  unfold secant_frame. rewrite (bind_lift_ok _ _ _ Hc).
  assert (Hpts : secant_points E p a h =
            Ok (NpNum (Binary64.add a h), y0, y1,
                NpNum (secant_slope a (Binary64.add a h) v0 v1))).
  { unfold secant_points. cbn [binop broadcast rbind np_binop]. unfold f in *.
    unfold lambdify in *. rewrite Hy0. cbn [rbind]. rewrite Hy1. cbn [rbind].
    rewrite (slope_scalars E a _ y0 y1 v0 v1 Hv0 Hv1). reflexivity. }
  rewrite (bind_lift_ok _ _ _ Hpts).
  rewrite (bind_lift_ok _ _ _
             (secant_array E (secant_slope a (Binary64.add a h) v0 v1) a y0 v0
                Hv0)).
  set (l := map (secant_at (secant_slope a (Binary64.add a h) v0 v1) a v0)
              x_vals).
  assert (Hplot : ax_plot (NpArr x_vals) (NpArr l) (LSecant h)
                  = Ok (APlot (NpArr x_vals) (NpArr l) (LSecant h))).
  { unfold ax_plot, l. cbn [is_object orb shape].
    rewrite length_map, Nat.eqb_refl. reflexivity. }
  rewrite (bind_lift_ok _ _ _ Hplot). reflexivity.
Qed.

Lemma for_each_done {A} (l : list A) (body : A -> Script unit) :
  (forall x, In x l -> snd (body x) = Done tt) ->
  snd (for_each l body) = Done tt.
Proof.
  induction l as [| x l IH]; intros H; [reflexivity |].
  cbn [for_each]. rewrite (bind_snd_done _ _ tt) by (apply H; left; reflexivity).
  apply IH. intros y Hy. apply H. right. exact Hy.
Qed.

Lemma animation_pressed (E : Engine) (p : Parsed) (y_vals : NVal)
    (a : Binary64.float) :
  animation E p y_vals a true =
    ([Header "Animation: Secant Line to Tangent"; Button "Run Animation";
      EmptyPlaceholder]
     ++ fst (for_each h_vals (secant_frame E p y_vals a)),
     snd (for_each h_vals (secant_frame E p y_vals a))).
Proof. unfold animation. rewrite !bind_emit. reflexivity. Qed.

(** C6. The animation, when its button is pressed, is a loop over [h_vals],
    the 20 values of [linspace(1.0, 0.01, 20)], which descend strictly from
    1.0 to 0.01.  For every expression in [x] alone, once the tangent
    section has been rendered, the loop renders exactly one frame per value
    of [h], in that order, each followed by a sleep of 0.2, and then ends;
    and whatever the inputs, the loop never performs more than 20
    iterations. *)
Theorem animation_is_a_bounded_loop (E : Engine) (p : Parsed)
    (y_vals : NVal) (a : Binary64.float) (tangent_events : Trace) :
  (forall s, In s (free_symbols (expr p)) -> s = x_sym) ->
  tangent_visualizer E p y_vals a = (tangent_events, Done tt) ->
  let r := animation E p y_vals a true in
  snd r = Done tt
  /\ frame_steps (fst r) = h_vals
  /\ sleeps (fst r) = repeat (Binary64.of_decimal 2 1) 20
  /\ List.length h_vals = 20%nat
  /\ hd Binary64.nan h_vals = Binary64.of_Z 1
  /\ last h_vals Binary64.nan = Binary64.of_decimal 1 2
  /\ strictly_descending h_vals = true
  /\ (forall (E' : Engine) (p' : Parsed) (y' : NVal) (a' : Binary64.float),
        (List.length (sleeps (fst (animation E' p' y' a' true))) <= 20)%nat).
Proof.
  intros Hfree Ht. cbn zeta.
  destruct h_vals_facts as (Hlen & Hfacts).
  destruct (tangent_visualizer_done E p y_vals a _ Ht) as (c & y0 & Hc & Hy0).
  assert (Hdone : snd (for_each h_vals (secant_frame E p y_vals a)) = Done tt).
  { apply for_each_done. intros h _.
    apply (secant_frame_done E p y_vals a h c y0); assumption. }
  destruct (loop_frames E p y_vals a h_vals) as [_ Hframes].
  destruct (Hframes Hdone) as [Hsteps Hsleeps]. rewrite Hlen in Hsleeps.
  rewrite animation_pressed. cbn [fst snd].
  rewrite sleeps_app, frame_steps_app. cbn [sleeps frame_steps flat_map app].
  split; [exact Hdone |]. split; [exact Hsteps |]. split; [exact Hsleeps |].
  split; [exact Hlen |].
  destruct Hfacts as (Hhd & Hlast & Hdesc).
  split; [exact Hhd |]. split; [exact Hlast |]. split; [exact Hdesc |].
  intros E' p' y' a'. rewrite animation_pressed. cbn [fst].
  rewrite sleeps_app. cbn [sleeps flat_map app].
  destruct (loop_frames E' p' y' a' h_vals) as [Hle _].
  rewrite Hlen in Hle. exact Hle.
Qed.

Lemma animation_is_a_bounded_loop_witness :
  let r := animation Toy.engine square square_samples (Binary64.of_Z 1) true in
  snd r = Done tt
  /\ frame_steps (fst r) = h_vals
  /\ sleeps (fst r) = repeat (Binary64.of_decimal 2 1) 20.
Proof.
  destruct (animation_is_a_bounded_loop Toy.engine square square_samples
              (Binary64.of_Z 1)
              (fst (tangent_visualizer Toy.engine square square_samples
                      (Binary64.of_Z 1))))
    as (H1 & H2 & H3 & _).
  - intros s Hs. cbn in Hs. destruct Hs as [<- | []]. reflexivity.
  - vm_compute. reflexivity.
  - split; [exact H1 |]. split; [exact H2 | exact H3].
Defined.

(** ** C5: the rest of the rerun after a failing limit *)

(** For an expression in [x] alone, once the tangent section has been
    rendered, the animation goes through. *)
Lemma animation_is_done (E : Engine) (p : Parsed) (y_vals : NVal)
    (a : Binary64.float) (tangent_events : Trace) :
  (forall s, In s (free_symbols (expr p)) -> s = x_sym) ->
  tangent_visualizer E p y_vals a = (tangent_events, Done tt) ->
  snd (animation E p y_vals a true) = Done tt.
Proof.
  intros Hfree Ht.
  destruct (tangent_visualizer_done E p y_vals a _ Ht) as (c & y0 & Hc & Hy0).
  rewrite animation_pressed. cbn [snd].
  apply for_each_done. intros h _.
  apply (secant_frame_done E p y_vals a h c y0); assumption.
Qed.

(** C5. When the run has reached the limit calculator and the limit
    computation raises, the exception is rendered as an inline "Limit error"
    message and the script goes on: the animation section is rendered next,
    and unless an exception is raised inside the animation itself the
    problem set and the closing section are rendered and the rerun
    completes.  No exception is raised there when the button is not
    pressed, nor, for an expression in [x] alone, when it is. *)
Theorem limit_failure_is_not_fatal (E : Engine) (I : Inputs) (p : Parsed)
    (y_vals : NVal) (tangent_events : Trace) (e : Exc) :
  parse_stage E (func_input I) = Ok p ->
  f E p (NpArr x_vals) = Ok y_vals ->
  tangent_visualizer E p y_vals (tangent_x I) = (tangent_events, Done tt) ->
  limit_events E (expr p) (limit_x I) = Raise e ->
  let anim := animation E p y_vals (tangent_x I) (run_animation I) in
  let rest := after_limit E I p y_vals in
  run_script E I =
    (fst setup
     ++ [SidebarHeader "Function Settings";
         TextInput "Enter a function of x:" "sin(x)"]
     ++ fst learn_concepts ++ tangent_events
     ++ [Header "Limit Calculator"; Slider "Choose x-value for limit:";
         ErrorBox (LimitErrorMsg e)]
     ++ fst rest, snd rest)
  /\ (exists more,
        fst rest = Header "Animation: Secant Line to Tangent"
                   :: Button "Run Animation" :: more)
  /\ (snd anim = Done tt ->
        snd rest = Done tt
        /\ fst rest = fst anim ++ fst (problem_set (show_solution I))
                      ++ fst real_world
        /\ exists more,
             fst (problem_set (show_solution I)) = Header "Problem Set" :: more)
  /\ (run_animation I = false -> snd anim = Done tt)
  /\ ((forall s, In s (free_symbols (expr p)) -> s = x_sym) ->
      snd anim = Done tt).
Proof.
  intros Hp Hy Ht Hl anim rest. split; [| split; [| split; [| split]]].
  - unfold run_script, main.
    rewrite (bind_done setup _ (fst setup) tt eq_refl).
    rewrite (bind_done _ _ _ _ (function_input_ok E _ p Hp)).
    unfold after_parse, eval_grid.
    rewrite (bind_lift_ok _ _ _ Hy).
    rewrite (bind_done learn_concepts _ (fst learn_concepts) tt eq_refl).
    rewrite (bind_done _ _ _ _ Ht).
    rewrite (bind_done _ _ _ _ (limit_calculator_failure E p _ e Hl)).
    fold rest. cbn [fst snd]. reflexivity.
  - subst rest. unfold after_limit.
    destruct (animation_starts E p y_vals (tangent_x I) (run_animation I))
      as [more Hm].
    unfold bind at 1.
    destruct (animation E p y_vals (tangent_x I) (run_animation I))
      as [tr o] eqn:Ha. simpl in Hm. subst tr.
    destruct o; [| eexists; reflexivity ..].
    match goal with |- context [let (_, _) := ?m in _] => destruct m end.
    eexists; reflexivity.
  - intros Ha. destruct (after_limit_completes E I p y_vals Ha) as [H1 H2].
    split; [exact H1 |]. split; [exact H2 |].
    apply problem_set_done.
  - intros Hb. subst anim. rewrite Hb. reflexivity.
  - intros Hfree. subst anim. destruct (run_animation I); [| reflexivity].
    eapply animation_is_done; eassumption.
Qed.

Lemma limit_failure_is_not_fatal_witness :
  let I := Toy.inputs "1/x" (Binary64.of_Z 1) Binary64.zero false in
  let e := Exception "ZeroDivisionError"
             "0.0 cannot be raised to a negative power" in
  exists before after,
    run_script Toy.engine I =
      (before ++ [ErrorBox (LimitErrorMsg e);
                  Header "Animation: Secant Line to Tangent";
                  Button "Run Animation"; Header "Problem Set"] ++ after,
       Done tt).
Proof.
  intros I e.
  destruct (limit_failure_is_not_fatal Toy.engine I reciprocal
              (NpArr (map (fun v => Binary64.div Toy.one v) x_vals))
              (fst (tangent_visualizer Toy.engine reciprocal
                      (NpArr (map (fun v => Binary64.div Toy.one v) x_vals))
                      (Binary64.of_Z 1)))
              e)
    as (Hrun & _ & Hdone & Hnp & _).
  - reflexivity.
  - vm_compute. reflexivity.
  - vm_compute. reflexivity.
  - vm_compute. reflexivity.
  - destruct (Hdone (Hnp eq_refl)) as (Hs & Hf & more & Hps).
    rewrite Hrun, Hs, Hf, Hps.
    rewrite (animation_not_pressed Toy.engine). cbn [fst].
    generalize (fst (tangent_visualizer Toy.engine reciprocal
                       (NpArr (map (fun v => Binary64.div Toy.one v) x_vals))
                       (Binary64.of_Z 1))) as tangent_events.
    intros tangent_events.
    exists (fst setup
            ++ [SidebarHeader "Function Settings";
                TextInput "Enter a function of x:" "sin(x)"]
            ++ fst learn_concepts ++ tangent_events
            ++ [Header "Limit Calculator"; Slider "Choose x-value for limit:"]),
           (more ++ fst real_world).
    f_equal. rewrite <- !app_assoc. reflexivity.
Defined.


(** ** Binary64 rounding

    Addition and subtraction round the exact result to nearest; the lemmas
    below bound the rounded sum and show that a positive difference stays
    positive. *)

Section Rounding.
Import Binary64.
Local Open Scope Z_scope.

Lemma fexp_eq (e : Z) : fexp prec emax e = fexp64 e.
Proof. reflexivity. Qed.

Lemma digits_bounds (p : positive) :
  2 ^ (Zpos (digits2_pos p) - 1) <= Zpos p < 2 ^ Zpos (digits2_pos p).
Proof.
  induction p as [p IH | p IH |]; cbn [digits2_pos].
  - rewrite Pos2Z.inj_succ. replace (Z.succ (Zpos (digits2_pos p)) - 1)
      with (Z.succ (Zpos (digits2_pos p) - 1)) by lia.
    rewrite !Z.pow_succ_r by lia. lia.
  - rewrite Pos2Z.inj_succ. replace (Z.succ (Zpos (digits2_pos p)) - 1)
      with (Z.succ (Zpos (digits2_pos p) - 1)) by lia.
    rewrite !Z.pow_succ_r by lia. lia.
  - cbn. lia.
Qed.

Lemma iter_pos_iter {A} (g : A -> A) (p : positive) (x : A) :
  iter_pos g p x = Pos.iter g x p.
Proof.
  revert x. induction p as [p IH | p IH |]; intros x; cbn [iter_pos Pos.iter].
  - rewrite !IH. rewrite <- !Pos.iter_swap. reflexivity.
  - rewrite !IH. reflexivity.
  - reflexivity.
Qed.

Lemma shr_1_m (r : shr_record) :
  0 <= shr_m r -> shr_m (shr_1 r) = shr_m r / 2 /\ 0 <= shr_m (shr_1 r).
Proof.
  destruct r as [m r s]. cbn [shr_m]. intros Hm.
  assert (H : shr_m (shr_1 {| shr_m := m; shr_r := r; shr_s := s |})
              = Z.div2 m).
  { destruct m as [| [p | p |] | p]; try reflexivity. lia. }
  rewrite H, Z.div2_div. split; [reflexivity |].
  apply Z.div_pos; lia.
Qed.

Lemma shr_iter_m (p : positive) (r : shr_record) :
  0 <= shr_m r ->
  shr_m (iter_pos shr_1 p r) = shr_m r / 2 ^ Zpos p.
Proof.
  intros Hm. rewrite iter_pos_iter.
  assert (H : shr_m (Pos.iter shr_1 r p) = shr_m r / 2 ^ Zpos p
              /\ 0 <= shr_m (Pos.iter shr_1 r p)).
  { induction p using Pos.peano_ind.
    - cbn [Pos.iter]. change (2 ^ 1) with 2. apply shr_1_m, Hm.
    - rewrite Pos.iter_succ. destruct IHp as [IH1 IH2].
      destruct (shr_1_m _ IH2) as [H1 H2]. split; [| exact H2].
      rewrite H1, IH1, Pos2Z.inj_succ, Z.pow_succ_r by lia.
      rewrite Z.div_div by lia. f_equal. lia. }
  apply H.
Qed.

Lemma iter_xO (m d : positive) :
  Zpos (Pos.iter xO m d) = Zpos m * 2 ^ Zpos d
  /\ digits2_pos (Pos.iter xO m d) = (digits2_pos m + d)%positive.
Proof.
  induction d using Pos.peano_ind.
  - cbn [Pos.iter digits2_pos]. split; [lia | lia].
  - rewrite Pos.iter_succ. destruct IHd as [IH1 IH2]. cbn [digits2_pos].
    rewrite Pos2Z.inj_xO, IH1, IH2, Pos2Z.inj_succ, Z.pow_succ_r by lia.
    split; lia.
Qed.

(** No shift is needed: the mantissa is already in canonical position. *)
Lemma round_aux_exact (s : bool) (mz : positive) (ez : Z) :
  fexp64 (Zpos (digits2_pos mz) + ez) <= ez -> ez <= 971 ->
  binary_round_aux prec emax s (Zpos mz) ez loc_Exact = S754_finite s mz ez.
Proof.
  intros Hf He. unfold binary_round_aux, shr_fexp.
  cbn [Zdigits2 shr_record_of_loc]. rewrite fexp_eq.
  assert (Hn : fexp64 (Zpos (digits2_pos mz) + ez) - ez <= 0) by lia.
  destruct (fexp64 (Zpos (digits2_pos mz) + ez) - ez) as [| k | k] eqn:Hk;
    try lia; cbn [shr shr_m loc_of_shr_record round_nearest_even Zdigits2
                  shr_record_of_loc];
    rewrite fexp_eq, Hk; cbn [shr shr_m];
    (replace (ez <=? emax - prec) with true
       by (symmetry; apply Z.leb_le; unfold emax, prec; lia));
    reflexivity.
Qed.

(** The second normalisation step after rounding to nearest. *)
Lemma renormalise (m' : positive) (fe : Z) :
  Zpos m' <= 2 ^ 53 -> emin64 <= fe ->
  exists m'' e'',
    shr_fexp prec emax (Zpos m') fe loc_Exact
      = ({| shr_m := Zpos m''; shr_r := false; shr_s := false |}, e'')
    /\ fe <= e'' <= fe + 1
    /\ pos_val m'' e'' = pos_val m' fe.
Proof.
  intros Hm Hfe. unfold shr_fexp. cbn [Zdigits2 shr_record_of_loc].
  rewrite fexp_eq.
  destruct (Z.eq_dec (Zpos m') (2 ^ 53)) as [Heq | Hne].
  - assert (Hm' : m' = 9007199254740992%positive) by (vm_compute in Heq; lia).
    subst m'. change (Zpos (digits2_pos 9007199254740992)) with 54.
    unfold fexp64. replace (Z.max (54 + fe - 53) emin64 - fe) with 1
      by (unfold emin64 in *; lia).
    cbn [shr iter_pos shr_1 shr_record_of_loc].
    exists 4503599627370496%positive, (fe + 1). split; [reflexivity |].
    split; [lia |]. unfold pos_val.
    replace (fe + 1 - emin64) with (Z.succ (fe - emin64)) by lia.
    rewrite Z.pow_succ_r by (unfold emin64 in *; lia). lia.
  - assert (Hlt : Zpos m' < 2 ^ 53) by lia.
    pose proof (digits_bounds m') as [Hd _].
    assert (Hdg : Zpos (digits2_pos m') <= 53).
    { destruct (Z_le_gt_dec (Zpos (digits2_pos m')) 53) as [H | H]; [exact H |].
      exfalso. assert (2 ^ 53 <= 2 ^ (Zpos (digits2_pos m') - 1))
        by (apply Z.pow_le_mono_r; lia). lia. }
    assert (Hn : fexp64 (Zpos (digits2_pos m') + fe) - fe <= 0)
      by (unfold fexp64, emin64 in *; lia).
    destruct (fexp64 (Zpos (digits2_pos m') + fe) - fe) as [| k | k] eqn:Hk;
      try lia; cbn [shr]; exists m', fe; (split; [reflexivity |]);
      (split; [lia | reflexivity]).
Qed.

Lemma rne_bounds (q : Z) (l : location) :
  q <= round_nearest_even q l <= q + 1.
Proof.
  destruct l as [| []]; cbn [round_nearest_even]; try lia.
  destruct (Z.even q); lia.
Qed.

(** A mantissa too long for its exponent is shifted right and rounded: the
    result is off by less than one unit of the new last place. *)
Lemma round_aux_shift (s : bool) (m : positive) (e : Z) :
  let fe := fexp64 (Zpos (digits2_pos m) + e) in
  emin64 <= e -> e < fe -> fe <= 970 ->
  exists m'' e'',
    binary_round_aux prec emax s (Zpos m) e loc_Exact = S754_finite s m'' e''
    /\ fe <= e'' <= fe + 1
    /\ pos_val m e - 2 ^ (fe - emin64) < pos_val m'' e''
       <= pos_val m e + 2 ^ (fe - emin64).
Proof.
  intros fe He Hlt Hfe.
  pose proof (digits_bounds m) as [Hd1 Hd2].
  set (d := Zpos (digits2_pos m)) in *.
  unfold binary_round_aux. unfold shr_fexp at 1.
  cbn [Zdigits2 shr_record_of_loc]. rewrite fexp_eq. fold d. fold fe.
  destruct (fe - e) as [| p | p] eqn:Hp; try lia. cbn [shr].
  set (mrs := iter_pos shr_1 p
                {| shr_m := Zpos m; shr_r := false; shr_s := false |}).
  assert (Hq : shr_m mrs = Zpos m / 2 ^ Zpos p).
  { unfold mrs. rewrite shr_iter_m by (cbn; lia). reflexivity. }
  assert (HP : 0 < 2 ^ Zpos p) by (apply Z.pow_pos_nonneg; lia).
  assert (Hpd : Zpos p <= d - 1) by (unfold fe, fexp64, emin64 in *; lia).
  assert (Hdp : d <= Zpos p + 53) by (unfold fe, fexp64, emin64 in *; lia).
  assert (Hle : 2 ^ Zpos p <= Zpos m).
  { apply Z.le_trans with (2 ^ (d - 1)); [| exact Hd1].
    apply Z.pow_le_mono_r; lia. }
  assert (Hub : Zpos m < 2 ^ Zpos p * 2 ^ 53).
  { rewrite <- Z.pow_add_r by lia.
    apply Z.lt_le_trans with (2 ^ d); [exact Hd2 |].
    apply Z.pow_le_mono_r; lia. }
  set (q := Zpos m / 2 ^ Zpos p) in *.
  assert (Hq1 : 1 <= q).
  { unfold q. apply Z.div_le_lower_bound; lia. }
  assert (Hq2 : q < 2 ^ 53).
  { unfold q. apply Z.div_lt_upper_bound; lia. }
  assert (Hqm : q * 2 ^ Zpos p <= Zpos m < (q + 1) * 2 ^ Zpos p).
  { unfold q. pose proof (Z.mul_div_le (Zpos m) (2 ^ Zpos p) HP).
    pose proof (Z.mul_succ_div_gt (Zpos m) (2 ^ Zpos p) HP). lia. }
  pose proof (rne_bounds (shr_m mrs) (loc_of_shr_record mrs)) as Hr.
  destruct (round_nearest_even (shr_m mrs) (loc_of_shr_record mrs))
    as [| pm | pm] eqn:Hmr; rewrite Hq in Hr; try lia.
  assert (He' : e + Zpos p = fe) by lia. rewrite He'.
  destruct (renormalise pm fe) as (m'' & e'' & Hs & Hee & Hv);
    [lia | unfold fe, fexp64; lia |].
  rewrite Hs. cbn [shr_m].
  replace (e'' <=? emax - prec) with true
    by (symmetry; apply Z.leb_le; unfold emax, prec; lia).
  exists m'', e''. split; [reflexivity |]. split; [exact Hee |].
  rewrite Hv. unfold pos_val.
  assert (HE : 0 < 2 ^ (e - emin64)) by (apply Z.pow_pos_nonneg; lia).
  replace (fe - emin64) with (Zpos p + (e - emin64)) by lia.
  rewrite Z.pow_add_r by lia.
  set (P := 2 ^ Zpos p) in *. set (Ee := 2 ^ (e - emin64)) in *.
  split; nia.
Qed.

(** Rounding a positive integer mantissa at an exponent not below the
    smallest one, away from overflow: the result is finite, of the same
    sign, within one unit in the last place of the exact value. *)
Lemma binary_round_value (s : bool) (m : positive) (e : Z) :
  let fe := fexp64 (Zpos (digits2_pos m) + e) in
  emin64 <= e -> fe <= 970 ->
  exists m' e',
    binary_round prec emax s m e = S754_finite s m' e'
    /\ emin64 <= e' <= fe + 1
    /\ pos_val m e - 2 ^ (fe - emin64) < pos_val m' e'
       <= pos_val m e + 2 ^ (fe - emin64).
Proof.
  intros fe He Hfe. unfold binary_round, shl_align. rewrite fexp_eq. fold fe.
  assert (Hfm : emin64 <= fe) by (unfold fe, fexp64; lia).
  assert (HF : 0 < 2 ^ (fe - emin64)) by (apply Z.pow_pos_nonneg; lia).
  destruct (fe - e) as [| k | k] eqn:Hk.
  - rewrite round_aux_exact by (fold fe; lia).
    exists m, e. split; [reflexivity |]. split; lia.
  - destruct (round_aux_shift s m e He) as (m'' & e'' & Hr & Hee & Hv);
      fold fe; try lia.
    fold fe in Hee, Hv. exists m'', e''. split; [exact Hr |]. split; lia.
  - destruct (iter_xO m k) as [Hz Hd].
    assert (Hke : Zpos k = e - fe) by lia.
    rewrite round_aux_exact.
    + exists (Pos.iter xO m k), fe. split; [reflexivity |]. split; [lia |].
      assert (Hv : pos_val (Pos.iter xO m k) fe = pos_val m e).
      { unfold pos_val. rewrite Hz.
        replace (e - emin64) with (Zpos k + (fe - emin64)) by lia.
        rewrite Z.pow_add_r by lia. ring. }
      rewrite Hv. lia.
    + rewrite Hd, Pos2Z.inj_add.
      replace (Zpos (digits2_pos m) + Zpos k + fe)
        with (Zpos (digits2_pos m) + e) by lia.
      fold fe. lia.
    + lia.
Qed.

Lemma pos_val_pos (m : positive) (e : Z) : emin64 <= e -> 0 < pos_val m e.
Proof.
  intros He. unfold pos_val.
  assert (0 < 2 ^ (e - emin64)) by (apply Z.pow_pos_nonneg; lia). lia.
Qed.

Lemma shl_align_val (m : positive) (e ez : Z) :
  ez <= e -> emin64 <= ez ->
  Zpos (fst (shl_align m e ez)) * 2 ^ (ez - emin64) = pos_val m e.
Proof.
  intros Hle Hez. unfold shl_align, pos_val.
  destruct (ez - e) as [| k | k] eqn:Hk; cbn [fst].
  - replace ez with e by lia. reflexivity.
  - lia.
  - destruct (iter_xO m k) as [Hz _]. rewrite Hz.
    replace (e - emin64) with (Zpos k + (ez - emin64)) by lia.
    rewrite Z.pow_add_r by lia. ring.
Qed.

Lemma digits_from_val (m : positive) (e K : Z) :
  emin64 <= e -> pos_val m e < 2 ^ (K - emin64) ->
  Zpos (digits2_pos m) + e <= K.
Proof.
  intros He Hv. pose proof (digits_bounds m) as [Hd _].
  assert (Hdpos : 0 < Zpos (digits2_pos m)) by lia.
  assert (H : 2 ^ (Zpos (digits2_pos m) - 1 + (e - emin64)) < 2 ^ (K - emin64)).
  { rewrite Z.pow_add_r by lia. unfold pos_val in Hv.
    assert (0 < 2 ^ (e - emin64)) by (apply Z.pow_pos_nonneg; lia). nia. }
  destruct (Z_le_gt_dec (Zpos (digits2_pos m) + e) K) as [Hle | Hgt];
    [exact Hle | exfalso].
  assert (2 ^ (K - emin64) <= 2 ^ (Zpos (digits2_pos m) - 1 + (e - emin64)))
    by (apply Z.pow_le_mono_r; lia).
  lia.
Qed.

Lemma fexp64_mono (x y : Z) : x <= y -> fexp64 x <= fexp64 y.
Proof. unfold fexp64. lia. Qed.

(** Rounding an integer multiple of [2^ez]. *)
Lemma normalize_value (M ez K : Z) :
  emin64 <= ez -> K <= 1000 ->
  Z.abs M * 2 ^ (ez - emin64) < 2 ^ (K - emin64) ->
  let r := binary_normalize prec emax M ez false in
  exp_ok r
  /\ M * 2 ^ (ez - emin64) - 2 ^ (fexp64 K - emin64) <= sval r
     <= M * 2 ^ (ez - emin64) + 2 ^ (fexp64 K - emin64)
  /\ (0 < M -> exists m' e', r = S754_finite false m' e').
Proof.
  intros Hez HK Hb.
  assert (HF : 0 < 2 ^ (fexp64 K - emin64))
    by (apply Z.pow_pos_nonneg; unfold fexp64, emin64; lia).
  destruct M as [| pm | pm]; cbn [binary_normalize].
  - cbn. split; [exact Logic.I |]. split; [lia | lia].
  - assert (Hd : Zpos (digits2_pos pm) + ez <= K)
      by (apply digits_from_val; [exact Hez | exact Hb]).
    pose proof (fexp64_mono _ _ Hd) as Hfm.
    destruct (binary_round_value false pm ez Hez) as (m' & e' & Hr & He' & Hv);
      [unfold fexp64, emin64 in *; lia |].
    rewrite Hr. cbn [exp_ok sval cond_Zopp]. split; [lia |].
    assert (2 ^ (fexp64 (Zpos (digits2_pos pm) + ez) - emin64)
            <= 2 ^ (fexp64 K - emin64))
      by (apply Z.pow_le_mono_r; unfold fexp64, emin64 in *; lia).
    fold (pos_val pm ez). split; [lia | eauto].
  - assert (Hd : Zpos (digits2_pos pm) + ez <= K)
      by (apply digits_from_val; [exact Hez | exact Hb]).
    pose proof (fexp64_mono _ _ Hd) as Hfm.
    destruct (binary_round_value true pm ez Hez) as (m' & e' & Hr & He' & Hv);
      [unfold fexp64, emin64 in *; lia |].
    rewrite Hr. cbn [exp_ok sval cond_Zopp]. split; [lia |].
    assert (2 ^ (fexp64 (Zpos (digits2_pos pm) + ez) - emin64)
            <= 2 ^ (fexp64 K - emin64))
      by (apply Z.pow_le_mono_r; unfold fexp64, emin64 in *; lia).
    replace (Z.neg pm * 2 ^ (ez - emin64)) with (- pos_val pm ez)
      by (unfold pos_val; rewrite <- Pos2Z.opp_pos; ring).
    split; [lia | lia].
Qed.

Lemma cond_Zopp_mul (s : bool) (x y : Z) :
  cond_Zopp s x * y = cond_Zopp s (x * y).
Proof. destruct s; cbn [cond_Zopp]; ring. Qed.

Lemma aligned_val (s : bool) (m : positive) (e ez : Z) :
  ez <= e -> emin64 <= ez ->
  cond_Zopp s (Zpos (fst (shl_align m e ez))) * 2 ^ (ez - emin64)
  = sval (S754_finite s m e).
Proof.
  intros Hle Hez. rewrite cond_Zopp_mul, shl_align_val by assumption.
  reflexivity.
Qed.

(** The sum of two finite values is their exact sum, rounded. *)
Lemma add_value (a h : float) (K : Z) :
  exp_ok a -> exp_ok h -> K <= 1000 ->
  Z.abs (sval a + sval h) < 2 ^ (K - emin64) ->
  exp_ok (add a h)
  /\ sval a + sval h - 2 ^ (fexp64 K - emin64) <= sval (add a h)
     <= sval a + sval h + 2 ^ (fexp64 K - emin64).
Proof.
  intros Ha Hh HK Hb.
  assert (HF : 0 < 2 ^ (fexp64 K - emin64))
    by (apply Z.pow_pos_nonneg; unfold fexp64, emin64; lia).
  destruct a as [sa | sa | | sa ma ea], h as [sh | sh | | sh mh eh];
    cbn [exp_ok] in Ha, Hh; try contradiction.
  - destruct sa, sh; cbn; (split; [exact Logic.I | lia]).
  - cbn [add SFadd sval] in *. split; [exact Hh | lia].
  - cbn [add SFadd sval] in *. split; [exact Ha | lia].
  - unfold add, SFadd.
    set (ez := Z.min ea eh).
    assert (Hez : emin64 <= ez) by (unfold ez; lia).
    set (M := cond_Zopp sa (Zpos (fst (shl_align ma ea ez)))
              + cond_Zopp sh (Zpos (fst (shl_align mh eh ez)))).
    assert (HM : M * 2 ^ (ez - emin64)
                 = sval (S754_finite sa ma ea) + sval (S754_finite sh mh eh)).
    { unfold M. rewrite Z.mul_add_distr_r.
      rewrite !aligned_val by (unfold ez; lia). reflexivity. }
    destruct (normalize_value M ez K Hez HK) as (H1 & H2 & _).
    { assert (0 < 2 ^ (ez - emin64)) by (apply Z.pow_pos_nonneg; lia).
      rewrite <- (Z.abs_eq (2 ^ (ez - emin64))) by lia.
      rewrite <- Z.abs_mul, HM. exact Hb. }
    rewrite HM in H2. split; [exact H1 | exact H2].
Qed.

(** A difference of two finite values that is positive stays positive when
    rounded. *)
Lemma sub_positive (r a : float) :
  exp_ok r -> exp_ok a -> sval a < sval r ->
  sval r - sval a < 2 ^ (1000 - emin64) ->
  ltb zero (sub r a) = true.
Proof.
  intros Hr Ha Hlt Hb.
  destruct r as [sr | sr | | sr mr er], a as [sa | sa | | sa ma ea];
    cbn [exp_ok] in Hr, Ha; try contradiction.
  - cbn [sval] in Hlt. lia.
  - cbn [sval] in Hlt. pose proof (pos_val_pos ma ea Ha).
    destruct sa; cbn [cond_Zopp] in Hlt; [reflexivity | lia].
  - cbn [sval] in Hlt. pose proof (pos_val_pos mr er Hr).
    destruct sr; cbn [cond_Zopp] in Hlt; [lia | reflexivity].
  - unfold sub, SFsub.
    set (ez := Z.min er ea).
    assert (Hez : emin64 <= ez) by (unfold ez; lia).
    set (D := cond_Zopp sr (Zpos (fst (shl_align mr er ez)))
              - cond_Zopp sa (Zpos (fst (shl_align ma ea ez)))).
    assert (HD : D * 2 ^ (ez - emin64)
                 = sval (S754_finite sr mr er) - sval (S754_finite sa ma ea)).
    { unfold D. rewrite Z.mul_sub_distr_r.
      rewrite !aligned_val by (unfold ez; lia). reflexivity. }
    assert (HE : 0 < 2 ^ (ez - emin64)) by (apply Z.pow_pos_nonneg; lia).
    assert (HDpos : 0 < D) by nia.
    destruct (normalize_value D ez 1000 Hez (Z.le_refl _)) as (_ & _ & H3).
    { rewrite Z.abs_eq by lia. rewrite HD. exact Hb. }
    destruct (H3 HDpos) as (m' & e' & ->). reflexivity.
Qed.

Lemma ulp8_pos : 0 < ulp8.
Proof. reflexivity. Qed.

Lemma pow_below_8 (k : Z) : 0 <= k <= 1024 -> 2 * 2 ^ k <= ulp8.
Proof.
  intros Hk. unfold ulp8. rewrite <- Z.pow_succ_r by apply Hk.
  apply Z.pow_le_mono_r; [reflexivity | ].
  destruct Hk as [_ Hk]. apply Z.le_trans with (Z.succ 1024).
  - apply Zsucc_le_compat. exact Hk.
  - discriminate.
Qed.

Lemma pow_16 : 2 ^ (4 - emin64) = 9007199254740992 * ulp8.
Proof. reflexivity. Qed.

Lemma pow_ulp : 2 ^ (fexp64 4 - emin64) = ulp8.
Proof. reflexivity. Qed.

Lemma pow_huge : 18014398509481984 * ulp8 <= 2 ^ (1000 - emin64).
Proof.
  change (1000 - emin64) with (1049 + 1025).
  rewrite Z.pow_add_r by discriminate. fold ulp8.
  apply Z.mul_le_mono_nonneg_r; [discriminate |].
  change 18014398509481984 with (2 ^ 54).
  apply Z.pow_le_mono_r; [reflexivity | discriminate].
Qed.

Lemma h_vals_steps_ok : forallb step_ok h_vals = true.
Proof. vm_compute. reflexivity. Qed.

Lemma canonical_bounds (m : positive) (e : Z) :
  bounded prec emax m e = true -> emin64 <= e /\ Zpos m < 2 ^ 53.
Proof.
  unfold bounded, canonical_mantissa. rewrite fexp_eq.
  intros H. apply andb_prop in H as [Hc _]. apply Z.eqb_eq in Hc.
  pose proof (digits_bounds m) as [_ Hd].
  assert (Hdg : Zpos (digits2_pos m) <= 53) by (unfold fexp64, emin64 in Hc; lia).
  split; [unfold fexp64 in Hc; lia |].
  apply Z.lt_le_trans with (2 ^ Zpos (digits2_pos m)); [exact Hd |].
  apply Z.pow_le_mono_r; lia.
Qed.

Lemma magnitude_bound (m : positive) (e : Z) :
  emin64 <= e -> Zpos m < 2 ^ 53 ->
  (e < -49 \/ (e = -49 /\ Zpos m <= 5629499534213120)) ->
  pos_val m e <= 5629499534213120 * ulp8.
Proof.
  intros He Hm [Hlt | [-> Hle]]; unfold pos_val.
  - assert (H1 : 2 * 2 ^ (e - emin64) <= ulp8)
      by (apply pow_below_8; unfold emin64 in *; lia).
    assert (H0 : 0 < 2 ^ (e - emin64)) by (apply Z.pow_pos_nonneg; lia).
    change (2 ^ 53) with 9007199254740992 in Hm.
    pose proof ulp8_pos. set (V := 2 ^ (e - emin64)) in *. nia.
  - change (2 ^ (-49 - emin64)) with ulp8. pose proof ulp8_pos. nia.
Qed.

Lemma compare_le (m c : positive) :
  match PosDef.Pos.compare_cont Eq m c with Gt => false | _ => true end = true ->
  Zpos m <= Zpos c.
Proof.
  intros H. apply Pos2Z.pos_le_pos. intros Hc.
  change (PosDef.Pos.compare_cont Eq m c) with (Pos.compare m c) in H.
  rewrite Hc in H. discriminate.
Qed.

Lemma compare_opp_le (m c : positive) :
  match CompOpp (PosDef.Pos.compare_cont Eq c m) with
  | Gt => false
  | _ => true
  end = true ->
  Zpos m <= Zpos c.
Proof.
  intros H. apply Pos2Z.pos_le_pos. intros Hc.
  change (PosDef.Pos.compare_cont Eq c m) with (Pos.compare c m) in H.
  rewrite (Pos.compare_antisym m c), Hc in H. discriminate.
Qed.

Lemma ten_repr : of_Z 10 = S754_finite false 5629499534213120 (-49).
Proof. vm_compute. reflexivity. Qed.

Lemma minus_ten_repr : of_Z (-10) = S754_finite true 5629499534213120 (-49).
Proof. vm_compute. reflexivity. Qed.

Lemma le_ten (m : positive) (e : Z) :
  leb (S754_finite false m e) (of_Z 10) = true ->
  e < -49 \/ (e = -49 /\ Zpos m <= 5629499534213120).
Proof.
  rewrite ten_repr. unfold leb, SFleb, SFcompare. intros Hhi.
  destruct (Z.compare_spec e (-49)) as [Heq | Hlt | Hgt].
  - right. split; [exact Heq | apply compare_le, Hhi].
  - left. exact Hlt.
  - discriminate.
Qed.

Lemma ge_minus_ten (m : positive) (e : Z) :
  leb (of_Z (-10)) (S754_finite true m e) = true ->
  e < -49 \/ (e = -49 /\ Zpos m <= 5629499534213120).
Proof.
  rewrite minus_ten_repr. unfold leb, SFleb, SFcompare. intros Hlo.
  destruct (Z.compare_spec (-49) e) as [Heq | Hlt | Hgt].
  - right. split; [symmetry; exact Heq | apply compare_opp_le, Hlo].
  - discriminate.
  - left. exact Hgt.
Qed.

Lemma range_bound (a : float) :
  in_slider_range a = true ->
  exp_ok a /\ Z.abs (sval a) <= 5629499534213120 * ulp8.
Proof.
  unfold in_slider_range. intros H.
  apply andb_prop in H as [H Hhi]. apply andb_prop in H as [Hv Hlo].
  pose proof ulp8_pos as Hulp.
  destruct a as [s | s | | s m e].
  - split; [exact Logic.I | cbn [sval Z.abs]; lia].
  - destruct s; cbn in Hlo, Hhi; discriminate.
  - cbn in Hhi. discriminate.
  - cbn [valid_binary] in Hv. destruct (canonical_bounds m e Hv) as [He Hm].
    split; [exact He |].
    pose proof (pos_val_pos m e He) as Hp.
    assert (Hb : pos_val m e <= 5629499534213120 * ulp8).
    { apply magnitude_bound; try assumption.
      destruct s; [apply ge_minus_ten, Hlo | apply le_ten, Hhi]. }
    cbn [sval]. destruct s; cbn [cond_Zopp]; lia.
Qed.

Lemma step_bound (h : float) :
  step_ok h = true ->
  exp_ok h /\ 4398046511104 * ulp8 <= sval h <= 562949953421312 * ulp8.
Proof.
  destruct h as [s | s | | [|] m e]; cbn [step_ok]; try discriminate.
  intros H. apply andb_prop in H as [H H3]. apply andb_prop in H as [H1 H2].
  apply Z.leb_le in H1, H2, H3. cbn [exp_ok sval cond_Zopp]. lia.
Qed.

(** For every binary64 [a] between -10 and 10 and every step [h] of the
    animation, [(a + h) - a] computed in binary64 is strictly positive. *)
Lemma denominator_positive (a h : float) :
  in_slider_range a = true -> In h h_vals ->
  ltb zero (sub (add a h) a) = true.
Proof.
  intros Ha Hin.
  destruct (range_bound a Ha) as [Hea Hba].
  pose proof h_vals_steps_ok as Hs. rewrite forallb_forall in Hs.
  destruct (step_bound h (Hs h Hin)) as [Heh Hbh].
  pose proof ulp8_pos as Hulp.
  destruct (add_value a h 4 Hea Heh) as [Her Hbr];
    [discriminate | rewrite pow_16; lia |].
  rewrite pow_ulp in Hbr.
  apply sub_positive; try assumption; [lia |].
  apply Z.lt_le_trans with (18014398509481984 * ulp8); [lia | apply pow_huge].
Qed.

End Rounding.

(** ** The steps of the animation and the slider *)

Lemma h_vals_positive :
  forallb (fun h => Binary64.ltb Binary64.zero h) h_vals = true.
Proof. vm_compute. reflexivity. Qed.

Lemma slider_positions_in_range :
  forallb in_slider_range slider_positions = true.
Proof. vm_compute. reflexivity. Qed.

(** ** The sections, one by one *)

Lemma limit_section_done (E : Engine) (p : Parsed) (pt : Binary64.float) :
  snd (limit_calculator E p pt) = Done tt.
Proof.
  unfold limit_calculator. rewrite !bind_emit. cbn [snd].
  destruct (limit_events E (expr p) pt) as [e | evs]; [reflexivity |].
  rewrite for_each_emit. reflexivity.
Qed.

Lemma limit_events_raise (E : Engine) (e0 : Expr) (pt : Binary64.float)
    (e : Exc) :
  limit E e0 x_sym pt FromLeft = Raise e
  \/ (exists l, limit E e0 x_sym pt FromLeft = Ok l
                /\ limit E e0 x_sym pt FromRight = Raise e) ->
  limit_events E e0 pt = Raise e.
Proof.
  unfold limit_events. intros [-> | (l & -> & ->)]; reflexivity.
Qed.

Lemma tangent_section_in_order (E : Engine) (p : Parsed) (y : NVal)
    (a : Binary64.float) :
  in_order ["Tangent Line Visualizer"] (tangent_visualizer E p y a).
Proof. apply in_order_section. silence. Qed.

(** The three ways the limit calculator can render. *)
Lemma limit_calculator_cases (E : Engine) (p : Parsed) (pt : Binary64.float) :
  exists evs,
    limit_calculator E p pt =
      (Header "Limit Calculator" :: Slider "Choose x-value for limit:" :: evs,
       Done tt)
    /\ ((exists e, evs = [ErrorBox (LimitErrorMsg e)])
        \/ (exists l r, evs = [Latex (LeftLimitMsg pt l);
                               Latex (RightLimitMsg pt r);
                               SuccessBox (LimitExistsMsg l)])
        \/ (exists l r, evs = [Latex (LeftLimitMsg pt l);
                               Latex (RightLimitMsg pt r);
                               ErrorBox LimitDNEMsg])).
Proof.
  unfold limit_calculator, limit_events. rewrite !bind_emit.
  destruct (limit E (expr p) x_sym pt FromLeft) as [e | l];
    [eexists; split; [reflexivity | left; eexists; reflexivity] |].
  destruct (limit E (expr p) x_sym pt FromRight) as [e | r];
    [eexists; split; [reflexivity | left; eexists; reflexivity] |].
  cbn [rbind]. rewrite for_each_emit. cbn [fst snd].
  eexists; split; [reflexivity |].
  destruct (Expr_eqb l r); right; [left | right]; eexists _, _; reflexivity.
Qed.

Lemma limit_section_at_most {X} (view : UIEvent -> list X) (E : Engine)
    (p : Parsed) (pt : Binary64.float) :
  (forall s, view (Header s) = []) -> (forall s, view (Slider s) = []) ->
  (forall m, view (Latex m) = []) ->
  (forall m, view (SuccessBox m) = []) ->
  (forall e, view (ErrorBox (LimitErrorMsg e)) = []) ->
  view (ErrorBox LimitDNEMsg) = [] ->
  at_most view 0 (limit_calculator E p pt).
Proof.
  intros Hh Hs Hl Hb He Hd.
  destruct (limit_calculator_cases E p pt) as (evs & -> & Hevs).
  unfold at_most. cbn [fst flat_map]. rewrite Hh, Hs. cbn [app].
  destruct Hevs as [[e ->] | [(l & r & ->) | (l & r & ->)]];
    cbn [flat_map]; rewrite ?Hl, ?Hb, ?He, ?Hd; apply Nat.le_refl.
Qed.

Lemma limit_section_in_order (E : Engine) (p : Parsed) (pt : Binary64.float) :
  in_order ["Limit Calculator"] (limit_calculator E p pt).
Proof.
  destruct (limit_calculator_cases E p pt) as (evs & -> & Hevs).
  exists []. split; [| intros; reflexivity].
  destruct Hevs as [[e ->] | [(l & r & ->) | (l & r & ->)]]; reflexivity.
Qed.

Lemma animation_in_order (E : Engine) (p : Parsed) (y : NVal)
    (a : Binary64.float) (pressed : bool) :
  in_order ["Animation: Secant Line to Tangent"] (animation E p y a pressed).
Proof. apply in_order_section. unfold secant_frame. silence. Qed.

Lemma problem_set_in_order (show : nat -> bool) :
  in_order ["Problem Set"] (problem_set show).
Proof. apply in_order_section. unfold problem. silence. Qed.

Lemma after_parse_never_stops (E : Engine) (I : Inputs) (p : Parsed) :
  never_stops (after_parse E I p).
Proof.
  unfold after_parse, eval_grid, learn_concepts, tangent_visualizer,
    limit_calculator, after_limit, animation, secant_frame, problem_set,
    problem, real_world.
  keep_going.
Qed.

Lemma after_parse_no_parse_error (E : Engine) (I : Inputs) (p : Parsed) :
  at_most parse_error_of 0 (after_parse E I p).
Proof.
  unfold after_parse, after_limit.
  repeat first [ apply limit_section_at_most; reflexivity
               | apply (at_most_bind _ 0 0); [| intros ] ];
    unfold secant_frame; silence.
Qed.

Lemma naps_silent {A} (s : Script A) : at_most sleep_of 0 s -> naps 0 s.
Proof.
  intros Hs. exists 0%nat. split; [apply Nat.le_refl |].
  apply (at_most_none sleep_of s Hs).
Qed.

Lemma naps_bind {A B} (n1 n2 : nat) (m : Script A) (k : A -> Script B) :
  naps n1 m -> (forall a, naps n2 (k a)) -> naps (n1 + n2) (bind m k).
Proof.
  intros (k1 & L1 & H1) Hk. unfold naps.
  rewrite fst_bind, sleeps_app, H1.
  destruct (snd m) as [a | | e].
  - destruct (Hk a) as (k2 & L2 & H2). exists (k1 + k2)%nat.
    rewrite H2, repeat_app. split; [apply Nat.add_le_mono; assumption |].
    reflexivity.
  - exists k1. rewrite app_nil_r. split; [| reflexivity].
    apply (Nat.le_trans _ n1); [exact L1 | apply Nat.le_add_r].
  - exists k1. rewrite app_nil_r. split; [| reflexivity].
    apply (Nat.le_trans _ n1); [exact L1 | apply Nat.le_add_r].
Qed.

Lemma naps_frame (E : Engine) (p : Parsed) (y : NVal) (a h : Binary64.float) :
  naps 1 (secant_frame E p y a h).
Proof.
  destruct (secant_frame_cases E p y a h) as [[e ->] | (fig & -> & _)].
  - exists 0%nat. split; [apply Nat.le_0_l | reflexivity].
  - exists 1%nat. split; [apply Nat.le_refl | reflexivity].
Qed.

Lemma naps_loop (E : Engine) (p : Parsed) (y : NVal) (a : Binary64.float)
    (hs : list Binary64.float) :
  naps (List.length hs) (for_each hs (secant_frame E p y a)).
Proof.
  induction hs as [| h hs IH].
  - exists 0%nat. split; [apply Nat.le_refl | reflexivity].
  - cbn [for_each]. apply (naps_bind 1 (List.length hs));
      [apply naps_frame | intros _; exact IH].
Qed.

Lemma naps_animation (E : Engine) (p : Parsed) (y : NVal)
    (a : Binary64.float) (pressed : bool) :
  naps (if pressed then 20 else 0) (animation E p y a pressed).
Proof.
  destruct pressed.
  - destruct h_vals_facts as (Hlen & _).
    destruct (naps_loop E p y a h_vals) as (k & Lk & Hk).
    rewrite Hlen in Lk. exists k. split; [exact Lk |].
    rewrite animation_pressed. cbn [fst]. rewrite sleeps_app. exact Hk.
  - exists 0%nat. split; [apply Nat.le_refl | reflexivity].
Qed.

Lemma naps_limit (E : Engine) (p : Parsed) (pt : Binary64.float) :
  naps 0 (limit_calculator E p pt).
Proof. apply naps_silent, limit_section_at_most; reflexivity. Qed.

(** * Symbols, samples, slopes and steps *)

(** ** C8: symbols other than [x] *)

Lemma obj_broadcast_object (u v w : NVal) :
  obj_broadcast u v = Ok w -> is_object w = true.
Proof.
  unfold obj_broadcast.
  destruct (length_of u) as [n |], (length_of v) as [m |];
    try (intros H; apply Ok_inj in H; subst w; reflexivity).
  destruct (Nat.eqb n m);
    [intros H; apply Ok_inj in H; subst w; reflexivity |].
  destruct (Nat.eqb n 1);
    [intros H; apply Ok_inj in H; subst w; reflexivity |].
  destruct (Nat.eqb m 1);
    [intros H; apply Ok_inj in H; subst w; reflexivity | discriminate].
Qed.

(** An operator with a symbolic operand returns a symbolic value. *)
Lemma binop_object (N : Namespace) (o : BinOp) (u v w : NVal) :
  is_object u = true \/ is_object v = true ->
  binop N o u v = Ok w -> is_object w = true.
Proof.
  intros H Hw.
  destruct u, v; cbn [is_object] in H;
    try (destruct H; discriminate);
    cbn [binop] in Hw; exact (obj_broadcast_object _ _ _ Hw).
Qed.

(** The generated function of an expression with a symbol other than its
    argument returns a symbolic value, whatever it is called on. *)
Lemma eval_object (N : Namespace) (arg s : string) (e : Expr) (x v : NVal) :
  In s (free_symbols e) -> s <> arg ->
  eval N arg e x = Ok v -> is_object v = true.
Proof.
  intros Hin Hs. revert v.
  induction e as [n | c | t | c | a IHa b IHb | a IHa b IHb | a IHa b IHb
                 | name a IHa]; intros v Hv; cbn [free_symbols] in Hin;
    cbn [eval] in Hv; try contradiction.
  - destruct Hin as [-> | []].
    apply String.eqb_neq in Hs. rewrite Hs in Hv.
    apply Ok_inj in Hv. subst v. reflexivity.
  - apply rbind_ok in Hv as (u & Hu & Hv).
    apply rbind_ok in Hv as (w & Hw & Hv).
    apply (binop_object N OAdd u w v); [| exact Hv].
    apply in_app_or in Hin as [Hin | Hin]; [left | right]; eauto.
  - apply rbind_ok in Hv as (u & Hu & Hv).
    apply rbind_ok in Hv as (w & Hw & Hv).
    apply (binop_object N OMul u w v); [| exact Hv].
    apply in_app_or in Hin as [Hin | Hin]; [left | right]; eauto.
  - apply rbind_ok in Hv as (u & Hu & Hv).
    apply rbind_ok in Hv as (w & Hw & Hv).
    apply (binop_object N OPow u w v); [| exact Hv].
    apply in_app_or in Hin as [Hin | Hin]; [left | right]; eauto.
  - destruct (np_func N name) as [g |]; [| discriminate].
    apply rbind_ok in Hv as (u & Hu & Hv).
    pose proof (IHa Hin u Hu) as Ho.
    destruct u; cbn [is_object] in Ho; try discriminate;
      apply rbind_ok in Hv as (ok & _ & Hv); apply Ok_inj in Hv; subst v;
      reflexivity.
Qed.

(** Symbolic samples cannot be plotted. *)
Lemma ax_plot_object (xs ys : NVal) (l : Label) :
  is_object ys = true -> exists e, ax_plot xs ys l = Raise e.
Proof.
  intros Ho. unfold ax_plot. rewrite Ho, orb_true_r.
  destruct (negb (Nat.eqb (shape xs) (shape ys))); eexists; reflexivity.
Qed.

(** C8 (amended). For every input the [try] block accepts whose expression
    has a symbol other than [x], no parse error is reported and the rerun
    fails downstream, by an exception nobody catches, before any figure is
    rendered: at the evaluation of the generated function over the grid if
    that raises, with nothing rendered after the function input; and
    otherwise, the samples then being symbolic values and not numbers, in
    the tangent section, at the latest when the samples are plotted. *)
Theorem foreign_symbol_fails_downstream (E : Engine) (I : Inputs)
    (p : Parsed) (s : string) :
  parse_stage E (func_input I) = Ok p ->
  In s (free_symbols (expr p)) -> s <> x_sym ->
  parse_errors (fst (run_script E I)) = []
  /\ (exists e, snd (run_script E I) = Aborted e)
  /\ figures (fst (run_script E I)) = []
  /\ (forall e, f E p (NpArr x_vals) = Raise e ->
        run_script E I = (input_events, Aborted e))
  /\ (forall y, f E p (NpArr x_vals) = Ok y ->
        is_object y = true
        /\ exists e,
             run_script E I =
               (input_events ++ fst learn_concepts
                ++ [Header "Tangent Line Visualizer";
                    Slider "Choose x-value for tangent:"], Aborted e)).
Proof.
  intros Hp Hin Hs.
  assert (Hno : parse_errors (fst (run_script E I)) = []).
  { unfold run_script, main.
    rewrite (bind_done setup _ (fst setup) tt eq_refl).
    rewrite (bind_done _ _ _ _ (function_input_ok E _ p Hp)). cbn [fst].
    unfold parse_errors. rewrite !flat_map_app.
    rewrite (at_most_none _ _ (after_parse_no_parse_error E I p)).
    reflexivity. }
  split; [exact Hno |]. clear Hno.
  unfold run_script, main.
  rewrite (bind_done setup _ (fst setup) tt eq_refl).
  rewrite (bind_done _ _ _ _ (function_input_ok E _ p Hp)).
  unfold after_parse, eval_grid.
  destruct (f E p (NpArr x_vals)) as [e | y] eqn:Hy.
  - rewrite (bind_lift_raise _ e _ eq_refl). cbn [fst snd].
    split; [eauto |]. split; [reflexivity |].
    split; [| discriminate].
    intros e' He'. injection He' as <-. reflexivity.
  - rewrite (bind_lift_ok _ _ _ eq_refl).
    rewrite (bind_done learn_concepts _ (fst learn_concepts) tt eq_refl).
    pose proof (eval_object (numeric E) x_sym s (expr p) _ y Hin Hs Hy) as Ho.
    destruct (ax_plot_object (NpArr x_vals) y LCurve Ho) as [e2 Hplot].
    unfold tangent_visualizer.
    destruct (tangent_line E p (PyNum (tangent_x I))) as [e | tl].
    + rewrite !bind_emit. cbn [fst snd lift bind].
      split; [eauto |]. split; [reflexivity |].
      split; [discriminate |].
      intros y' Hy'. apply Ok_inj in Hy'. subst y'.
      split; [exact Ho | eexists; reflexivity].
    + rewrite !bind_emit. cbn [fst snd lift bind]. rewrite Hplot.
      cbn [fst snd lift bind].
      split; [eauto |]. split; [reflexivity |].
      split; [discriminate |].
      intros y' Hy'. apply Ok_inj in Hy'. subst y'.
      split; [exact Ho | eexists; reflexivity].
Qed.

Lemma foreign_symbol_fails_downstream_witness :
  let I := Toy.inputs "x*sqrt(y)" (Binary64.of_Z 1) (Binary64.of_Z 1) false in
  parse_errors (fst (run_script Toy.engine I)) = []
  /\ run_script Toy.engine I =
       (input_events,
        Aborted (Exception "TypeError"
                   ("loop of ufunc does not support argument 0 of type Symbol "
                    ++ "which has no callable sqrt method")%string)).
Proof.
  intros I.
  destruct (foreign_symbol_fails_downstream Toy.engine I scaled "y")
    as (H1 & _ & _ & H4 & _).
  - reflexivity.
  - right. left. reflexivity.
  - discriminate.
  - split; [exact H1 |]. apply H4. reflexivity.
Defined.

(** C8 as stated fails for ["x + y"]: the symbol [y] is bound, in the
    namespace of the generated function, to the symbol itself, so the sum
    with the grid is computed, as an array of 400 symbolic values, and
    nothing fails at the evaluation over the grid; the rerun goes on
    through the explanations into the tangent section and is aborted
    there, when the symbolic samples are plotted. *)
Lemma symbolic_samples_counterexample :
  let I := Toy.inputs "x + y" (Binary64.of_Z 1) (Binary64.of_Z 1) false in
  parse_stage Toy.engine (func_input I) = Ok shifted
  /\ In "y" (free_symbols (expr shifted))
  /\ f Toy.engine shifted (NpArr x_vals) = Ok (ObjArr 400)
  /\ run_script Toy.engine I =
       (input_events
        ++ fst learn_concepts
        ++ [Header "Tangent Line Visualizer";
            Slider "Choose x-value for tangent:"],
        Aborted (Exception "TypeError" "Cannot convert expression to float")).
Proof.
  cbn zeta. split; [reflexivity |]. split; [right; left; reflexivity |].
  split; vm_compute; reflexivity.
Qed.

(** ** C4: one sample per grid entry *)

Lemma evenly_spaced_within_spec (eps : Q) (l : list Binary64.float)
    (start stop : Q) (i : nat) (x : Binary64.float) :
  evenly_spaced_within eps l start stop = true ->
  nth_error l i = Some x ->
  Binary64.is_finite x = true
  /\ (to_Q x - even_point start stop (List.length l) i <= eps)%Q
  /\ (even_point start stop (List.length l) i - to_Q x <= eps)%Q.
Proof.
  unfold evenly_spaced_within. intros Hall Hx.
  rewrite forallb_forall in Hall.
  assert (Hi : (i < List.length l)%nat)
    by (apply nth_error_Some; rewrite Hx; discriminate).
  specialize (Hall i). rewrite Hx in Hall.
  assert (Hn : near eps x (even_point start stop (List.length l) i) = true).
  { apply Hall. apply in_seq. split; [apply Nat.le_0_l | exact Hi]. }
  unfold near in Hn. apply andb_prop in Hn as [Hn H2].
  apply andb_prop in Hn as [H0 H1].
  split; [exact H0 |]. split; apply Qle_bool_iff; assumption.
Qed.

(** The grid is evenly spaced up to rounding: every entry is within
    [2^-48] of the point of its index among 400 points evenly spaced from
    -10 to 10. *)
Lemma x_vals_evenly_spaced :
  evenly_spaced_within (1 # 281474976710656) x_vals (-10) 10 = true.
Proof. vm_compute. reflexivity. Qed.

(** C4 (amended). The sample grid is a fixed sequence of 400 strictly
    increasing binary64 values from -10 to 10, evenly spaced up to
    rounding: its entry of index [i] is within [2^-48] of
    [-10 + i * 20/399].  For every successfully parsed expression in which
    [x] occurs and no other symbol does, if calling the generated function
    on the grid raises nothing then [y_vals] is an array with exactly one
    number per grid entry, 400 in all. *)
Theorem samples_match_grid (E : Engine) (I : Inputs) (p : Parsed)
    (y_vals : NVal) :
  parse_stage E (func_input I) = Ok p ->
  (forall s, In s (free_symbols (expr p)) -> s = x_sym) ->
  In x_sym (free_symbols (expr p)) ->
  f E p (NpArr x_vals) = Ok y_vals ->
  (exists l, y_vals = NpArr l /\ List.length l = List.length x_vals)
  /\ List.length x_vals = 400%nat
  /\ hd Binary64.nan x_vals = Binary64.of_Z (-10)
  /\ last x_vals Binary64.nan = Binary64.of_Z 10
  /\ strictly_ascending x_vals = true
  /\ (forall (i : nat) (x : Binary64.float),
        nth_error x_vals i = Some x ->
        Binary64.is_finite x = true
        /\ (to_Q x - even_point (-10) 10 400 i <= 1 # 281474976710656)%Q
        /\ (even_point (-10) 10 400 i - to_Q x <= 1 # 281474976710656)%Q).
Proof.
  intros _ Hfree Hx Hy.
  destruct x_vals_facts as (Hlen & Hhd & Hlast & Hasc).
  split; [| split; [exact Hlen | split; [exact Hhd | split; [exact Hlast |
            split; [exact Hasc |]]]]].
  - pose proof (eval_shaped (numeric E) x_sym x_vals (expr p) Hfree y_vals Hy)
      as Hs.
    assert (Hm : mentions x_sym (expr p) = true).
    { unfold mentions. apply existsb_exists. exists x_sym.
      split; [exact Hx | apply String.eqb_refl]. }
    rewrite Hm in Hs. exact Hs.
  - intros i x Hi.
    pose proof (evenly_spaced_within_spec _ _ _ _ i x x_vals_evenly_spaced Hi)
      as H.
    rewrite Hlen in H. exact H.
Qed.

Lemma samples_match_grid_witness :
  (exists l, square_samples = NpArr l /\ List.length l = List.length x_vals)
  /\ List.length x_vals = 400%nat
  /\ hd Binary64.nan x_vals = Binary64.of_Z (-10)
  /\ last x_vals Binary64.nan = Binary64.of_Z 10
  /\ strictly_ascending x_vals = true.
Proof.
  destruct (samples_match_grid Toy.engine
              (Toy.inputs "x**2" (Binary64.of_Z 1) (Binary64.of_Z 1) false)
              square square_samples)
    as (H1 & H2 & H3 & H4 & H5 & _).
  - reflexivity.
  - intros s Hs. cbn in Hs. destruct Hs as [<- | []]. reflexivity.
  - left; reflexivity.
  - vm_compute. reflexivity.
  - repeat split; assumption.
Defined.

(** C4 as stated fails in three ways.  For ["x + y"], which parses, calling
    the generated function on the grid yields symbolic values, not one
    number per grid entry.  For the constant ["5"] the call yields the
    single number 5.  And the grid itself is not evenly spaced in binary64:
    the exact gaps between consecutive entries are not all equal, the
    second differs from the first, as do 244 of the 399. *)
Lemma samples_not_numeric_counterexample :
  (parse_stage Toy.engine "x + y" = Ok shifted
   /\ f Toy.engine shifted (NpArr x_vals) = Ok (ObjArr 400)
   /\ forall l, ObjArr 400 <> NpArr l)
  /\ (parse_stage Toy.engine "5" = Ok {| expr := Int 5; f_prime_expr := Int 0 |}
      /\ f Toy.engine {| expr := Int 5; f_prime_expr := Int 0 |} (NpArr x_vals)
         = Ok (PyNum (Binary64.of_Z 5))
      /\ forall l, PyNum (Binary64.of_Z 5) <> NpArr l)
  /\ (List.length (gaps x_vals) = 399%nat
      /\ Qeq_bool (nth 1 (gaps x_vals) 0%Q) (nth 0 (gaps x_vals) 0%Q) = false
      /\ List.length
           (filter (fun g => negb (Qeq_bool g (nth 0 (gaps x_vals) 0%Q)))
              (gaps x_vals)) = 244%nat).
Proof.
  split; [| split].
  - split; [reflexivity |]. split; [vm_compute; reflexivity | discriminate].
  - split; [reflexivity |]. split; [reflexivity | discriminate].
  - repeat split; vm_compute; reflexivity.
Qed.

(** ** C7: the secant slopes *)

Lemma h_exact_facts :
  List.length h_exact = 20%nat
  /\ forallb Qpositive h_exact = true
  /\ forallb (fun k => Qle_bool k 1) h_exact = true
  /\ Qstrictly_descending h_exact = true.
Proof. repeat split; vm_compute; reflexivity. Qed.

Lemma Q2R_zero : Q2R 0 = 0%R.
Proof. unfold Q2R. simpl. Lra.lra. Qed.

Lemma Q2R_one : Q2R 1 = 1%R.
Proof. unfold Q2R. simpl. Lra.lra. Qed.

Lemma Q2R_positive (k : Q) : Qpositive k = true -> (0 < Q2R k)%R.
Proof.
  intros H. rewrite <- Q2R_zero. apply Qlt_Rlt, Qpositive_spec, H.
Qed.

Lemma Q2R_below_one (k : Q) : Qle_bool k 1 = true -> (Q2R k <= 1)%R.
Proof.
  intros H. rewrite <- Q2R_one. apply Qle_Rle, Qle_bool_iff, H.
Qed.

(** The three-chord inequality: where [g] is convex, a shorter chord from
    [a] is less steep. *)
Lemma chord_slopes (g : R -> R) (a h1 h2 : R) :
  convex_on a (a + 1) g ->
  (0 < h1)%R -> (h1 <= h2)%R -> (h2 <= 1)%R ->
  (secant_slope a (a + h1) (g a) (g (a + h1))
   <= secant_slope a (a + h2) (g a) (g (a + h2)))%R.
Proof.
  intros Hc H1 H12 H2. unfold secant_slope. cbn [rsub rdiv Arith_R].
  assert (Hh2 : (0 < h2)%R) by Lra.lra.
  assert (Ht : (0 <= h1 / h2 <= 1)%R).
  { split.
    - apply Rmult_le_pos; [Lra.lra |].
      apply Rlt_le, Rinv_0_lt_compat, Hh2.
    - apply (Rmult_le_reg_r h2); [exact Hh2 |].
      replace (h1 / h2 * h2)%R with h1 by (field; Lra.lra). Lra.lra. }
  pose proof (Hc (a + h2)%R a (h1 / h2)%R) as Hchord.
  replace (h1 / h2 * (a + h2) + (1 - h1 / h2) * a)%R with (a + h1)%R
    in Hchord by (field; Lra.lra).
  assert (Hle : (g (a + h1) <= h1 / h2 * g (a + h2) + (1 - h1 / h2) * g a)%R)
    by (apply Hchord; [Lra.lra | Lra.lra | exact Ht]).
  replace (a + h1 - a)%R with h1 by ring.
  replace (a + h2 - a)%R with h2 by ring.
  apply (Rmult_le_reg_r h1); [exact H1 |].
  replace ((g (a + h1) - g a) / h1 * h1)%R with (g (a + h1) - g a)%R
    by (field; Lra.lra).
  replace ((g (a + h2) - g a) / h2 * h1)%R
    with (h1 / h2 * g (a + h2) - h1 / h2 * g a)%R by (field; Lra.lra).
  Lra.lra.
Qed.

(** Where [g] is convex and has the derivative [m] at [a], every secant
    slope from [a] is at least [m]. *)
Lemma slope_above_derivative (g : R -> R) (a m h : R) :
  convex_on a (a + 1) g -> derivable_pt_lim g a m ->
  (0 < h)%R -> (h <= 1)%R ->
  (m <= secant_slope a (a + h) (g a) (g (a + h)))%R.
Proof.
  intros Hc Hd H0 H1.
  destruct (Rle_lt_dec m (secant_slope a (a + h)%R (g a) (g (a + h)%R)))
    as [Hle | Hlt]; [exact Hle | exfalso].
  set (s := secant_slope a (a + h)%R (g a) (g (a + h)%R)) in *.
  assert (Heps : (0 < m - s)%R) by Lra.lra.
  destruct (Hd (m - s)%R Heps) as [delta Hdelta].
  pose proof (cond_pos delta) as Hpos.
  set (k := Rmin h (delta / 2)).
  assert (Hk0 : (0 < k)%R).
  { unfold k. apply Rmin_glb_lt; Lra.lra. }
  assert (Hkh : (k <= h)%R) by apply Rmin_l.
  assert (Hkd : (k <= delta / 2)%R) by apply Rmin_r.
  assert (Hchord : (secant_slope a (a + k) (g a) (g (a + k)) <= s)%R).
  { apply chord_slopes; try assumption. }
  unfold secant_slope in Hchord. cbn [rsub rdiv Arith_R] in Hchord.
  replace (a + k - a)%R with k in Hchord by ring.
  assert (Habs : (Rabs ((g (a + k) - g a) / k - m) < m - s)%R).
  { apply Hdelta; [Lra.lra |]. rewrite Rabs_pos_eq; Lra.lra. }
  apply Rabs_def2 in Habs. Lra.lra.
Qed.

Lemma slopes_nonincreasing (g : R -> R) (a : R) (hs : list Q) :
  convex_on a (a + 1) g ->
  forallb Qpositive hs = true ->
  forallb (fun k => Qle_bool k 1) hs = true ->
  Qstrictly_descending hs = true ->
  nonincreasing (secant_slopes g a (map Q2R hs)).
Proof.
  intros Hc. induction hs as [| h1 [| h2 hs] IH]; intros Hpos Hone Hdesc;
    [exact Logic.I | exact Logic.I |].
  cbn [forallb] in Hpos, Hone.
  apply andb_prop in Hpos as [Hp1 Hpos]. apply andb_prop in Hone as [Ho1 Hone].
  cbn [Qstrictly_descending] in Hdesc. apply andb_prop in Hdesc as [Hd Hdesc].
  split.
  - apply chord_slopes; [exact Hc | | |].
    + apply andb_prop in Hpos as [Hp2 _]. apply Q2R_positive, Hp2.
    + apply Qle_Rle, Qlt_le_weak, Qnot_le_lt. intros Hle.
      apply Qle_bool_iff in Hle. rewrite Hle in Hd. discriminate.
    + apply Q2R_below_one, Ho1.
  - apply IH; [exact Hpos | exact Hone | exact Hdesc].
Qed.

Lemma slopes_above_derivative (g : R -> R) (a m : R) (hs : list Q) :
  convex_on a (a + 1) g -> derivable_pt_lim g a m ->
  forallb Qpositive hs = true ->
  forallb (fun k => Qle_bool k 1) hs = true ->
  Forall (fun s => (m <= s)%R) (secant_slopes g a (map Q2R hs)).
Proof.
  intros Hc Hd Hpos Hone. unfold secant_slopes. rewrite map_map.
  apply Forall_map, Forall_forall. intros k Hin.
  rewrite forallb_forall in Hpos, Hone.
  apply slope_above_derivative; try assumption.
  - apply Q2R_positive, Hpos, Hin.
  - apply Q2R_below_one, Hone, Hin.
Qed.

(** The secant slopes of [- g] are the opposites of those of [g]. *)
Lemma secant_slopes_opp (g : R -> R) (a : R) (hs : list R) :
  secant_slopes (fun x => - g x)%R a hs = map Ropp (secant_slopes g a hs).
Proof.
  unfold secant_slopes. rewrite map_map. apply map_ext. intros h.
  unfold secant_slope. cbn [rsub rdiv radd Arith_R]. unfold Rdiv. ring.
Qed.

Lemma nonincreasing_opp (l : list R) :
  nonincreasing (map Ropp l) -> nondecreasing l.
Proof.
  induction l as [| s [| t l] IH]; [intros; exact Logic.I .. |].
  cbn [map nonincreasing nondecreasing]. intros [H1 H2].
  split; [Lra.lra | apply IH; exact H2].
Qed.

Lemma derivable_opp (g : R -> R) (a m : R) :
  derivable_pt_lim g a m -> derivable_pt_lim (fun x => - g x)%R a (- m)%R.
Proof. intros H. exact (derivable_pt_lim_opp g a m H). Qed.

(** What the loop computes: for each step [h], the binary64 quotient of
    [f(a + h) - f(a)] by [(a + h) - a]. *)
Lemma animation_slopes_formula (E : Engine) (p : Parsed)
    (a : Binary64.float) (y0 : NVal) :
  (forall s, In s (free_symbols (expr p)) -> s = x_sym) ->
  f E p (PyNum a) = Ok y0 ->
  exists v0,
    scalar_val y0 = Some v0
    /\ Forall2
         (fun h r =>
            exists y1 v1,
              f E p (NpNum (Binary64.add a h)) = Ok y1
              /\ scalar_val y1 = Some v1
              /\ r = Ok (NpNum (secant_slope a (Binary64.add a h) v0 v1)))
         h_vals (animation_slopes E p a).
Proof.
  intros Hfree Hy0.
  destruct (eval_scalar (numeric E) x_sym (expr p) (PyNum a) y0 a Hfree
              eq_refl Hy0) as (v0 & Hv0).
  exists v0. split; [exact Hv0 |].
  unfold animation_slopes. induction h_vals as [| h hs IH];
    [constructor |].
  cbn [map]. constructor; [| exact IH].
  destruct (eval_np_total (numeric E) x_sym (expr p) a (Binary64.add a h) y0
              Hfree Hy0) as (y1 & v1 & Hy1 & Hv1 & _).
  exists y1, v1. split; [exact Hy1 |]. split; [exact Hv1 |].
  unfold secant_points. cbn [binop broadcast rbind np_binop]. unfold f in *.
  unfold lambdify in *. rewrite Hy0. cbn [rbind]. rewrite Hy1. cbn [rbind].
  rewrite (slope_scalars E a _ y0 y1 v0 v1 Hv0 Hv1). reflexivity.
Qed.

(** C7 (amended). For every expression in [x] alone and every slider value
    [a] at which [f(a)] is computed, the animation computes, for each of its
    20 steps [h], the binary64 quotient of [f(a + h) - f(a)] by
    [(a + h) - a].  In exact arithmetic, for an expression that denotes a
    function around [a] and up to [a + 1] whose derivative at [a] is the
    value of the symbolic derivative, those 20 quotients approach
    [f_prime(a)] monotonically as [h] shrinks whenever the function is
    convex between [a] and [a + 1] (they do not increase and never fall
    below [f_prime(a)]) or concave there (they do not decrease and never
    exceed it). *)
Theorem secant_slopes_converge_monotonically (E : Engine) (p : Parsed)
    (a : Binary64.float) (y0 : NVal) :
  (forall s, In s (free_symbols (expr p)) -> s = x_sym) ->
  f E p (PyNum a) = Ok y0 ->
  defined_near (expr p) (to_R a) ->
  denote (f_prime_expr p) (to_R a) <> None ->
  derivable_pt_lim (value (expr p)) (to_R a) (exact_derivative p a) ->
  (exists v0,
     scalar_val y0 = Some v0
     /\ Forall2
          (fun h r =>
             exists y1 v1,
               f E p (NpNum (Binary64.add a h)) = Ok y1
               /\ scalar_val y1 = Some v1
               /\ r = Ok (NpNum (secant_slope a (Binary64.add a h) v0 v1)))
          h_vals (animation_slopes E p a))
  /\ List.length (exact_slopes p a) = 20%nat
  /\ (convex_on (to_R a) (to_R a + 1) (value (expr p)) ->
      nonincreasing (exact_slopes p a)
      /\ Forall (fun s => (exact_derivative p a <= s)%R) (exact_slopes p a))
  /\ (concave_on (to_R a) (to_R a + 1) (value (expr p)) ->
      nondecreasing (exact_slopes p a)
      /\ Forall (fun s => (s <= exact_derivative p a)%R) (exact_slopes p a)).
Proof.
  intros Hfree Hy0 _ _ Hd.
  destruct h_exact_facts as (Hlen & Hpos & Hone & Hdesc).
  split; [apply animation_slopes_formula; assumption |].
  split; [| split].
  - unfold exact_slopes, secant_slopes, h_real. rewrite !length_map.
    exact Hlen.
  - intros Hc. unfold exact_slopes, h_real. split.
    + apply slopes_nonincreasing; assumption.
    + apply slopes_above_derivative; assumption.
  - intros Hc. unfold exact_slopes, h_real. unfold concave_on in Hc. split.
    + apply nonincreasing_opp. rewrite <- secant_slopes_opp.
      apply slopes_nonincreasing; assumption.
    + pose proof (slopes_above_derivative _ _ _ h_exact Hc
                    (derivable_opp _ _ _ Hd) Hpos Hone) as H.
      rewrite secant_slopes_opp in H.
      rewrite Forall_map in H.
      eapply Forall_impl; [| exact H]. cbv beta. intros s Hs. Lra.lra.
Qed.

Lemma value_square (x : R) : value (expr square) x = (x ^ 2)%R.
Proof. reflexivity. Qed.

Lemma derivative_square (x : R) :
  value (f_prime_expr square) x = (2 * x ^ 1 * 1)%R.
Proof. reflexivity. Qed.

Lemma square_convex_on (lo hi : R) : convex_on lo hi (value (expr square)).
Proof.
  intros x y t _ _ [Ht0 Ht1]. rewrite !value_square.
  assert (H : (0 <= t * (1 - t) * ((x - y) * (x - y)))%R).
  { apply Rmult_le_pos; [apply Rmult_le_pos; Lra.lra |].
    destruct (Rle_lt_dec 0 (x - y)) as [Hp | Hn].
    - apply Rmult_le_pos; exact Hp.
    - replace ((x - y) * (x - y))%R with ((y - x) * (y - x))%R by ring.
      apply Rmult_le_pos; Lra.lra. }
  replace (t * x ^ 2 + (1 - t) * y ^ 2)%R
    with ((t * x + (1 - t) * y) ^ 2 + t * (1 - t) * ((x - y) * (x - y)))%R
    by ring.
  Lra.lra.
Qed.

Lemma square_derivative (a : Binary64.float) :
  derivable_pt_lim (value (expr square)) (to_R a) (exact_derivative square a).
Proof.
  intros eps Heps.
  destruct (derivable_pt_lim_pow (to_R a) 2 eps Heps) as [delta H].
  exists delta. intros h Hh Hd. rewrite !value_square.
  replace (exact_derivative square a) with (INR 2 * to_R a ^ pred 2)%R;
    [apply H; assumption |].
  unfold exact_derivative. rewrite derivative_square. simpl. ring.
Qed.

Lemma secant_slopes_converge_monotonically_witness :
  nonincreasing (exact_slopes square (Binary64.of_Z 1))
  /\ Forall (fun s => (exact_derivative square (Binary64.of_Z 1) <= s)%R)
       (exact_slopes square (Binary64.of_Z 1)).
Proof.
  destruct (secant_slopes_converge_monotonically Toy.engine square
              (Binary64.of_Z 1) (PyNum (Binary64.of_Z 1)))
    as (_ & _ & H & _).
  - intros s Hs. cbn in Hs. destruct Hs as [<- | []]. reflexivity.
  - vm_compute. reflexivity.
  - exists 1%R. split; [Lra.lra |]. intros x _. discriminate.
  - discriminate.
  - apply square_derivative.
  - apply H, square_convex_on.
Defined.

Lemma value_triple (x : R) : value (expr triple) x = (3 * x)%R.
Proof. reflexivity. Qed.

(** C7 as stated fails in two ways.  For the smooth function [x**3 - x**2]
    at [a = 0], where the derivative is 0, the first secant slope (at
    [h = 1]) is exactly 0, the later ones are negative, reach about -0.25
    and come back to about -0.0099: the distances to the derivative grow
    before they shrink, and the slopes neither only fall nor only rise.
    And for the linear function [3*x] at the default slider value
    [a = 1.0], whose secant slopes are all 3 in exact arithmetic, the
    slopes the loop computes in binary64 neither only fall nor only rise,
    and some of them are below 3 and some above. *)
Lemma secant_slopes_cubic_counterexample :
  (let sl := scalars (animation_slopes Toy.engine cubic Binary64.zero) in
   parse_stage Toy.engine "x**3 - x**2" = Ok cubic
   /\ f_prime Toy.engine cubic (PyNum Binary64.zero) = Ok (PyNum Binary64.zero)
   /\ List.length sl = 20%nat
   /\ descending (distances Binary64.zero sl) = false
   /\ descending sl = false
   /\ ascending sl = false)
  /\ (let sl := scalars (animation_slopes Toy.engine triple (Binary64.of_Z 1)) in
      parse_stage Toy.engine "3*x" = Ok triple
      /\ f_prime Toy.engine triple (PyNum (Binary64.of_Z 1))
         = Ok (PyNum (Binary64.of_Z 3))
      /\ List.length sl = 20%nat
      /\ descending sl = false
      /\ ascending sl = false
      /\ existsb (fun s => Binary64.ltb s (Binary64.of_Z 3)) sl = true
      /\ existsb (fun s => Binary64.ltb (Binary64.of_Z 3) s) sl = true
      /\ Forall (fun s => s = 3%R) (exact_slopes triple (Binary64.of_Z 1))).
Proof.
  split; [repeat split; vm_compute; reflexivity |].
  cbn zeta. do 7 (split; [vm_compute; reflexivity |]).
  destruct h_exact_facts as (_ & Hpos & _ & _).
  unfold exact_slopes, secant_slopes, h_real. rewrite map_map.
  apply Forall_map, Forall_forall. intros k Hin.
  rewrite forallb_forall in Hpos.
  pose proof (Q2R_positive k (Hpos k Hin)) as Hk.
  unfold secant_slope. cbn [rsub rdiv radd Arith_R]. rewrite !value_triple.
  field. Lra.lra.
Qed.

(** ** C10: the denominator of the secant slope *)

Lemma h_vals_evenly_spaced :
  evenly_spaced_within (1 # 4503599627370496) h_vals 1 (1 # 100) = true.
Proof. vm_compute. reflexivity. Qed.

(** What [secant_points] computes: [x1 = a + h], the two values of [f], and
    the slope of line 134 on them. *)
Lemma secant_points_ok (E : Engine) (p : Parsed) (a h : Binary64.float)
    (x1 y0 y1 sl : NVal) :
  secant_points E p a h = Ok (x1, y0, y1, sl) ->
  x1 = NpNum (Binary64.add a h)
  /\ f E p (PyNum a) = Ok y0
  /\ f E p x1 = Ok y1
  /\ slope E (PyNum a) x1 y0 y1 = Ok sl.
Proof.
  unfold secant_points. cbn [binop broadcast rbind np_binop]. intros H.
  apply rbind_ok in H as (y0' & Hy0 & H).
  apply rbind_ok in H as (y1' & Hy1 & H).
  apply rbind_ok in H as (sl' & Hsl & H).
  apply Ok_inj in H. injection H as <- <- <- <-.
  repeat split; assumption.
Qed.

(** C10 (amended). In every iteration of the animation that computes a
    slope, [x1] is [a + h] and the denominator of the slope is [x1 - x0],
    both computed in binary64; for every binary64 value [a] of the slider,
    from -10 to 10, and each of the 20 steps [h], that denominator is
    strictly positive, so the slope, which is [(y1 - y0) / (x1 - x0)] on
    numbers, never divides by zero, and the points of the frame rendered
    are [(a, y0)] and [(x1, y1)].  The denominator equals [h] in exact
    arithmetic, not in binary64.  The steps are 20 strictly positive
    values, descending from 1.0 to 0.01, evenly spaced up to rounding
    (each within [2^-52] of the point of its index among 20 evenly spaced
    ones). *)
Theorem secant_denominator_is_positive (E : Engine) (p : Parsed)
    (a h : Binary64.float) (x1 y0 y1 sl : NVal) :
  in_slider_range a = true ->
  In h h_vals ->
  secant_points E p a h = Ok (x1, y0, y1, sl) ->
  (exists d,
     x1 = NpNum (Binary64.add a h)
     /\ binop (numeric E) OSub x1 (PyNum a) = Ok (NpNum d)
     /\ Binary64.ltb Binary64.zero d = true
     /\ (forall v0 v1, scalar_val y0 = Some v0 -> scalar_val y1 = Some v1 ->
           sl = NpNum (Binary64.div (Binary64.sub v1 v0) d)))
  /\ (forall (y_vals : NVal) (fig : Figure) (s : Binary64.float),
        secant_frame E p y_vals a h = ([PlaceholderPyplot fig; Sleep s], Done tt) ->
        In (AScatter [PyNum a; x1] [y0; y1]) fig)
  /\ Binary64.ltb Binary64.zero h = true
  /\ (forall q k : Q, q + k - q == k)%Q
  /\ List.length h_vals = 20%nat
  /\ hd Binary64.nan h_vals = Binary64.of_Z 1
  /\ last h_vals Binary64.nan = Binary64.of_decimal 1 2
  /\ strictly_descending h_vals = true
  /\ evenly_spaced_within (1 # 4503599627370496) h_vals 1 (1 # 100) = true.
Proof.
  intros Ha Hin Hpts.
  destruct (secant_points_ok E p a h x1 y0 y1 sl Hpts)
    as (Hx1 & Hy0 & Hy1 & Hsl).
  subst x1.
  split; [| split; [| split; [| split]]].
  - exists (Binary64.sub (Binary64.add a h) a).
    split; [reflexivity |]. split; [reflexivity |].
    split; [apply denominator_positive; assumption |].
    intros v0 v1 H0 H1.
    rewrite (slope_scalars E a _ y0 y1 v0 v1 H0 H1) in Hsl.
    apply Ok_inj in Hsl. subst sl. reflexivity.
  - intros y_vals fig s H. unfold secant_frame in H.
    destruct (ax_plot (NpArr x_vals) y_vals LCurve) as [e | c];
      cbn [bind lift app] in H; [discriminate H |].
    rewrite Hpts in H. cbn [bind lift app] in H.
    destruct (secant E sl (PyNum a) y0) as [e | sec];
      cbn [bind lift app] in H; [discriminate H |].
    destruct (ax_plot (NpArr x_vals) sec (LSecant h)) as [e | c2];
      cbn [bind lift emit app] in H; [discriminate H |].
    injection H as <- _. right. right. left. reflexivity.
  - pose proof h_vals_positive as Hpos. rewrite forallb_forall in Hpos.
    apply Hpos, Hin.
  - intros q k. ring.
  - destruct h_vals_facts as (H1 & H2 & H3 & H4).
    split; [exact H1 |]. split; [exact H2 |]. split; [exact H3 |].
    split; [exact H4 | exact h_vals_evenly_spaced].
Qed.

Lemma secant_denominator_is_positive_witness :
  exists d,
    binop Toy.namespace OSub
      (NpNum (Binary64.add (Binary64.of_Z 1) (Binary64.of_decimal 1 2)))
      (PyNum (Binary64.of_Z 1)) = Ok (NpNum d)
    /\ Binary64.ltb Binary64.zero d = true.
Proof.
  destruct (secant_points Toy.engine square (Binary64.of_Z 1)
              (Binary64.of_decimal 1 2)) as [e | [[[x1 y0] y1] sl]] eqn:Hpts;
    [vm_compute in Hpts; discriminate Hpts |].
  destruct (secant_denominator_is_positive Toy.engine square (Binary64.of_Z 1)
              (Binary64.of_decimal 1 2) x1 y0 y1 sl)
    as ((d & Hx1 & Hd & Hpos & _) & _).
  - vm_compute. reflexivity.
  - vm_compute. do 19 right. left. reflexivity.
  - exact Hpts.
  - exists d. subst x1. split; [exact Hd | exact Hpos].
Defined.

(** C10 as stated fails in binary64, where [x1 - x0] is not [h]: at the
    default slider value [a = 1.0] and the last step [h = 0.01], the loop
    computes [x1 = 1.0 + 0.01] and the denominator [x1 - 1.0], which is not
    equal to [0.01]. *)
Lemma denominator_is_not_the_step_counterexample :
  let a := Binary64.of_Z 1 in
  let h := Binary64.of_decimal 1 2 in
  In h h_vals
  /\ In a slider_positions
  /\ (exists y0 y1 sl,
        secant_points Toy.engine square a h
        = Ok (NpNum (Binary64.add a h), y0, y1, sl))
  /\ binop Toy.namespace OSub (NpNum (Binary64.add a h)) (PyNum a)
     = Ok (NpNum (Binary64.sub (Binary64.add a h) a))
  /\ Binary64.eqb (Binary64.sub (Binary64.add a h) a) h = false.
Proof.
  cbn zeta. split; [vm_compute; do 19 right; left; reflexivity |].
  split.
  - apply in_map_iff. exists 110%nat.
    split; [vm_compute; reflexivity | apply in_seq; lia].
  - split; [do 3 eexists; vm_compute; reflexivity |].
    split; [reflexivity | vm_compute; reflexivity].
Qed.

(** * Further properties of the script *)

(** ** Failures of the derivative and of the limits *)

(** X1. The [try] block of the function input also covers the
    differentiation: when the text parses and the function [f] is
    generated, but differentiating the expression raises, the exception is
    reported with the message "Error parsing function", and the rerun stops
    there as it does for text that does not parse. *)
Theorem derivative_failure_is_reported_as_parse_error (E : Engine)
    (I : Inputs) (e0 : Expr) (e : Exc) :
  sympify E (func_input I) = Ok e0 ->
  numpy_code E e0 = Ok tt ->
  diff E e0 x_sym = Raise e ->
  run_script E I = (input_events ++ [ErrorBox (ParseErrorMsg e)], Stopped).
Proof.
  intros Hs Hc Hd.
  unfold run_script, main, setup, function_input, parse_stage.
  rewrite Hs. cbn [rbind]. rewrite Hc. cbn [rbind]. rewrite Hd. reflexivity.
Qed.

Lemma derivative_failure_is_reported_as_parse_error_witness :
  run_script Toy.no_diff
    (Toy.inputs "x" (Binary64.of_Z 1) (Binary64.of_Z 1) false) =
    (input_events
     ++ [ErrorBox (ParseErrorMsg
                     (Exception "NotImplementedError" "derivative"))],
     Stopped).
Proof.
  apply (derivative_failure_is_reported_as_parse_error Toy.no_diff
           (Toy.inputs "x" (Binary64.of_Z 1) (Binary64.of_Z 1) false)
           Toy.X (Exception "NotImplementedError" "derivative"));
    reflexivity.
Defined.

(** X18. The [try] block also covers the two calls of [lambdify]: when the
    text parses but the code of [f] cannot be generated, or the derivative
    is computed but the code of [f_prime] cannot be generated (as for
    [sign(x)], whose derivative the NumPy printer does not know), the
    exception is reported with the message "Error parsing function" and
    the rerun stops there. *)
Theorem vectorising_failure_is_reported_as_parse_error (E : Engine)
    (I : Inputs) (e0 : Expr) (e : Exc) :
  sympify E (func_input I) = Ok e0 ->
  numpy_code E e0 = Raise e
  \/ (exists d, numpy_code E e0 = Ok tt /\ diff E e0 x_sym = Ok d
                /\ numpy_code E d = Raise e) ->
  run_script E I = (input_events ++ [ErrorBox (ParseErrorMsg e)], Stopped).
Proof.
  intros Hs H.
  unfold run_script, main, setup, function_input, parse_stage.
  rewrite Hs. cbn [rbind].
  destruct H as [Hc | (d & Hc & Hd & Hc')]; rewrite Hc; cbn [rbind].
  - reflexivity.
  - rewrite Hd. cbn [rbind]. rewrite Hc'. reflexivity.
Qed.

Lemma vectorising_failure_is_reported_as_parse_error_witness :
  run_script Toy.engine
    (Toy.inputs "sign(x)" (Binary64.of_Z 1) (Binary64.of_Z 1) false) =
    (input_events
     ++ [ErrorBox (ParseErrorMsg
                     (Exception "PrintMethodNotImplementedError"
                        "Unsupported by NumPyPrinter: DiracDelta"))],
     Stopped).
Proof.
  apply (vectorising_failure_is_reported_as_parse_error Toy.engine
           (Toy.inputs "sign(x)" (Binary64.of_Z 1) (Binary64.of_Z 1) false)
           (Fn "sign" Toy.X)); [reflexivity |].
  right. eexists. repeat split; reflexivity.
Defined.

(** X2. Both one-sided limits are computed before either is rendered: when
    the left limit raises, or the left limit is computed and the right one
    raises, the limit calculator renders its header, its slider and the
    "Limit error" message, and no limit formula at all. *)
Theorem limit_failure_renders_no_formula (E : Engine) (p : Parsed)
    (limit_point : Binary64.float) (e : Exc) :
  limit E (expr p) x_sym limit_point FromLeft = Raise e
  \/ (exists l, limit E (expr p) x_sym limit_point FromLeft = Ok l
                /\ limit E (expr p) x_sym limit_point FromRight = Raise e) ->
  limit_calculator E p limit_point =
    ([Header "Limit Calculator"; Slider "Choose x-value for limit:";
      ErrorBox (LimitErrorMsg e)], Done tt).
Proof.
  intros H. unfold limit_calculator.
  rewrite (limit_events_raise E (expr p) limit_point e H). reflexivity.
Qed.

Lemma limit_failure_renders_no_formula_witness :
  limit_calculator Toy.engine reciprocal Binary64.zero =
    ([Header "Limit Calculator"; Slider "Choose x-value for limit:";
      ErrorBox (LimitErrorMsg
                  (Exception "ZeroDivisionError"
                     "0.0 cannot be raised to a negative power"))], Done tt).
Proof.
  apply (limit_failure_renders_no_formula Toy.engine reciprocal Binary64.zero).
  left. reflexivity.
Defined.

(** X3. The limit calculator never ends the rerun: whatever the engine
    answers or raises, the section goes through, and it renders exactly
    one box - a verdict or the error message - after either both limit
    formulas or none. *)
Theorem limit_calculator_always_completes (E : Engine) (p : Parsed)
    (limit_point : Binary64.float) :
  let s := limit_calculator E p limit_point in
  snd s = Done tt
  /\ List.length (boxes (fst s)) = 1%nat
  /\ (formulas (fst s) = [] \/ List.length (formulas (fst s)) = 2%nat).
Proof.
  cbn zeta.
  destruct (limit_calculator_cases E p limit_point) as (evs & -> & Hevs).
  split; [reflexivity |].
  destruct Hevs as [[e ->] | [(l & r & ->) | (l & r & ->)]]; cbn; auto.
Qed.

(** ** Exceptions outside the two [try] blocks *)

(** X4. The evaluation of [f(a)] in the tangent section is in no [try]:
    when the samples were computed but [f] raises on the slider value (a
    Python float, not an array), the rerun is aborted by that exception
    right after the header and the slider of the tangent section; no
    figure and none of the later sections is rendered. *)
Theorem tangent_point_failure_aborts_rerun (E : Engine) (I : Inputs)
    (p : Parsed) (y_vals : NVal) (e : Exc) :
  parse_stage E (func_input I) = Ok p ->
  f E p (NpArr x_vals) = Ok y_vals ->
  f E p (PyNum (tangent_x I)) = Raise e ->
  run_script E I =
    (input_events ++ fst learn_concepts
     ++ [Header "Tangent Line Visualizer";
         Slider "Choose x-value for tangent:"], Aborted e).
Proof.
  intros Hp Hy Hf. unfold run_script, main.
  rewrite (bind_done setup _ (fst setup) tt eq_refl).
  rewrite (bind_done _ _ _ _ (function_input_ok E _ p Hp)).
  unfold after_parse, eval_grid. rewrite (bind_lift_ok _ _ _ Hy).
  rewrite (bind_done learn_concepts _ (fst learn_concepts) tt eq_refl).
  unfold tangent_visualizer, tangent_line. rewrite Hf. reflexivity.
Qed.

Lemma tangent_point_failure_aborts_rerun_witness :
  run_script Toy.engine
    (Toy.inputs "1/x" Binary64.zero (Binary64.of_Z 1) false) =
    (input_events ++ fst learn_concepts
     ++ [Header "Tangent Line Visualizer";
         Slider "Choose x-value for tangent:"],
     Aborted (Exception "ZeroDivisionError"
                "0.0 cannot be raised to a negative power")).
Proof.
  apply (tangent_point_failure_aborts_rerun Toy.engine
           (Toy.inputs "1/x" Binary64.zero (Binary64.of_Z 1) false)
           reciprocal (NpArr (map (fun v => Binary64.div Toy.one v) x_vals))).
  - reflexivity.
  - vm_compute. reflexivity.
  - reflexivity.
Defined.

(** ** What a rerun renders, whatever the inputs *)

(** X5. A rerun sleeps only inside the animation loop: every sleep lasts
    0.2, there are at most 20 of them when the animation button is pressed
    and none when it is not, whatever the engine and the other inputs. *)
Theorem rerun_sleeps_only_in_animation (E : Engine) (I : Inputs) :
  exists n,
    (n <= if run_animation I then 20 else 0)%nat
    /\ sleeps (fst (run_script E I)) = repeat (Binary64.of_decimal 2 1) n.
Proof.
  change (naps (if run_animation I then 20 else 0) (run_script E I)).
  unfold run_script, main.
  apply (naps_bind 0); [apply naps_silent; silence | intros _].
  apply (naps_bind 0); [apply naps_silent; silence | intros p].
  unfold after_parse.
  apply (naps_bind 0); [apply naps_silent; silence | intros y].
  apply (naps_bind 0); [apply naps_silent; silence | intros _].
  apply (naps_bind 0); [apply naps_silent; silence | intros _].
  apply (naps_bind 0); [apply naps_limit | intros _].
  unfold after_limit.
  replace (if run_animation I then 20%nat else 0%nat)
    with ((if run_animation I then 20 else 0) + 0)%nat by apply Nat.add_0_r.
  apply naps_bind; [apply naps_animation | intros _].
  apply naps_silent. unfold problem_set, problem. silence.
Qed.

(** X6. The sections are rendered in the order of the source: what a
    rerun renders of the six section headers is an initial part of their
    list, and all six when the rerun goes through. *)
Theorem sections_render_in_order (E : Engine) (I : Inputs) :
  exists rest,
    section_order = headers (fst (run_script E I)) ++ rest
    /\ (snd (run_script E I) = Done tt -> rest = []).
Proof.
  assert (H : in_order section_order (run_script E I)).
  { unfold run_script, main.
    apply (in_order_bind [] section_order);
      [apply in_order_silent; silence | intros _].
    apply (in_order_bind [] section_order);
      [apply in_order_silent; silence | intros p].
    unfold after_parse.
    apply (in_order_bind [] section_order);
      [apply in_order_silent; silence | intros y].
    apply (in_order_bind ["Learn the Concepts"]);
      [apply in_order_section; silence | intros _].
    apply (in_order_bind ["Tangent Line Visualizer"]);
      [apply tangent_section_in_order | intros _].
    apply (in_order_bind ["Limit Calculator"]);
      [apply limit_section_in_order | intros _].
    unfold after_limit.
    apply (in_order_bind ["Animation: Secant Line to Tangent"]);
      [apply animation_in_order | intros _].
    apply (in_order_bind ["Problem Set"]);
      [apply problem_set_in_order | intros _].
    apply in_order_section. silence. }
  destruct H as (rest & H1 & H2). exists rest. split; [exact H1 |].
  apply H2.
Qed.

(** X7. [st.stop()] is reached through a failure of the [try] block of the
    function input and in no other way: a rerun ends as stopped exactly
    when parsing, differentiating or one of the two calls of [lambdify]
    raises, and it reports a parse error exactly then, once, with the
    exception raised. *)
Theorem rerun_stops_only_on_parse_failure (E : Engine) (I : Inputs) :
  (snd (run_script E I) = Stopped
   <-> exists e, parse_stage E (func_input I) = Raise e)
  /\ parse_errors (fst (run_script E I)) =
       match parse_stage E (func_input I) with
       | Raise e => [e]
       | Ok _ => []
       end.
Proof.
  unfold run_script, main.
  rewrite (bind_done setup _ (fst setup) tt eq_refl).
  destruct (parse_stage E (func_input I)) as [e | p] eqn:Hp.
  - unfold function_input. rewrite Hp. cbn. split; [| reflexivity].
    split; [eauto | reflexivity].
  - rewrite (bind_done _ _ _ _ (function_input_ok E _ p Hp)). cbn [fst snd].
    split.
    + split; [| intros [e He]; discriminate].
      intros Hs. exfalso. exact (after_parse_never_stops E I p Hs).
    + unfold parse_errors. rewrite !flat_map_app.
      rewrite (at_most_none _ _ (after_parse_no_parse_error E I p)).
      reflexivity.
Qed.

(** X8. The page set-up and the function input are rendered by every
    rerun, before anything that can fail: whatever the text, the engine
    and the other inputs, the trace starts with the page configuration,
    the title, the "About" expander, the sidebar header and the text
    field - so a text that does not parse can always be corrected. *)
Theorem input_field_is_always_rendered (E : Engine) (I : Inputs) :
  exists rest, fst (run_script E I) = input_events ++ rest.
Proof.
  unfold run_script, main.
  rewrite (bind_done setup _ (fst setup) tt eq_refl). cbn [fst].
  unfold function_input. rewrite fst_bind, !bind_emit. cbn [fst snd].
  unfold input_events. cbn [setup bind emit fst app].
  eexists. reflexivity.
Qed.

(** X9. An expression without any symbol never gets its figure: its
    generated function returns one number for the whole grid, so the first
    [ax.plot] of the tangent section raises, unless an earlier evaluation
    already did; either way the rerun is aborted by an exception nobody
    catches and renders no figure. *)
Theorem constant_expression_aborts_rerun (E : Engine) (I : Inputs)
    (p : Parsed) :
  parse_stage E (func_input I) = Ok p ->
  free_symbols (expr p) = [] ->
  (exists e, snd (run_script E I) = Aborted e)
  /\ figures (fst (run_script E I)) = []
  /\ (forall y tl,
        f E p (NpArr x_vals) = Ok y ->
        tangent_line E p (PyNum (tangent_x I)) = Ok tl ->
        snd (run_script E I) =
          Aborted (Exception "ValueError"
                     ("x and y must have same first dimension, "
                      ++ "but have shapes (400,) and (1,)")%string)).
Proof.
  intros Hp Hfree. unfold run_script, main.
  rewrite (bind_done setup _ (fst setup) tt eq_refl).
  rewrite (bind_done _ _ _ _ (function_input_ok E _ p Hp)).
  unfold after_parse, eval_grid.
  destruct (f E p (NpArr x_vals)) as [e | y] eqn:Hy.
  - rewrite (bind_lift_raise _ e _ eq_refl). cbn [fst snd].
    split; [eauto |]. split; [reflexivity | discriminate].
  - rewrite (bind_lift_ok _ _ _ eq_refl).
    rewrite (bind_done learn_concepts _ (fst learn_concepts) tt eq_refl).
    assert (Hplot : ax_plot (NpArr x_vals) y LCurve =
              Raise (Exception "ValueError"
                       ("x and y must have same first dimension, "
                        ++ "but have shapes (400,) and (1,)")%string)).
    { assert (Hs : shaped (List.length x_vals) (mentions x_sym (expr p)) y).
      { apply (eval_shaped (numeric E) x_sym x_vals (expr p)); [| exact Hy].
        rewrite Hfree. intros s []. }
      unfold mentions in Hs. rewrite Hfree in Hs. destruct Hs as (c & Hc).
      destruct x_vals_facts as (Hlen & _).
      destruct y; simpl in Hc; try discriminate;
        unfold ax_plot; cbn [is_object orb shape]; rewrite Hlen;
        reflexivity. }
    unfold tangent_visualizer.
    destruct (tangent_line E p (PyNum (tangent_x I))) as [e | tl].
    + rewrite !bind_emit. cbn [fst snd lift bind].
      split; [eauto |]. split; [reflexivity | discriminate].
    + rewrite !bind_emit. cbn [fst snd lift bind]. rewrite Hplot.
      cbn [fst snd lift bind].
      split; [eauto |]. split; [reflexivity |].
      intros y' tl' _ _. reflexivity.
Qed.

Lemma constant_expression_aborts_rerun_witness :
  let I := Toy.inputs "5" (Binary64.of_Z 1) (Binary64.of_Z 1) false in
  (exists e, snd (run_script Toy.engine I) = Aborted e)
  /\ figures (fst (run_script Toy.engine I)) = [].
Proof.
  intros I.
  destruct (constant_expression_aborts_rerun Toy.engine I
              {| expr := Int 5; f_prime_expr := Int 0 |})
    as (H1 & H2 & _); [reflexivity | reflexivity |].
  split; [exact H1 | exact H2].
Defined.

(** X10. For an expression in [x] alone, nothing after the tangent section
    can end the rerun: once that section has been rendered, the rerun goes
    through to its end, whatever the limit engine answers or raises and
    whichever buttons are pressed. *)
Theorem rerun_completes_once_tangent_rendered (E : Engine) (I : Inputs)
    (p : Parsed) (y_vals : NVal) (tangent_events : Trace) :
  parse_stage E (func_input I) = Ok p ->
  (forall s, In s (free_symbols (expr p)) -> s = x_sym) ->
  f E p (NpArr x_vals) = Ok y_vals ->
  tangent_visualizer E p y_vals (tangent_x I) = (tangent_events, Done tt) ->
  snd (run_script E I) = Done tt.
Proof.
  intros Hp Hfree Hy Ht. unfold run_script, main.
  rewrite (bind_done setup _ (fst setup) tt eq_refl).
  rewrite (bind_done _ _ _ _ (function_input_ok E _ p Hp)).
  unfold after_parse, eval_grid. rewrite (bind_lift_ok _ _ _ Hy).
  rewrite (bind_done learn_concepts _ (fst learn_concepts) tt eq_refl).
  rewrite (bind_done _ _ _ _ Ht). cbn [snd].
  rewrite (bind_snd_done _ _ tt (limit_section_done E p (limit_x I))).
  apply after_limit_completes. cbn zeta.
  destruct (run_animation I); [| reflexivity].
  eapply animation_is_done; eassumption.
Qed.

Lemma rerun_completes_once_tangent_rendered_witness :
  snd (run_script Toy.engine
         (Toy.inputs "x**2" (Binary64.of_Z 1) (Binary64.of_Z 1) true))
  = Done tt.
Proof.
  apply (rerun_completes_once_tangent_rendered Toy.engine
           (Toy.inputs "x**2" (Binary64.of_Z 1) (Binary64.of_Z 1) true)
           square square_samples
           (fst (tangent_visualizer Toy.engine square square_samples
                   (Binary64.of_Z 1)))).
  - reflexivity.
  - intros s Hs. cbn in Hs. destruct Hs as [<- | []]. reflexivity.
  - vm_compute. reflexivity.
  - vm_compute. reflexivity.
Defined.

(** ** What the figures show *)

Lemma ax_plot_shape (xs ys : NVal) (l : Label) (c : Artist) :
  ax_plot xs ys l = Ok c -> shape ys = shape xs.
Proof.
  unfold ax_plot.
  destruct (Nat.eqb (shape xs) (shape ys)) eqn:Hs; [| discriminate].
  intros _. symmetry. apply Nat.eqb_eq, Hs.
Qed.

(** X11. What a tangent section that went through has rendered, for an
    expression and a derivative in [x] alone: its header and slider, one
    figure with the curve over the grid, the line
    [f(a) + f_prime(a) * (x - a)] over the grid and the point [(a, f(a))],
    then the symbolic derivative and the value [f_prime(a)].  The curve has
    one value per grid entry, and the number displayed as [f_prime(a)] is
    the coefficient of the line drawn. *)
Theorem tangent_section_shows_its_slope (E : Engine) (p : Parsed)
    (y_vals : NVal) (a : Binary64.float) (tr : Trace) :
  (forall s, In s (free_symbols (expr p)) -> s = x_sym) ->
  (forall s, In s (free_symbols (f_prime_expr p)) -> s = x_sym) ->
  tangent_visualizer E p y_vals a = (tr, Done tt) ->
  exists fa fpa va vpa,
    f E p (PyNum a) = Ok fa
    /\ f_prime E p (PyNum a) = Ok fpa
    /\ scalar_val fa = Some va
    /\ scalar_val fpa = Some vpa
    /\ shape y_vals = 400%nat
    /\ tr = [Header "Tangent Line Visualizer";
             Slider "Choose x-value for tangent:";
             Pyplot [APlot (NpArr x_vals) y_vals LCurve;
                     APlot (NpArr x_vals)
                       (NpArr (map (tangent_at va vpa a) x_vals))
                       (LTangent a);
                     AScatter [PyNum a] [fa]; ATitle (LTitleTangent a);
                     AXLabel "x"; AYLabel "f(x)"; AGrid; ALegend];
             Markdown (DerivExprMsg (f_prime_expr p));
             Markdown (DerivValueMsg a fpa)].
Proof.
  intros Hfree Hfree' H. unfold tangent_visualizer in H.
  destruct (tangent_line E p (PyNum a)) as [e | tl] eqn:Htl;
    cbn [bind emit lift app] in H; [discriminate H |].
  destruct (ax_plot (NpArr x_vals) y_vals LCurve) as [e | c] eqn:Hc;
    cbn [bind emit lift app] in H; [discriminate H |].
  destruct (ax_plot (NpArr x_vals) tl (LTangent a)) as [e | t] eqn:Hl;
    cbn [bind emit lift app] in H; [discriminate H |].
  destruct (f E p (PyNum a)) as [e | fa] eqn:Hfa;
    cbn [bind emit lift app] in H; [discriminate H |].
  destruct (f_prime E p (PyNum a)) as [e | fpa] eqn:Hfpa;
    cbn [bind emit lift app] in H; [discriminate H |].
  injection H as <-.
  pose proof (ax_plot_shape _ _ _ _ Hc) as Sc.
  apply ax_plot_ok in Hc, Hl. subst c t.
  destruct x_vals_facts as (Hlen & _). cbn [shape] in Sc. rewrite Hlen in Sc.
  destruct (eval_scalar (numeric E) x_sym (expr p) (PyNum a) fa a Hfree
              eq_refl Hfa) as (va & Hva).
  destruct (eval_scalar (numeric E) x_sym (f_prime_expr p) (PyNum a) fpa a
              Hfree' eq_refl Hfpa) as (vpa & Hvpa).
  pose proof (tangent_line_entries E p a fa fpa va vpa Hfa Hfpa Hva Hvpa)
    as Hent.
  rewrite Htl in Hent. apply Ok_inj in Hent. subst tl.
  exists fa, fpa, va, vpa.
  split; [reflexivity |]. split; [reflexivity |]. split; [exact Hva |].
  split; [exact Hvpa |]. split; [exact Sc | reflexivity].
Qed.

Lemma tangent_section_shows_its_slope_witness :
  exists fa fpa va vpa,
    f Toy.engine square (PyNum (Binary64.of_Z 1)) = Ok fa
    /\ f_prime Toy.engine square (PyNum (Binary64.of_Z 1)) = Ok fpa
    /\ scalar_val fa = Some va
    /\ scalar_val fpa = Some vpa
    /\ shape square_samples = 400%nat.
Proof.
  destruct (tangent_section_shows_its_slope Toy.engine square square_samples
              (Binary64.of_Z 1)
              (fst (tangent_visualizer Toy.engine square square_samples
                      (Binary64.of_Z 1))))
    as (fa & fpa & va & vpa & H1 & H2 & H3 & H4 & H5 & _).
  - intros s Hs. cbn in Hs. destruct Hs as [<- | []]. reflexivity.
  - intros s Hs. cbn in Hs. destruct Hs as [<- | []]. reflexivity.
  - vm_compute. reflexivity.
  - exists fa, fpa, va, vpa. repeat split; assumption.
Defined.

Lemma add_zero_l (x : Binary64.float) (s : bool) :
  Binary64.is_finite x = true ->
  Binary64.eqb (Binary64.add (S754_zero s) x) x = true.
Proof.
  destruct x as [sx | sx | | sx m e]; simpl; try discriminate; intros _.
  - destruct sx, s; reflexivity.
  - apply (eqb_refl (S754_finite sx m e)). reflexivity.
Qed.

(** The secant line meets the curve at its base point. *)
Lemma secant_at_base (sl x0 y0 : Binary64.float) :
  Binary64.is_finite sl = true -> Binary64.is_finite x0 = true ->
  Binary64.is_finite y0 = true ->
  Binary64.eqb (secant_at sl x0 y0 x0) y0 = true.
Proof.
  intros Hs Hx Hy. unfold secant_at; simpl.
  rewrite (sub_diag x0 Hx).
  destruct (mul_zero_r sl false Hs) as [s' ->].
  apply add_zero_l, Hy.
Qed.

(** X12. The secant drawn by a frame is, entry by entry over the grid,
    [slope * (x - x0) + y0].  At the base point [x0] its value equals [y0]
    under binary64 comparison whenever the slope, [x0] and [y0] are finite;
    and in exact arithmetic, with the slope of line 134 and two distinct
    abscissas, it passes through both points [(x0, y0)] and [(x1, y1)]. *)
Theorem secant_line_through_both_points (E : Engine)
    (sl x0 y0 : Binary64.float) (q0 q1 r0 r1 : Q) :
  Binary64.is_finite sl = true ->
  Binary64.is_finite x0 = true ->
  Binary64.is_finite y0 = true ->
  ~ (q1 == q0)%Q ->
  secant E (NpNum sl) (PyNum x0) (PyNum y0) =
    Ok (NpArr (map (secant_at sl x0 y0) x_vals))
  /\ Binary64.eqb (secant_at sl x0 y0 x0) y0 = true
  /\ (secant_at (secant_slope q0 q1 r0 r1) q0 r0 q0 == r0)%Q
  /\ (secant_at (secant_slope q0 q1 r0 r1) q0 r0 q1 == r1)%Q.
Proof.
  intros Hs Hx Hy Hq. split; [| split; [| split]].
  - apply secant_array. reflexivity.
  - apply secant_at_base; assumption.
  - unfold secant_at, secant_slope; simpl. field. lra.
  - unfold secant_at, secant_slope; simpl. field. lra.
Qed.

Lemma secant_line_through_both_points_witness :
  Binary64.eqb
    (secant_at (Binary64.of_Z 3) (Binary64.of_Z 1) (Binary64.of_Z 1)
       (Binary64.of_Z 1)) (Binary64.of_Z 1) = true
  /\ (secant_at (secant_slope 1 2 1 4) 1 1 2 == 4)%Q.
Proof.
  destruct (secant_line_through_both_points Toy.engine (Binary64.of_Z 3)
              (Binary64.of_Z 1) (Binary64.of_Z 1) 1%Q 2%Q 1%Q 4%Q)
    as (_ & H1 & _ & H2); try reflexivity.
  - intros H. discriminate H.
  - split; [exact H1 | exact H2].
Defined.

(** X13. What one iteration of the animation draws.  For an expression in
    [x] alone, once the samples have been plotted and [f(a)] evaluated, the
    frame for the step [h] evaluates [f] at [a + h], and shows the curve,
    the line [slope * (x - a) + f(a)] over the grid with
    [slope = (f(a + h) - f(a)) / ((a + h) - a)], and the two points
    [(a, f(a))] and [(a + h, f(a + h))]; it then sleeps 0.2. *)
Theorem secant_frame_draws_the_secant (E : Engine) (p : Parsed)
    (y_vals : NVal) (a h : Binary64.float) (c : Artist) (y0 : NVal) :
  (forall s, In s (free_symbols (expr p)) -> s = x_sym) ->
  ax_plot (NpArr x_vals) y_vals LCurve = Ok c ->
  f E p (PyNum a) = Ok y0 ->
  exists v0 y1 v1,
    scalar_val y0 = Some v0
    /\ f E p (NpNum (Binary64.add a h)) = Ok y1
    /\ scalar_val y1 = Some v1
    /\ secant_frame E p y_vals a h =
         ([PlaceholderPyplot
             [APlot (NpArr x_vals) y_vals LCurve;
              APlot (NpArr x_vals)
                (NpArr (map (secant_at
                               (secant_slope a (Binary64.add a h) v0 v1) a v0)
                          x_vals))
                (LSecant h);
              AScatter [PyNum a; NpNum (Binary64.add a h)] [y0; y1];
              ATitle (LTitleSecant a); AGrid; ALegend];
           Sleep (Binary64.of_decimal 2 1)], Done tt).
Proof.
  intros Hfree Hc Hy0.
  destruct (eval_scalar (numeric E) x_sym (expr p) (PyNum a) y0 a Hfree
              eq_refl Hy0) as (v0 & Hv0).
  destruct (eval_np_total (numeric E) x_sym (expr p) a (Binary64.add a h) y0
              Hfree Hy0) as (y1 & v1 & Hy1 & Hv1 & _).
  exists v0, y1, v1. split; [exact Hv0 |]. split; [exact Hy1 |].
  split; [exact Hv1 |].
  unfold secant_frame. rewrite (bind_lift_ok _ _ _ Hc).
  apply ax_plot_ok in Hc. subst c.
  assert (Hpts : secant_points E p a h =
            Ok (NpNum (Binary64.add a h), y0, y1,
                NpNum (secant_slope a (Binary64.add a h) v0 v1))).
  { unfold secant_points. cbn [binop broadcast rbind np_binop]. unfold f in *.
    unfold lambdify in *. rewrite Hy0. cbn [rbind]. rewrite Hy1. cbn [rbind].
    rewrite (slope_scalars E a _ y0 y1 v0 v1 Hv0 Hv1). reflexivity. }
  rewrite (bind_lift_ok _ _ _ Hpts).
  rewrite (bind_lift_ok _ _ _
             (secant_array E (secant_slope a (Binary64.add a h) v0 v1) a y0 v0
                Hv0)).
  set (l := map (secant_at (secant_slope a (Binary64.add a h) v0 v1) a v0)
              x_vals).
  assert (Hplot : ax_plot (NpArr x_vals) (NpArr l) (LSecant h)
                  = Ok (APlot (NpArr x_vals) (NpArr l) (LSecant h))).
  { unfold ax_plot, l. cbn [is_object orb shape].
    rewrite length_map, Nat.eqb_refl. reflexivity. }
  rewrite (bind_lift_ok _ _ _ Hplot). reflexivity.
Qed.

Lemma secant_frame_draws_the_secant_witness :
  exists v0 y1 v1,
    scalar_val (PyNum (Binary64.of_Z 1)) = Some v0
    /\ f Toy.engine square (NpNum (Binary64.add (Binary64.of_Z 1)
                                     (Binary64.of_Z 1))) = Ok y1
    /\ scalar_val y1 = Some v1
    /\ snd (secant_frame Toy.engine square square_samples (Binary64.of_Z 1)
              (Binary64.of_Z 1)) = Done tt.
Proof.
  destruct (secant_frame_draws_the_secant Toy.engine square square_samples
              (Binary64.of_Z 1) (Binary64.of_Z 1)
              (APlot (NpArr x_vals) square_samples LCurve)
              (PyNum (Binary64.of_Z 1)))
    as (v0 & y1 & v1 & H0 & H1 & H2 & H3).
  - intros s Hs. cbn in Hs. destruct Hs as [<- | []]. reflexivity.
  - vm_compute. reflexivity.
  - vm_compute. reflexivity.
  - exists v0, y1, v1. rewrite H3. repeat split; assumption.
Defined.

(** ** The generated function on an array *)

Lemma nth_error_map2 {A B C} (g : A -> B -> C) (l1 : list A) (l2 : list B)
    (i : nat) (a : A) (b : B) :
  nth_error l1 i = Some a -> nth_error l2 i = Some b ->
  nth_error (map2 g l1 l2) i = Some (g a b).
Proof.
  revert l2 i. induction l1 as [| a1 l1 IH]; intros [| b1 l2] [| i] Ha Hb;
    simpl in *; try discriminate.
  - congruence.
  - apply IH; assumption.
Qed.

Lemma nth_error_in_range {A B} (l1 : list A) (l2 : list B) (i : nat) (a : A) :
  List.length l1 = List.length l2 -> nth_error l1 i = Some a ->
  exists b, nth_error l2 i = Some b.
Proof.
  intros Hlen Ha.
  destruct (nth_error l2 i) as [b |] eqn:Hb; [eauto |].
  apply nth_error_None in Hb. rewrite <- Hlen in Hb.
  apply nth_error_None in Hb. congruence.
Qed.

(** Broadcasting commutes with taking the entry at an index. *)
Lemma binop_at_index (N : Namespace) (o : BinOp) (i : nat)
    (u w v xu xw : NVal) :
  shape u = shape w \/ shape u = 1%nat /\ (forall l, u <> NpArr l)
  \/ shape w = 1%nat /\ (forall l, w <> NpArr l) ->
  binop N o u w = Ok v ->
  at_index i u xu -> at_index i w xw ->
  (exists l, u = NpArr l) \/ (exists l, w = NpArr l) ->
  exists r, binop N o xu xw = Ok r /\ at_index i v r.
Proof.
  intros Hshape Hv Hu Hw Harr.
  destruct u as [a | a | l1 | | n1], w as [b | b | l2 | | n2];
    cbn [at_index] in Hu, Hw; try contradiction;
    try (destruct Harr as [[l Hl] | [l Hl]]; discriminate Hl).
  - destruct Hw as (y & Hy & ->). subst xu.
    cbn [binop broadcast] in Hv |- *. apply Ok_inj in Hv. subst v.
    eexists; split; [reflexivity |]. cbn [at_index].
    exists (np_binop N o a y). split; [| reflexivity].
    rewrite nth_error_map, Hy. reflexivity.
  - destruct Hw as (y & Hy & ->). subst xu.
    cbn [binop broadcast] in Hv |- *. apply Ok_inj in Hv. subst v.
    eexists; split; [reflexivity |]. cbn [at_index].
    exists (np_binop N o a y). split; [| reflexivity].
    rewrite nth_error_map, Hy. reflexivity.
  - destruct Hu as (y & Hy & ->). subst xw.
    cbn [binop broadcast] in Hv |- *. apply Ok_inj in Hv. subst v.
    eexists; split; [reflexivity |]. cbn [at_index].
    exists (np_binop N o y b). split; [| reflexivity].
    rewrite nth_error_map, Hy. reflexivity.
  - destruct Hu as (y & Hy & ->). subst xw.
    cbn [binop broadcast] in Hv |- *. apply Ok_inj in Hv. subst v.
    eexists; split; [reflexivity |]. cbn [at_index].
    exists (np_binop N o y b). split; [| reflexivity].
    rewrite nth_error_map, Hy. reflexivity.
  - destruct Hu as (y1 & Hy1 & ->), Hw as (y2 & Hy2 & ->).
    assert (Hlen : List.length l1 = List.length l2).
    { destruct Hshape as [H | [[_ H] | [_ H]]]; [exact H | |];
        exfalso; eapply H; reflexivity. }
    cbn [binop broadcast] in Hv |- *.
    rewrite Hlen, Nat.eqb_refl in Hv. apply Ok_inj in Hv. subst v.
    eexists; split; [reflexivity |]. cbn [at_index].
    exists (np_binop N o y1 y2). split; [| reflexivity].
    apply nth_error_map2; assumption.
Qed.

Lemma at_index_scalar (i : nat) (v : NVal) (c : Binary64.float) :
  scalar_val v = Some c -> at_index i v v.
Proof. destruct v; simpl; try discriminate; reflexivity. Qed.

Lemma eval_at_index (N : Namespace) (arg : string) (e : Expr)
    (xs : list Binary64.float) (i : nat) (x : Binary64.float) :
  (forall s, In s (free_symbols e) -> s = arg) ->
  nth_error xs i = Some x ->
  forall v, eval N arg e (NpArr xs) = Ok v ->
  exists w, eval N arg e (NpNum x) = Ok w /\ at_index i v w.
Proof.
  intros Hfree Hx.
  assert (Hbin : forall o ea eb,
            (forall s, In s (free_symbols ea ++ free_symbols eb) -> s = arg) ->
            (forall v, eval N arg ea (NpArr xs) = Ok v ->
               exists w, eval N arg ea (NpNum x) = Ok w /\ at_index i v w) ->
            (forall v, eval N arg eb (NpArr xs) = Ok v ->
               exists w, eval N arg eb (NpNum x) = Ok w /\ at_index i v w) ->
            forall v,
            (u <- eval N arg ea (NpArr xs) ;;
             w <- eval N arg eb (NpArr xs) ;; binop N o u w)%result = Ok v ->
            exists r,
              (u <- eval N arg ea (NpNum x) ;;
               w <- eval N arg eb (NpNum x) ;; binop N o u w)%result = Ok r
              /\ at_index i v r).
  { intros o ea eb Hf IHa IHb v Hv.
    apply rbind_ok in Hv as (u & Hu & Hv).
    apply rbind_ok in Hv as (w & Hw & Hv).
    assert (Hfa : forall s, In s (free_symbols ea) -> s = arg)
      by (intros s Hs; apply Hf, in_or_app; auto).
    assert (Hfb : forall s, In s (free_symbols eb) -> s = arg)
      by (intros s Hs; apply Hf, in_or_app; auto).
    pose proof (eval_shaped N arg xs ea Hfa u Hu) as Su.
    pose proof (eval_shaped N arg xs eb Hfb w Hw) as Sw.
    destruct (IHa u Hu) as (xu & Hxu & Au).
    destruct (IHb w Hw) as (xw & Hxw & Aw).
    rewrite Hxu. cbn [rbind]. rewrite Hxw. cbn [rbind].
    destruct (mentions arg ea) eqn:Ma, (mentions arg eb) eqn:Mb;
      cbn [shaped] in Su, Sw.
    - destruct Su as (l1 & -> & L1), Sw as (l2 & -> & L2).
      apply (binop_at_index N o i (NpArr l1) (NpArr l2) v xu xw);
        try assumption; [left; cbn; congruence | left; eauto].
    - destruct Su as (l1 & -> & L1), Sw as (b & Hb).
      apply (binop_at_index N o i (NpArr l1) w v xu xw);
        try assumption; [| left; eauto].
      right; right. destruct w; simpl in Hb; try discriminate;
        (split; [reflexivity | discriminate]).
    - destruct Su as (a & Ha), Sw as (l2 & -> & L2).
      apply (binop_at_index N o i u (NpArr l2) v xu xw);
        try assumption; [| right; eauto].
      right; left. destruct u; simpl in Ha; try discriminate;
        (split; [reflexivity | discriminate]).
    - destruct Su as (a & Ha), Sw as (b & Hb).
      assert (xu = u) by (destruct u; simpl in Ha; try discriminate; exact Au).
      assert (xw = w) by (destruct w; simpl in Hb; try discriminate; exact Aw).
      subst xu xw. exists v. split; [exact Hv |].
      destruct (binop_shaped N o 0 false false u w v) as (c & Hc);
        [eexists; eassumption | eexists; eassumption | exact Hv |].
      apply (at_index_scalar i v c Hc). }
  induction e as [n | c | s | c | ea IHa eb IHb | ea IHa eb IHb | ea IHa eb IHb
                 | name ea IHa]; intros v Hv.
  - cbn [eval] in Hv |- *.
    destruct (Binary64.is_finite (Binary64.of_Z n)); [| discriminate].
    apply Ok_inj in Hv. subst v. eexists; split; reflexivity.
  - cbn [eval] in Hv |- *. apply Ok_inj in Hv. subst v.
    eexists; split; reflexivity.
  - assert (Hs : s = arg) by (apply Hfree; left; reflexivity). subst s.
    cbn [eval] in Hv |- *. rewrite String.eqb_refl in Hv |- *.
    apply Ok_inj in Hv. subst v. eexists; split; [reflexivity |].
    cbn [at_index]. eauto.
  - cbn [eval] in Hv |- *. destruct (np_const N c); [| discriminate].
    apply Ok_inj in Hv. subst v. eexists; split; reflexivity.
  - cbn [eval free_symbols] in *.
    apply (Hbin OAdd ea eb Hfree); try assumption;
      [apply IHa | apply IHb]; intros s Hs; apply Hfree, in_or_app; auto.
  - cbn [eval free_symbols] in *.
    apply (Hbin OMul ea eb Hfree); try assumption;
      [apply IHa | apply IHb]; intros s Hs; apply Hfree, in_or_app; auto.
  - cbn [eval free_symbols] in *.
    apply (Hbin OPow ea eb Hfree); try assumption;
      [apply IHa | apply IHb]; intros s Hs; apply Hfree, in_or_app; auto.
  - cbn [eval free_symbols] in *.
    destruct (np_func N name) as [g |]; [| discriminate].
    apply rbind_ok in Hv as (u & Hu & Hv).
    destruct (IHa Hfree u Hu) as (xu & Hxu & Au).
    rewrite Hxu. cbn [rbind].
    destruct u as [a | a | l | | n]; cbn [at_index] in Au; try contradiction.
    + subst xu. apply Ok_inj in Hv. subst v. eexists; split; reflexivity.
    + subst xu. apply Ok_inj in Hv. subst v. eexists; split; reflexivity.
    + destruct Au as (y & Hy & ->). apply Ok_inj in Hv. subst v.
      eexists; split; [reflexivity |]. cbn [apply_ufunc at_index].
      exists (g y). split; [| reflexivity].
      rewrite nth_error_map, Hy. reflexivity.
Qed.

(** X14. Calling a generated function on an array is calling it entry by
    entry: for an expression in the argument alone, when the call on an
    array returns an array, the entry at each index is what the function
    returns on the NumPy scalar at that index of the argument, and that
    call raises nothing. *)
Theorem vectorised_evaluation_is_elementwise (N : Namespace) (arg : string)
    (e : Expr) (xs l : list Binary64.float) (i : nat) (x : Binary64.float) :
  (forall s, In s (free_symbols e) -> s = arg) ->
  lambdify N arg e (NpArr xs) = Ok (NpArr l) ->
  nth_error xs i = Some x ->
  exists y, nth_error l i = Some y
            /\ lambdify N arg e (NpNum x) = Ok (NpNum y).
Proof.
  intros Hfree Hl Hx. unfold lambdify in *.
  destruct (eval_at_index N arg e xs i x Hfree Hx _ Hl) as (w & Hw & Aw).
  cbn [at_index] in Aw. destruct Aw as (y & Hy & ->). eauto.
Qed.

Lemma vectorised_evaluation_is_elementwise_witness :
  exists y,
    nth_error (map (fun v => Binary64.mul v v) x_vals) 0 = Some y
    /\ lambdify Toy.namespace x_sym (EPow Toy.X (Int 2))
         (NpNum (Binary64.of_Z (-10))) = Ok (NpNum y).
Proof.
  apply (vectorised_evaluation_is_elementwise Toy.namespace x_sym
           (EPow Toy.X (Int 2)) x_vals
           (map (fun v => Binary64.mul v v) x_vals) 0 (Binary64.of_Z (-10))).
  - intros s Hs. cbn in Hs. destruct Hs as [<- | []]. reflexivity.
  - vm_compute. reflexivity.
  - vm_compute. reflexivity.
Defined.

(** ** The problem set *)

(** X15. The five reveal buttons are independent: whatever their states,
    the problem set renders all five buttons and goes through, and the
    formulas it renders are, in the order of the exercises, the solution
    lines of each exercise whose own button is pressed, with the texts of
    the source, and nothing else. *)
Theorem problem_set_reveals_pressed_solutions (show : nat -> bool) :
  snd (problem_set show) = Done tt
  /\ buttons (fst (problem_set show)) =
       ["Show Solution 1"; "Show Solution 2"; "Show Solution 3";
        "Show Solution 4"; "Show Solution 5"]
  /\ formulas (fst (problem_set show)) =
       (if show 1%nat
        then [Static "f'(x) = 2x + 3"; Static "f'(2) = 2(2) + 3 = 7"]
        else [])
       ++ (if show 2%nat
           then [Static ("= \lim_{x " ++ tab ++ "o 1} " ++ formfeed
                         ++ "rac{(x - 1)(x + 1)}{x - 1} = \lim_{x " ++ tab
                         ++ "o 1} x + 1 = 2")%string]
           else [])
       ++ (if show 3%nat
           then [Static "\lim_{x \to 0^-} \frac{-x}{x} = -1"]
           else [])
       ++ (if show 4%nat
           then [Static "f'(x) = 12x^2 - 4x + 1"]
           else [])
       ++ (if show 5%nat
           then [Static "f'(x) = 2x \Rightarrow f'(3) = 6";
                 Static "Point: (3, 9), Slope: 6";
                 Static
                   "Tangent Line: y - 9 = 6(x - 3) \Rightarrow y = 6x - 9"]
           else []).
Proof.
  split; [apply problem_set_done |].
  unfold problem_set, problem.
  destruct (show 1%nat), (show 2%nat), (show 3%nat), (show 4%nat),
    (show 5%nat); split; reflexivity.
Qed.

(** ** The grids in exact arithmetic *)

Lemma inject_nat_succ (n : nat) :
  (inject_Z (Z.of_nat (S n)) == inject_Z (Z.of_nat n) + 1)%Q.
Proof.
  rewrite Nat2Z.inj_succ. unfold Z.succ. rewrite inject_Z_plus. reflexivity.
Qed.

Lemma inject_nat_nonzero (n : nat) : ~ (inject_Z (Z.of_nat (S n)) == 0)%Q.
Proof.
  unfold Qeq. cbn [Qnum Qden inject_Z]. rewrite Z.mul_1_r. cbn [Z.mul].
  rewrite Nat2Z.inj_succ. lia.
Qed.

(** An entry of [linspace] over the rationals, before the last one. *)
Lemma linspace_entry_exact (start stop : Q) (n i : nat) :
  (linspace_entry start stop (S (S n)) i ==
   start + inject_Z (Z.of_nat i)
           * ((stop - start) / inject_Z (Z.of_nat (S n))))%Q.
Proof.
  unfold linspace_entry. cbn [radd rsub rmul rdiv rofZ reqb Arith_Q].
  replace (S (S n) - 1)%nat with (S n) by lia.
  pose proof (inject_nat_nonzero n) as Hn.
  destruct (Qeq_bool _ _); field; exact Hn.
Qed.

Lemma linspace_nth (start stop : Q) (n i : nat) :
  (i < S n)%nat ->
  nth i (linspace start stop (S (S n))) 0%Q =
    linspace_entry start stop (S (S n)) i.
Proof.
  intros Hi. cbn [linspace].
  rewrite app_nth1 by (rewrite length_map, length_seq; exact Hi).
  rewrite (nth_indep _ 0%Q (linspace_entry start stop (S (S n)) 0%nat))
    by (rewrite length_map, length_seq; exact Hi).
  rewrite map_nth, seq_nth by exact Hi. reflexivity.
Qed.

Lemma linspace_last (start stop : Q) (n : nat) :
  nth (S n) (linspace start stop (S (S n))) 0%Q = stop.
Proof.
  cbn [linspace].
  rewrite app_nth2 by (rewrite length_map, length_seq; apply Nat.le_refl).
  rewrite length_map, length_seq, Nat.sub_diag. reflexivity.
Qed.

(** X16. [linspace] in exact arithmetic: with at least two points it has
    as many entries as asked for, starts at [start], ends at [stop], and
    any two consecutive entries differ by the same step
    [(stop - start) / (num - 1)] - the last pair included, although the
    last entry is written separately. *)
Theorem linspace_exact_is_evenly_spaced (start stop : Q) (num i : nat) :
  (i + 1 < num)%nat ->
  let l := linspace start stop num in
  List.length l = num
  /\ (nth 0 l 0 == start)%Q
  /\ last l 0%Q = stop
  /\ (nth (S i) l 0 - nth i l 0 ==
      (stop - start) / inject_Z (Z.of_nat (num - 1)))%Q.
Proof.
  intros Hi.
  destruct num as [| [| n]]; [lia | lia |]. cbn zeta.
  pose proof (inject_nat_nonzero n) as Hn.
  split; [| split; [| split]].
  - cbn [linspace]. rewrite length_app, length_map, length_seq. cbn. lia.
  - rewrite linspace_nth by lia. rewrite linspace_entry_exact.
    cbn [Z.of_nat]. field. exact Hn.
  - cbn [linspace]. apply last_last.
  - replace (S (S n) - 1)%nat with (S n) by lia.
    rewrite (linspace_nth start stop n i) by lia.
    rewrite (linspace_entry_exact start stop n i).
    destruct (Nat.eq_dec (S i) (S n)) as [He | Hne].
    + rewrite He, linspace_last. injection He as ->.
      rewrite (inject_nat_succ n) in *. field. exact Hn.
    + rewrite (linspace_nth start stop n (S i)) by lia.
      rewrite (linspace_entry_exact start stop n (S i)).
      rewrite (inject_nat_succ i). field. exact Hn.
Qed.

Lemma linspace_exact_is_evenly_spaced_witness :
  List.length h_exact = 20%nat
  /\ (nth 0 h_exact 0 == 1)%Q
  /\ last h_exact 0%Q = (1 # 100)%Q
  /\ (nth 1 h_exact 0 - nth 0 h_exact 0 ==
      ((1 # 100) - 1) / inject_Z (Z.of_nat (20 - 1)))%Q.
Proof.
  apply (linspace_exact_is_evenly_spaced 1%Q (1 # 100)%Q 20 0). lia.
Defined.

(** ** The launcher's path *)

(** X17. [os.path.join] restarts at an absolute component: whatever came
    before it - the directory of the launcher included - is discarded,
    and the result is the join of that component with what follows it. *)
Theorem join_restarts_at_absolute_component (a b : string)
    (before after : list string) :
  Launcher.startswith_sep b = true ->
  Launcher.join a (before ++ b :: after) = Launcher.join b after.
Proof.
  intros Hb. unfold Launcher.join. rewrite fold_left_app. cbn [fold_left].
  unfold Launcher.join_step at 2. rewrite Hb. reflexivity.
Qed.

Lemma join_restarts_at_absolute_component_witness :
  Launcher.join "/opt/calcs" ["jb"; "/home/execu"; "main.py"] =
  Launcher.join "/home/execu" ["main.py"].
Proof.
  apply (join_restarts_at_absolute_component "/opt/calcs" "/home/execu"
           ["jb"] ["main.py"]).
  reflexivity.
Defined.
